(** * osqt: extraction of OSQuery table definitions

    A shallow embedding of the extraction and modelling engine of
    [github.com/gen0cide/osqt] (package [osqt] and [osqt/virtual]) together
    with the properties stated about it.

    Conventions of the embedding.
    - Go pointers to structs that are owned by exactly one parent during
      extraction (a [Column] in a [Schema], a [Schema] in a [Table]) are
      modelled by value; a nil-able pointer is an [option].
    - A method with a pointer receiver that mutates its receiver and returns
      an [error] is a function from the receiver's state to the new state and
      a [result]; a Go run-time panic is the [Panic] result.  The state is
      kept on every path, because Go keeps the mutations made before an
      error is returned.
    - Calls to loggers are not represented, except [Fatalw], which ends the
      process.
    - A call that starts goroutines is a transition system on the state of
      its channels and goroutines; a run is a list of moves, one goroutine
      at a time, and a statement about the call is made for every run.  A
      send on a buffered channel waits while the buffer is full, a receive
      while it is empty, and a [select] takes any case that is ready.
    - A Go [map] is a [gmap]; a Go map that was built only to remove
      duplicates and is then read back with [range] (whose order Go leaves
      unspecified) is read back with [elements]; statements about such lists
      are made up to the order of their elements. *)

From stdpp Require Import gmap strings list fin_maps sorting.
From Stdlib Require Import ZArith Ascii.

Open Scope string_scope.
Open Scope list_scope.

#[local] Set Warnings "-register-all,-clear-no-such-hyp".

(** ** Results of fallible code *)

(** The errors built with [xerrors.Errorf], [xerrors.New] and [fmt.Errorf],
    one constructor per call site, carrying the values that the message
    formats. *)
Inductive error : Type :=
| ErrLambdaBodyType            (* lambda body type mismatch *)
| ErrLambdaBodyOp              (* lambda body operation mismatch *)
| ErrLambdaOrValue             (* lambda OR value mismatch *)
| ErrLambdaOrValueFunc         (* lambda OR value function mismatch *)
| ErrNoTableCategory (id : string)
| ErrCallerNotName             (* caller function is not a past.Name *)
| ErrPlatformArgType           (* could not determine type for extended_schema platform argument *)
| ErrArgNotList (argsIndex : nat) (extended : bool)
| ErrElemNotCall (colidx : nat)
| ErrColumnCallerNotName (colidx : nat)
| ErrSchemaAlreadySet          (* schema is already a non-nil value for table *)
| ErrArg0NotList               (* argument 0 was not a list *)
| ErrElemNotStr (elmidx : nat)
| ErrArg0NotString             (* argument 0 was not of type string *)
| ErrOpen (fileloc : list string)   (* os.Open failed; the path, by elements *)
| ErrSyntax (filename : string)(* gparser.Parse failed *)
| ErrWalk (path : list string)      (* godirwalk could not read a directory *)
| ErrDatabaseInitialized.

(** What a Go panic carries: a run-time error or the value given to
    [panic]. *)
Inductive panic : Type :=
| IndexOutOfRange (index len : nat)
| NilDereference
| PanicError (e : error)
| UnsupportedType (type name : string).

Inductive result (A : Type) : Type :=
| Ok (a : A)
| Err (e : error)
| Panic (p : panic).
Arguments Ok {A} a.
Arguments Err {A} e.
Arguments Panic {A} p.

(** State and failure: the state is threaded through failures too. *)
Definition M (S A : Type) : Type := S -> S * result A.

Definition ret {S A} (a : A) : M S A := fun s => (s, Ok a).
Definition bind {S A B} (c : M S A) (k : A -> M S B) : M S B :=
  fun s => match c s with
           | (s', Ok a) => k a s'
           | (s', Err e) => (s', Err e)
           | (s', Panic p) => (s', Panic p)
           end.
Definition throw {S A} (e : error) : M S A := fun s => (s, Err e).
Definition raise {S A} (p : panic) : M S A := fun s => (s, Panic p).
Definition get {S} : M S S := fun s => (s, Ok s).
Definition modify {S} (f : S -> S) : M S unit := fun s => (f s, Ok tt).

#[global] Instance M_ret {S} : MRet (M S) := fun A => @ret S A.
#[global] Instance M_bind {S} : MBind (M S) := fun A B k c => @bind S A B c k.

(** [xs[i]] on a slice: a run-time panic when [i] is out of range. *)
Definition index {S A} (xs : list A) (i : nat) : M S A :=
  match xs !! i with
  | Some x => ret x
  | None => raise (IndexOutOfRange i (length xs))
  end.

(** ** The syntax tree of github.com/go-python/gpython/ast *)

Module past.

(** The values a [NameConstant] holds: [py.True], [py.False], [py.None]. *)
Inductive Singleton : Type := PyTrue | PyFalse | PyNone.

Inductive BoolOpNumber : Type := And | Or.

(** The expression nodes the extractor inspects, and [Num] and
    [Attribute] for the node kinds that no type switch of the extractor
    matches.  A keyword argument [Keyword{Arg, Value}] is a pair. *)
Inductive Ast : Type :=
| Call (Func : Ast) (Args : list Ast) (Keywords : list (string * Ast))
| Name (Id : string)
| Str (S : string)
| Num (N : Z)
| NameConstant (Value : Singleton)
| List (Elts : list Ast)
| Lambda (Body : Ast)
| BoolOp (Op : BoolOpNumber) (Values : list Ast)
| Attribute (Value : Ast) (Attr : string).

Definition Keyword : Type := string * Ast.

End past.

(** The value of an [interface{}] slot filled by the extractor: the
    [py.Object] of a [NameConstant], or a Go string. *)
Inductive scalar : Type :=
| SObject (v : past.Singleton)
| SString (s : string).

#[global] Instance singleton_eq_dec : EqDecision past.Singleton.
Proof. solve_decision. Defined.
#[global] Instance scalar_eq_dec : EqDecision scalar.
Proof. solve_decision. Defined.

(** [fmt.Sprintf("%v", v)] on the value of a [NameConstant]: [py.Bool] is a
    Go [bool] and [py.NoneType] an empty struct, neither has a [String]
    method. *)
Definition sprintf_v (v : past.Singleton) : string :=
  match v with
  | past.PyTrue => "true"
  | past.PyFalse => "false"
  | past.PyNone => "{}"
  end.

(** The type switch on the value of a keyword argument that
    [Schema.ExtractSchema] (twice) and [Table.ExtractAttributes] share:
    [m[optkey] = ...] for a [NameConstant], a [Str] or a [Name], nothing for
    any other node. *)
Definition setOption (m : gmap string scalar) (kw : past.Keyword) : gmap string scalar :=
  let optkey := kw.1 in
  match kw.2 with
  | past.NameConstant v => <[optkey := SObject v]> m
  | past.Str s => <[optkey := SString s]> m
  | past.Name id => <[optkey := SString id]> m
  | _ => m
  end.

Definition setOptions (m : gmap string scalar) (kws : list past.Keyword) : gmap string scalar :=
  foldl setOption m kws.

(** ** Static tables (schema.go) *)

Definition CanonicalPlatforms : gmap string string :=
  list_to_map
    [ ("specs", "All Platforms");
      ("darwin", "Darwin (Apple OS X)");
      ("linux", "Ubuntu, CentOS");
      ("freebsd", "FreeBSD");
      ("posix", "POSIX-compatible Plaforms");
      ("windows", "Microsoft Windows");
      ("utility", "Utility");
      ("yara", "YARA");
      ("smart", "SMART");
      ("lldpd", "LLDPD");
      ("sleuthkit", "The Sleuth Kit");
      ("macwin", "MacOS and Windows");
      ("linwin", "Linux and Windows") ].

Definition GOOSToApplicableNamespaces : gmap string (list string) :=
  list_to_map
    [ ("linux", ["specs"; "linux"; "posix"; "utility"; "yara"; "smart"; "lldpd"; "sleuthkit"; "linwin"]);
      ("darwin", ["specs"; "posix"; "utility"; "darwin"; "yara"; "smart"; "lldpd"; "sleuthkit"; "macwin"]);
      ("windows", ["specs"; "windows"; "utility"; "yara"; "smart"; "sleuthkit"; "macwin"; "linwin"]);
      ("freebsd", ["specs"; "freebsd"; "posix"; "utility"; "yara"; "smart"; "lldpd"]) ].

Definition TableCategories : gmap string (list string) :=
  list_to_map
    [ ("WINDOWS", ["windows"; "win32"; "cygwin"]);
      ("LINUX", ["linux"]);
      ("POSIX", ["linux"; "darwin"; "freebsd"]);
      ("DARWIN", ["darwin"]);
      ("FREEBSD", ["freebsd"]) ].

(** ** Column (column.go) *)

(** The primitive types of gopkg.in/src-d/go-mysql-server.v0/sql that the
    adapter uses. *)
Module sql.
Inductive PrimType : Type :=
| Text | Date | Timestamp | Int32 | Int64 | Uint64 | Float64 | Blob.

Record Column : Type := mkColumn {
  Name : string;
  Type_ : PrimType;
  Source : string;
  Nullable : bool
}.

Definition Schema : Type := list Column.

#[global] Instance PrimType_eq_dec : EqDecision PrimType.
Proof. solve_decision. Defined.
End sql.

Module Column.

Record t : Type := mk {
  Index : Z;
  Name : string;
  Type_ : string;
  Description : string;
  Aliases : list string;
  Options : gmap string scalar
}.

Definition NewEmptyColumn : t :=
  {| Index := 0; Name := EmptyString; Type_ := EmptyString;
     Description := EmptyString;
     Aliases := []; Options := ∅ |}.

Definition set_Index (v : Z) (c : t) : t :=
  {| Index := v; Name := Name c; Type_ := Type_ c; Description := Description c;
     Aliases := Aliases c; Options := Options c |}.
Definition set_Name (v : string) (c : t) : t :=
  {| Index := Index c; Name := v; Type_ := Type_ c; Description := Description c;
     Aliases := Aliases c; Options := Options c |}.
Definition set_Type (v : string) (c : t) : t :=
  {| Index := Index c; Name := Name c; Type_ := v; Description := Description c;
     Aliases := Aliases c; Options := Options c |}.
Definition set_Description (v : string) (c : t) : t :=
  {| Index := Index c; Name := Name c; Type_ := Type_ c; Description := v;
     Aliases := Aliases c; Options := Options c |}.
Definition set_Options (v : gmap string scalar) (c : t) : t :=
  {| Index := Index c; Name := Name c; Type_ := Type_ c; Description := Description c;
     Aliases := Aliases c; Options := v |}.

(** The [switch c.Type] of [ToSQLSchema] ([Type] is the field [Type_]). *)
Definition sqlType (ty : string) : option sql.PrimType :=
  if decide (ty = "TEXT") then Some sql.Text
  else if decide (ty = "DATE") then Some sql.Date
  else if decide (ty = "DATETIME") then Some sql.Timestamp
  else if decide (ty = "INTEGER") then Some sql.Int32
  else if decide (ty = "BIGINT") then Some sql.Int64
  else if decide (ty = "UNSIGNED_BIGINT") then Some sql.Uint64
  else if decide (ty = "DOUBLE") then Some sql.Float64
  else if decide (ty = "BLOB") then Some sql.Blob
  else None.

Definition ToSQLSchema (c : t) (tablename : string) : result sql.Column :=
  match sqlType (Type_ c) with
  | Some ty =>
      Ok {| sql.Name := Name c; sql.Type_ := ty;
            sql.Source := tablename; sql.Nullable := true |}
  | None => Panic (UnsupportedType (Type_ c) (Name c))
  end.

End Column.

(** ** Schema (schema.go) *)

Module Schema.

(** The exported fields of the struct.  The unexported [logger] and the
    back pointer [Table] are read by [Logger] and [TableName] only; they
    are represented where they matter, in [Mem] below. *)
Record t : Type := mk {
  Platforms : list string;
  Extended : bool;
  Columns : list Column.t;
  ForeignKeys : list (gmap string scalar)
}.

Definition NewEmptySchema : t :=
  {| Platforms := []; Extended := false; Columns := []; ForeignKeys := [] |}.

Definition set_Platforms (v : list string) (s : t) : t :=
  {| Platforms := v; Extended := Extended s; Columns := Columns s;
     ForeignKeys := ForeignKeys s |}.
Definition set_Extended (v : bool) (s : t) : t :=
  {| Platforms := Platforms s; Extended := v; Columns := Columns s;
     ForeignKeys := ForeignKeys s |}.
Definition set_Columns (v : list Column.t) (s : t) : t :=
  {| Platforms := Platforms s; Extended := Extended s; Columns := v;
     ForeignKeys := ForeignKeys s |}.
Definition set_ForeignKeys (v : list (gmap string scalar)) (s : t) : t :=
  {| Platforms := Platforms s; Extended := Extended s; Columns := Columns s;
     ForeignKeys := v |}.

(** The block that [ParseLambda] and the three lookup cases of
    [ExtractSchema] repeat: [tmp] collects the elements of [s.Platforms]
    and of [platformList] as keys, and [res] lists the keys of [tmp]. *)
Definition unionPlatforms (cur platformList : list string) : list string :=
  let tmp : gset string := list_to_set cur ∪ list_to_set platformList in
  elements tmp.

(** [platformList, ok := TableCategories[key]], the error on a miss, and
    the block above. *)
Definition mergeCategory (key : string) : M t unit :=
  match TableCategories !! key with
  | None => throw (ErrNoTableCategory key)
  | Some platformList =>
      modify (fun s => set_Platforms (unionPlatforms (Platforms s) platformList) s)
  end.

(** The loop [for _, valast := range bodyOp.Values] of [ParseLambda]. *)
Fixpoint parseLambdaValues (values : list past.Ast) : M t unit :=
  match values with
  | [] => mret tt
  | valast :: rest =>
      match valast with
      | past.Call (past.Name id) _ _ =>
          mergeCategory id;; parseLambdaValues rest
      | past.Call _ _ _ => throw ErrLambdaOrValueFunc
      | _ => throw ErrLambdaOrValue
      end
  end.

(** [ParseLambda(lambda)], given [lambda.Body]. *)
Definition ParseLambda (body : past.Ast) : M t unit :=
  match body with
  | past.BoolOp past.Or values => parseLambdaValues values
  | past.BoolOp _ _ => throw ErrLambdaBodyOp
  | _ => throw ErrLambdaBodyType
  end.

(** The body of the loop [for colidx, coldef := range arglist.Elts]. *)
Definition extractColumn (colidx : nat) (coldef : past.Ast) : M t unit :=
  match coldef with
  | past.Call (past.Name id) args keywords =>
      if decide (id = "ForeignKey") then
        let fkey := setOptions ∅ keywords in
        modify (fun s => set_ForeignKeys (ForeignKeys s ++ [fkey]) s)
      else
        let col := Column.set_Index (Z.of_nat colidx) Column.NewEmptyColumn in
        if decide (length args < 1) then mret tt
        else
          a0 ← index args 0;
          let col := match a0 with
                     | past.Str s => Column.set_Name s col
                     | _ => col
                     end in
          a1 ← index args 1;
          let col := match a1 with
                     | past.Name ty => Column.set_Type ty col
                     | _ => col
                     end in
          a2 ← index args 2;
          let col := match a2 with
                     | past.Str s => Column.set_Description s col
                     | _ => col
                     end in
          let col := Column.set_Options (setOptions (Column.Options col) keywords) col in
          modify (fun s => set_Columns (Columns s ++ [col]) s)
  | past.Call _ _ _ => throw (ErrColumnCallerNotName colidx)
  | _ => throw (ErrElemNotCall colidx)
  end.

Fixpoint extractColumns (colidx : nat) (elts : list past.Ast) : M t unit :=
  match elts with
  | [] => mret tt
  | coldef :: rest =>
      extractColumn colidx coldef;; extractColumns (S colidx) rest
  end.

(** [ExtractSchema(node)], given the fields of the call node. *)
Definition ExtractSchema (Func : past.Ast) (Args : list past.Ast)
    (Keywords : list past.Keyword) : M t unit :=
  match Func with
  | past.Name callerFuncName =>
      argsIndex ←
        (if decide (callerFuncName = "extended_schema") then
           modify (set_Extended true);;
           platformArg ← index Args 0;
           match platformArg with
           | past.NameConstant v => mergeCategory (sprintf_v v)
           | past.Str s => mergeCategory s
           | past.Name id => mergeCategory id
           | past.Lambda body => ParseLambda body
           | _ => throw ErrPlatformArgType
           end;;
           mret 1
         else mret 0);
      arg ← index Args argsIndex;
      match arg with
      | past.List elts => extractColumns 0 elts
      | _ => s ← get; throw (ErrArgNotList argsIndex (Extended s))
      end
  | _ => throw ErrCallerNotName
  end.

End Schema.

(** ** Table (table.go) *)

Module Table.

(** The exported fields of the struct; the back pointer [Namespace], the
    [logger] and the embedded lock are represented in [Mem] where they
    matter.  A table handled by the extractor comes from [NewEmptyTable],
    so none of its maps is nil. *)
Record t : Type := mk {
  NamespaceID : string;
  Name : string;
  Aliases : list string;
  Description : string;
  Schema : option Schema.t;
  Attributes : gmap string scalar;
  Implementation : string;
  FuzzPaths : list string;
  ExtendedSchemas : gmap string Schema.t;
  Examples : list string
}.

Definition NewEmptyTable : t :=
  {| NamespaceID := EmptyString; Name := EmptyString; Aliases := [];
     Description := EmptyString; Schema := None; Attributes := ∅;
     Implementation := EmptyString; FuzzPaths := [];
     ExtendedSchemas := ∅; Examples := [] |}.

Definition set_NamespaceID (v : string) (x : t) : t :=
  {| NamespaceID := v; Name := Name x; Aliases := Aliases x;
     Description := Description x; Schema := Schema x;
     Attributes := Attributes x; Implementation := Implementation x;
     FuzzPaths := FuzzPaths x; ExtendedSchemas := ExtendedSchemas x;
     Examples := Examples x |}.
Definition set_Name (v : string) (x : t) : t :=
  {| NamespaceID := NamespaceID x; Name := v; Aliases := Aliases x;
     Description := Description x; Schema := Schema x;
     Attributes := Attributes x; Implementation := Implementation x;
     FuzzPaths := FuzzPaths x; ExtendedSchemas := ExtendedSchemas x;
     Examples := Examples x |}.
Definition set_Aliases (v : list string) (x : t) : t :=
  {| NamespaceID := NamespaceID x; Name := Name x; Aliases := v;
     Description := Description x; Schema := Schema x;
     Attributes := Attributes x; Implementation := Implementation x;
     FuzzPaths := FuzzPaths x; ExtendedSchemas := ExtendedSchemas x;
     Examples := Examples x |}.
Definition set_Description (v : string) (x : t) : t :=
  {| NamespaceID := NamespaceID x; Name := Name x; Aliases := Aliases x;
     Description := v; Schema := Schema x;
     Attributes := Attributes x; Implementation := Implementation x;
     FuzzPaths := FuzzPaths x; ExtendedSchemas := ExtendedSchemas x;
     Examples := Examples x |}.
Definition set_Schema (v : option Schema.t) (x : t) : t :=
  {| NamespaceID := NamespaceID x; Name := Name x; Aliases := Aliases x;
     Description := Description x; Schema := v;
     Attributes := Attributes x; Implementation := Implementation x;
     FuzzPaths := FuzzPaths x; ExtendedSchemas := ExtendedSchemas x;
     Examples := Examples x |}.
Definition set_Attributes (v : gmap string scalar) (x : t) : t :=
  {| NamespaceID := NamespaceID x; Name := Name x; Aliases := Aliases x;
     Description := Description x; Schema := Schema x;
     Attributes := v; Implementation := Implementation x;
     FuzzPaths := FuzzPaths x; ExtendedSchemas := ExtendedSchemas x;
     Examples := Examples x |}.
Definition set_Implementation (v : string) (x : t) : t :=
  {| NamespaceID := NamespaceID x; Name := Name x; Aliases := Aliases x;
     Description := Description x; Schema := Schema x;
     Attributes := Attributes x; Implementation := v;
     FuzzPaths := FuzzPaths x; ExtendedSchemas := ExtendedSchemas x;
     Examples := Examples x |}.
Definition set_FuzzPaths (v : list string) (x : t) : t :=
  {| NamespaceID := NamespaceID x; Name := Name x; Aliases := Aliases x;
     Description := Description x; Schema := Schema x;
     Attributes := Attributes x; Implementation := Implementation x;
     FuzzPaths := v; ExtendedSchemas := ExtendedSchemas x;
     Examples := Examples x |}.
Definition set_ExtendedSchemas (v : gmap string Schema.t) (x : t) : t :=
  {| NamespaceID := NamespaceID x; Name := Name x; Aliases := Aliases x;
     Description := Description x; Schema := Schema x;
     Attributes := Attributes x; Implementation := Implementation x;
     FuzzPaths := FuzzPaths x; ExtendedSchemas := v;
     Examples := Examples x |}.
Definition set_Examples (v : list string) (x : t) : t :=
  {| NamespaceID := NamespaceID x; Name := Name x; Aliases := Aliases x;
     Description := Description x; Schema := Schema x;
     Attributes := Attributes x; Implementation := Implementation x;
     FuzzPaths := FuzzPaths x; ExtendedSchemas := ExtendedSchemas x;
     Examples := v |}.

(** The loop over [arglist.Elts] of [ExtractFuzzPaths] and
    [ExtractExamples]: each string is appended as soon as it is read. *)
Fixpoint appendStrs (app : string -> t -> t) (elmidx : nat)
    (elts : list past.Ast) : M t unit :=
  match elts with
  | [] => mret tt
  | past.Str s :: rest => modify (app s);; appendStrs app (S elmidx) rest
  | _ :: _ => throw (ErrElemNotStr elmidx)
  end.

Definition ExtractFuzzPaths (Args : list past.Ast) : M t unit :=
  arg ← index Args 0;
  match arg with
  | past.List elts =>
      appendStrs (fun s x => set_FuzzPaths (FuzzPaths x ++ [s]) x) 0 elts
  | _ => throw ErrArg0NotList
  end.

Definition ExtractExamples (Args : list past.Ast) : M t unit :=
  arg ← index Args 0;
  match arg with
  | past.List elts =>
      appendStrs (fun s x => set_Examples (Examples x ++ [s]) x) 0 elts
  | _ => throw ErrArg0NotList
  end.

Definition ExtractAttributes (Keywords : list past.Keyword) : M t unit :=
  modify (fun x => set_Attributes (setOptions (Attributes x) Keywords) x).

(** Runs a method of the schema [s] and returns the schema it leaves. *)
Definition onSchema (s : Schema.t) (c : M Schema.t unit) : Schema.t * result unit :=
  c s.

(** [Table.ExtractSchema]: [t.Schema] is assigned before the schema is
    extracted, and holds whatever the extraction leaves. *)
Definition ExtractSchema (Func : past.Ast) (Args : list past.Ast)
    (Keywords : list past.Keyword) : M t unit :=
  fun x =>
    match Schema x with
    | Some _ => (x, Err ErrSchemaAlreadySet)
    | None =>
        let '(s, r) := onSchema Schema.NewEmptySchema
                         (Schema.ExtractSchema Func Args Keywords) in
        (set_Schema (Some s) x, r)
    end.

(** [Table.ExtractExtendedSchema]: on success the schema is stored under
    each of its platforms. *)
Definition ExtractExtendedSchema (Func : past.Ast) (Args : list past.Ast)
    (Keywords : list past.Keyword) : M t unit :=
  fun x =>
    match onSchema Schema.NewEmptySchema
            (Schema.ExtractSchema Func Args Keywords) with
    | (extSchema, Ok _) =>
        (set_ExtendedSchemas
           (foldl (fun m platform => <[platform := extSchema]> m)
                  (ExtendedSchemas x) (Schema.Platforms extSchema)) x,
         Ok tt)
    | (_, Err e) => (x, Err e)
    | (_, Panic p) => (x, Panic p)
    end.

Definition ExtractImplementation (Args : list past.Ast) : M t unit :=
  arg ← index Args 0;
  match arg with
  | past.Str s => modify (set_Implementation s)
  | _ => throw ErrArg0NotString
  end.

Definition ExtractDescription (Args : list past.Ast) : M t unit :=
  arg ← index Args 0;
  match arg with
  | past.Str s => modify (set_Description s)
  | _ => throw ErrArg0NotString
  end.

(** The strings of [aliasList.Elts]; other elements are reported and
    skipped. *)
Definition aliasNames (elts : list past.Ast) : list string :=
  omap (fun elm => match elm with past.Str s => Some s | _ => None end) elts.

(** The loop over [node.Keywords] of [ExtractNames]. *)
Definition extractAlias (x : t) (kw : past.Keyword) : t :=
  if decide (kw.1 = "aliases") then
    match kw.2 with
    | past.List elts => set_Aliases (Aliases x ++ aliasNames elts) x
    | _ => x
    end
  else x.

Definition ExtractNames (Args : list past.Ast) (Keywords : list past.Keyword) : M t unit :=
  arg ← index Args 0;
  match arg with
  | past.Str s =>
      modify (set_Name s);;
      modify (fun x => foldl extractAlias x Keywords)
  | _ => throw ErrArg0NotString
  end.

(** [if err != nil { panic(err) }]. *)
Definition panicOnError {A} (c : M t A) : M t A :=
  fun x => match c x with
           | (x', Err e) => (x', Panic (PanicError e))
           | r => r
           end.

(** [VisitorBranch(node)], given the fields of the call node. *)
Definition VisitorBranch (Func : past.Ast) (Args : list past.Ast)
    (Keywords : list past.Keyword) : M t bool :=
  match Func with
  | past.Name funcName =>
      if decide (funcName = "table_name") then
        panicOnError (ExtractNames Args Keywords);; mret true
      else if decide (funcName = "description") then
        panicOnError (ExtractDescription Args);; mret true
      else if decide (funcName = "schema") then
        panicOnError (ExtractSchema Func Args Keywords);; mret true
      else if decide (funcName = "Column") then mret false
      else if decide (funcName = "attributes") then
        ExtractAttributes Keywords;; mret false
      else if decide (funcName = "implementation") then
        panicOnError (ExtractImplementation Args);; mret true
      else if decide (funcName = "fuzz_paths") then
        panicOnError (ExtractFuzzPaths Args);; mret false
      else if decide (funcName = "extended_schema") then
        panicOnError (ExtractExtendedSchema Func Args Keywords);; mret false
      else if decide (funcName = "examples") then
        panicOnError (ExtractExamples Args);; mret false
      else if decide (funcName = "ForeignKey") then mret false
      else mret false
  | _ => mret false
  end.

Definition Visit (pyast : past.Ast) : M t bool :=
  match pyast with
  | past.Call Func Args Keywords => VisitorBranch Func Args Keywords
  | _ => mret true
  end.

(** The loop over [cols] of [ToSQLSchema]: the first column whose type is
    not supported stops it. *)
Fixpoint columnsToSQL (tablename : string) (cols : list Column.t) : result sql.Schema :=
  match cols with
  | [] => Ok []
  | col :: rest =>
      match Column.ToSQLSchema col tablename with
      | Ok c =>
          match columnsToSQL tablename rest with
          | Ok cs => Ok (c :: cs)
          | Err e => Err e
          | Panic p => Panic p
          end
      | Err e => Err e
      | Panic p => Panic p
      end
  end.

(** The loop over [extendedSchemas] of [ToSQLSchema]. *)
Fixpoint extendedToSQL (x : t) (extendedSchemas : list string) : result sql.Schema :=
  match extendedSchemas with
  | [] => Ok []
  | ext :: rest =>
      match ExtendedSchemas x !! ext with
      | None => extendedToSQL x rest
      | Some extschema =>
          match columnsToSQL (Name x) (Schema.Columns extschema) with
          | Ok cs =>
              match extendedToSQL x rest with
              | Ok cs' => Ok (cs ++ cs')%list
              | Err e => Err e
              | Panic p => Panic p
              end
          | Err e => Err e
          | Panic p => Panic p
          end
      end
  end.

(** [ToSQLSchema(extendedSchemas)]: [t.Schema.Columns] dereferences
    [t.Schema]. *)
Definition ToSQLSchema (x : t) (extendedSchemas : list string) : result sql.Schema :=
  match Schema x with
  | None => Panic NilDereference
  | Some s =>
      match columnsToSQL (Name x) (Schema.Columns s) with
      | Ok cols =>
          match extendedToSQL x extendedSchemas with
          | Ok cols' => Ok (cols ++ cols')%list
          | Err e => Err e
          | Panic p => Panic p
          end
      | Err e => Err e
      | Panic p => Panic p
      end
  end.

End Table.

(** ** gpython's tree traversal *)

(** [ast.Walk(ast, Visit)]: [Visit] is called on the node, and the children
    are walked, in the order of the fields, when it returns true.  The
    nodes that are no expressions ([Module], [ExprStmt], [Keyword]) are
    visited too; the visitor of this program returns true on them and does
    nothing, so that the walk of a module is the walk of its expression
    statements in turn ([walkModule]) and the walk of a keyword argument is
    the walk of its value. *)
Fixpoint Walk {S} (Visit : past.Ast -> M S bool) (ast : past.Ast) {struct ast} : M S unit :=
  let walkExprs :=
    fix walkExprs (exprs : list past.Ast) : M S unit :=
      match exprs with
      | [] => mret tt
      | e :: rest => Walk Visit e;; walkExprs rest
      end in
  let walkKeywords :=
    fix walkKeywords (kws : list (string * past.Ast)) : M S unit :=
      match kws with
      | [] => mret tt
      | (_, v) :: rest => Walk Visit v;; walkKeywords rest
      end in
  descend ← Visit ast;
  if negb descend then mret tt
  else
    match ast with
    | past.Call Func Args Keywords =>
        Walk Visit Func;; walkExprs Args;; walkKeywords Keywords
    | past.List Elts => walkExprs Elts
    | past.Lambda Body => Walk Visit Body
    | past.BoolOp _ Values => walkExprs Values
    | past.Attribute Value _ => Walk Visit Value
    | past.Name _ | past.Str _ | past.Num _ | past.NameConstant _ => mret tt
    end.

Fixpoint walkModule {S} (Visit : past.Ast -> M S bool) (body : list past.Ast) : M S unit :=
  match body with
  | [] => mret tt
  | stmt :: rest => Walk Visit stmt;; walkModule Visit rest
  end.

Section WalkLists.
Context {S : Type} (Visit : past.Ast -> M S bool).

(** The local functions [walkExprs] of [Walk] and its loop over keywords. *)
Fixpoint walkExprs (exprs : list past.Ast) : M S unit :=
  match exprs with
  | [] => mret tt
  | e :: rest => Walk Visit e;; walkExprs rest
  end.

Fixpoint walkKeywords (kws : list (string * past.Ast)) : M S unit :=
  match kws with
  | [] => mret tt
  | (_, v) :: rest => Walk Visit v;; walkKeywords rest
  end.
End WalkLists.

(** ** File locations *)

(** A file location is the list of its path elements, so that
    [filepath.Base] is the last element and [filepath.Dir] the others. *)
Module filepath.

Definition path : Type := list string.

Definition Base (p : path) : string := List.last p ".".
Definition Dir (p : path) : path := removelast p.

(** [Ext] of a path element: the suffix that starts at its last dot. *)
Fixpoint extOf (elem : string) : string :=
  match elem with
  | EmptyString => EmptyString
  | String c rest =>
      match extOf rest with
      | EmptyString => if Ascii.eqb c "."%char then elem else EmptyString
      | e => e
      end
  end.

Definition Ext (p : path) : string := extOf (List.last p EmptyString).

End filepath.

(** [strings.Replace(s, old, EmptyString, -1)] for a non-empty [old]: every
    occurrence of [old], found from the left, is dropped; [skip] counts the
    characters of the occurrence that are still to drop. *)
Fixpoint removeAll (old : string) (skip : nat) (s : string) : string :=
  match s with
  | EmptyString => EmptyString
  | String c rest =>
      match skip with
      | S k => removeAll old k rest
      | O =>
          if String.prefix old s then removeAll old (String.length old - 1) rest
          else String c (removeAll old 0 rest)
      end
  end.

(** ** Namespace (namespace.go) *)

Module Namespace.

Record t : Type := mk {
  Key : string;
  Name : string;
  Tables : gmap string Table.t
}.

Definition NewNamespace (key name : string) : t :=
  {| Key := key; Name := name; Tables := ∅ |}.

Definition set_Tables (v : gmap string Table.t) (n : t) : t :=
  {| Key := Key n; Name := Name n; Tables := v |}.

End Namespace.

(** ** Parser (parser.go) *)

Module Parser.

Record t : Type := mk {
  BaseDir : filepath.path;
  Namespaces : gmap string Namespace.t
}.

Definition NewParser : t := {| BaseDir := []; Namespaces := ∅ |}.

Definition set_BaseDir (v : filepath.path) (p : t) : t :=
  {| BaseDir := v; Namespaces := Namespaces p |}.
Definition set_Namespaces (v : gmap string Namespace.t) (p : t) : t :=
  {| BaseDir := BaseDir p; Namespaces := v |}.

(** What [os.Open] and [gparser.Parse] make of a file: the file cannot be
    opened, its text is no Python, or it is a module, given by the
    expressions of its statements. *)
Inductive source : Type :=
| Unreadable
| Malformed
| Module (body : list past.Ast).

Record SourceFile : Type := mkSourceFile {
  Path : filepath.path;
  Table : Table.t
}.

(** [ParseTableDef(fileloc)], given what the file holds. *)
Definition ParseTableDef (fileloc : filepath.path) (src : source) : result Table.t :=
  match src with
  | Unreadable => Err (ErrOpen fileloc)
  | Malformed => Err (ErrSyntax (filepath.Base fileloc))
  | Module body =>
      let filename := removeAll ".table" 0 (filepath.Base fileloc) in
      let x := Table.set_Name filename Table.NewEmptyTable in
      match walkModule Table.Visit body x with
      | (x', Ok _) => Ok x'
      | (_, Err e) => Err e
      | (_, Panic p) => Panic p
      end
  end.

(** What the walk of [godirwalk.Walk] meets, in the order of the walk: a
    directory entry, or a failure to read one. *)
Inductive entry : Type :=
| Dirent (fileloc : filepath.path) (IsRegular : bool) (src : source)
| Failure (e : error).

(** The callback given to [godirwalk.Walk]; a [Failure] is the error of
    the walk itself. *)
Definition Callback (en : entry) : result (option SourceFile) :=
  match en with
  | Failure e => Err e
  | Dirent fileloc IsRegular src =>
      if negb IsRegular || negb (String.eqb (filepath.Ext fileloc) ".table")
      then Ok None
      else
        match ParseTableDef fileloc src with
        | Ok tbl => Ok (Some {| Path := fileloc; Table := tbl |})
        | Err e => Err e
        | Panic p => Panic p
        end
  end.

(** The walking goroutine: the files sent on [reschan], and how the walk
    ends.  An error of the callback stops the walk and is the error of
    the walk. *)
Fixpoint walk (entries : list entry) : list SourceFile * result unit :=
  match entries with
  | [] => ([], Ok tt)
  | en :: rest =>
      match Callback en with
      | Ok sent =>
          let '(srcs, r) := walk rest in
          (match sent with Some src => src :: srcs | None => srcs end, r)
      | Err e => ([], Err e)
      | Panic p => ([], Panic p)
      end
  end.

(** The body of the loop [for src := range reschan] of the record keeping
    goroutine; [None] when [Fatalw] ends the process. *)
Definition record (p : t) (src : SourceFile) : option t :=
  let namespaceID := filepath.Base (filepath.Dir (Path src)) in
  match CanonicalPlatforms !! namespaceID with
  | None => None
  | Some namespaceDescription =>
      let ns := match Namespaces p !! namespaceID with
                | Some ns => ns
                | None => Namespace.NewNamespace namespaceID namespaceDescription
                end in
      let tbl := Table.set_NamespaceID namespaceID (Table src) in
      let ns := Namespace.set_Tables (<[Table.Name tbl := tbl]> (Namespace.Tables ns)) ns in
      Some (set_Namespaces (<[namespaceID := ns]> (Namespaces p)) p)
  end.

Fixpoint recordAll (p : t) (srcs : list SourceFile) : option t :=
  match srcs with
  | [] => Some p
  | src :: rest =>
      match record p src with
      | Some p' => recordAll p' rest
      | None => None
      end
  end.

(** *** The goroutines of [ParseDirectory] *)

(** [ParseDirectory] starts two goroutines and waits for one of them in a
    [select].  They share three buffered channels: [reschan], of capacity
    1000, on which the walking goroutine sends the files to the record
    keeper, and [errchan] and [finchan], of capacity 1, on which the two
    goroutines report to the caller.  The walking goroutine touches nothing
    else that the others see, so that its run is the list of the files that
    it sends and the way the walk ends, which [walk] gives. *)
Definition capacity : nat := 1000.

(** Where the walking goroutine stands: in [godirwalk.Walk], with the files
    still to send and the result of the walk; after the send on [errchan],
    before the deferred [close(reschan)]; after the deferred
    [close(reschan)] of a panic, before the panic ends the process; or at
    its end. *)
Inductive walkerState : Type :=
| Walking (srcs : list SourceFile) (r : result unit)
| Closing
| Crashing (pn : panic)
| Gone.

(** Where the record keeper stands: at the head of [for src := range
    reschan]; in the body of the loop, with the file received; or past the
    loop and its deferred calls. *)
Inductive keeperState : Type :=
| Ranging
| Recording (src : SourceFile)
| Left.

(** The process: it runs, a panic has ended it, or [Fatalw] has. *)
Inductive process : Type :=
| Running
| Crashed (pn : panic)
| Exited.

(** The state of a call: the parser, the channels ([reschan] with its
    buffer and whether it is closed, the buffers of [errchan] and
    [finchan]), the two goroutines, what [ParseDirectory] has returned, if
    it has, and the process. *)
Record config : Type := mkConfig {
  parser : t;
  reschan : list SourceFile;
  closed : bool;
  errchan : option error;
  finchan : bool;
  walking : walkerState;
  keeping : keeperState;
  returned : option (option error);
  proc : process
}.

Definition set_parser (v : t) (c : config) : config :=
  mkConfig v (reschan c) (closed c) (errchan c) (finchan c) (walking c)
    (keeping c) (returned c) (proc c).
Definition set_reschan (v : list SourceFile) (c : config) : config :=
  mkConfig (parser c) v (closed c) (errchan c) (finchan c) (walking c)
    (keeping c) (returned c) (proc c).
Definition set_closed (v : bool) (c : config) : config :=
  mkConfig (parser c) (reschan c) v (errchan c) (finchan c) (walking c)
    (keeping c) (returned c) (proc c).
Definition set_errchan (v : option error) (c : config) : config :=
  mkConfig (parser c) (reschan c) (closed c) v (finchan c) (walking c)
    (keeping c) (returned c) (proc c).
Definition set_finchan (v : bool) (c : config) : config :=
  mkConfig (parser c) (reschan c) (closed c) (errchan c) v (walking c)
    (keeping c) (returned c) (proc c).
Definition set_walking (v : walkerState) (c : config) : config :=
  mkConfig (parser c) (reschan c) (closed c) (errchan c) (finchan c) v
    (keeping c) (returned c) (proc c).
Definition set_keeping (v : keeperState) (c : config) : config :=
  mkConfig (parser c) (reschan c) (closed c) (errchan c) (finchan c) (walking c)
    v (returned c) (proc c).
Definition set_returned (v : option (option error)) (c : config) : config :=
  mkConfig (parser c) (reschan c) (closed c) (errchan c) (finchan c) (walking c)
    (keeping c) v (proc c).
Definition set_proc (v : process) (c : config) : config :=
  mkConfig (parser c) (reschan c) (closed c) (errchan c) (finchan c) (walking c)
    (keeping c) (returned c) v.

(** A step of the walking goroutine.  In the walk, the callback sends the
    next file, which waits while the buffer of [reschan] is full.  When the
    walk has returned nil, the goroutine ends with the deferred
    [close(reschan)]; when it has returned an error, the error is sent on
    [errchan] first; when the callback has panicked, the deferred
    [close(reschan)] runs and then the panic ends the process. *)
Definition walkerStep (c : config) : option config :=
  match walking c with
  | Walking (src :: rest) r =>
      if Nat.ltb (length (reschan c)) capacity
      then Some (set_walking (Walking rest r) (set_reschan (reschan c ++ [src]) c))
      else None
  | Walking [] (Ok _) => Some (set_walking Gone (set_closed true c))
  | Walking [] (Err e) => Some (set_walking Closing (set_errchan (Some e) c))
  | Walking [] (Panic pn) => Some (set_walking (Crashing pn) (set_closed true c))
  | Closing => Some (set_walking Gone (set_closed true c))
  | Crashing pn => Some (set_walking Gone (set_proc (Crashed pn) c))
  | Gone => None
  end.

(** A step of the record keeper.  At the head of the loop it receives the
    next file, which waits while the buffer is empty; when the buffer is
    empty and closed the loop ends, and the deferred [finchan <- true]
    follows.  In the body it records the file, or [Fatalw] ends the process
    at once, its deferred calls not run. *)
Definition keeperStep (c : config) : option config :=
  match keeping c with
  | Ranging =>
      match reschan c with
      | src :: rest => Some (set_keeping (Recording src) (set_reschan rest c))
      | [] =>
          if closed c then Some (set_keeping Left (set_finchan true c)) else None
      end
  | Recording src =>
      match record (parser c) src with
      | Some p' => Some (set_keeping Ranging (set_parser p' c))
      | None => Some (set_proc Exited c)
      end
  | Left => None
  end.

(** The [select] of the caller: it receives from [errchan] and returns
    the error, or from [finchan] and returns nil; when both hold a value
    either case may be taken. *)
Definition receiveErr (c : config) : option config :=
  match returned c, errchan c with
  | None, Some e => Some (set_returned (Some (Some e)) (set_errchan None c))
  | _, _ => None
  end.

Definition receiveFin (c : config) : option config :=
  match returned c with
  | None =>
      if finchan c then Some (set_returned (Some None) (set_finchan false c))
      else None
  | Some _ => None
  end.

(** What the scheduler picks next: a goroutine, and for the caller the
    case of its [select]. *)
Inductive move : Type :=
| Walker
| Keeper
| FromErrchan
| FromFinchan.

(** A move that cannot be made gives [None]: its goroutine waits or has
    ended, or the process has. *)
Definition step (mv : move) (c : config) : option config :=
  match proc c with
  | Running =>
      match mv with
      | Walker => walkerStep c
      | Keeper => keeperStep c
      | FromErrchan => receiveErr c
      | FromFinchan => receiveFin c
      end
  | Crashed _ | Exited => None
  end.

(** A run: the moves are made one after the other; the goroutines go on
    after the caller has returned. *)
Fixpoint run (moves : list move) (c : config) : option config :=
  match moves with
  | [] => Some c
  | mv :: rest =>
      match step mv c with
      | Some c' => run rest c'
      | None => None
      end
  end.

(** No move is left. *)
Definition over (c : config) : Prop := forall mv, step mv c = None.

(** The state in which the walking goroutine starts, on a directory whose
    walk meets [entries]: the caller has made the channels, started the
    record keeper and set [BaseDir].  The mutex of the parser, which the
    record keeper takes, is free. *)
Definition start (p : t) (location : filepath.path) (entries : list entry) : config :=
  {| parser := set_BaseDir location p;
     reschan := []; closed := false; errchan := None; finchan := false;
     walking := Walking (walk entries).1 (walk entries).2;
     keeping := Ranging; returned := None; proc := Running |}.

(** [ParseDirectory(location)] under the schedule [moves]: the state that
    the moves lead to, with what the call has returned, if it has. *)
Definition ParseDirectory (p : t) (location : filepath.path)
    (entries : list entry) (moves : list move) : option config :=
  run moves (start p location entries).

End Parser.

(** ** The virtual database (virtual/database.go) *)

Module virtual.

(** The fields of [Database] that [AddTable] reads or writes. *)
Record Database : Type := mkDatabase {
  initialized : bool;
  name : string;
  schemas : gmap string sql.Schema
}.

Definition set_schemas (v : gmap string sql.Schema) (d : Database) : Database :=
  {| initialized := initialized d; name := name d; schemas := v |}.

Definition AddTable (tbl : Table.t) (osexts : list string) : M Database unit :=
  fun d =>
    if initialized d then (d, Err ErrDatabaseInitialized)
    else
      match Table.ToSQLSchema tbl osexts with
      | Ok schema => (set_schemas (<[Table.Name tbl := schema]> (schemas d)) d, Ok tt)
      | Err e => (d, Err e)
      | Panic p => (d, Panic p)
      end.

End virtual.

(** ** The model in memory, with its pointers *)

(** [InjectTables] writes the pointers that the wire format leaves out, so
    here the structs are objects at addresses: a pointer field holds an
    address, a nil-able one an [option].  The exported fields that hold no
    pointer are as above; the loggers are left out. *)
Module Mem.

Definition loc : Type := positive.

(** A [Schema]: the back pointer [Table] and the exported fields. *)
Record SchemaObj : Type := mkSchemaObj {
  s_Table : option loc;
  s_fields : Schema.t
}.

Record TableObj : Type := mkTableObj {
  t_Namespace : option loc;
  t_NamespaceID : string;
  t_Name : string;
  t_Aliases : list string;
  t_Description : string;
  t_Schema : option loc;
  t_Attributes : gmap string scalar;
  t_Implementation : string;
  t_FuzzPaths : list string;
  t_ExtendedSchemas : gmap string loc;
  t_Examples : list string
}.

Record NamespaceObj : Type := mkNamespaceObj {
  n_parser : option loc;
  n_Key : string;
  n_Name : string;
  n_Tables : gmap string loc
}.

(** The objects, by type and address, and the field [Namespaces] of the
    parser that [InjectTables] is called on. *)
Record t : Type := mk {
  namespaces : gmap loc NamespaceObj;
  tables : gmap loc TableObj;
  schemas : gmap loc SchemaObj;
  Namespaces : gmap string loc
}.

Definition set_s_Table (v : option loc) (o : SchemaObj) : SchemaObj :=
  {| s_Table := v; s_fields := s_fields o |}.

Definition set_t_Namespace (v : option loc) (o : TableObj) : TableObj :=
  {| t_Namespace := v; t_NamespaceID := t_NamespaceID o; t_Name := t_Name o;
     t_Aliases := t_Aliases o; t_Description := t_Description o;
     t_Schema := t_Schema o; t_Attributes := t_Attributes o;
     t_Implementation := t_Implementation o; t_FuzzPaths := t_FuzzPaths o;
     t_ExtendedSchemas := t_ExtendedSchemas o; t_Examples := t_Examples o |}.

Definition set_t_NamespaceID (v : string) (o : TableObj) : TableObj :=
  {| t_Namespace := t_Namespace o; t_NamespaceID := v; t_Name := t_Name o;
     t_Aliases := t_Aliases o; t_Description := t_Description o;
     t_Schema := t_Schema o; t_Attributes := t_Attributes o;
     t_Implementation := t_Implementation o; t_FuzzPaths := t_FuzzPaths o;
     t_ExtendedSchemas := t_ExtendedSchemas o; t_Examples := t_Examples o |}.

Definition set_n_parser (v : option loc) (o : NamespaceObj) : NamespaceObj :=
  {| n_parser := v; n_Key := n_Key o; n_Name := n_Name o; n_Tables := n_Tables o |}.

Definition set_namespaces (v : gmap loc NamespaceObj) (m : t) : t :=
  {| namespaces := v; tables := tables m; schemas := schemas m;
     Namespaces := Namespaces m |}.
Definition set_tables (v : gmap loc TableObj) (m : t) : t :=
  {| namespaces := namespaces m; tables := v; schemas := schemas m;
     Namespaces := Namespaces m |}.
Definition set_schemas (v : gmap loc SchemaObj) (m : t) : t :=
  {| namespaces := namespaces m; tables := tables m; schemas := v;
     Namespaces := Namespaces m |}.
Definition set_Namespaces (v : gmap string loc) (m : t) : t :=
  {| namespaces := namespaces m; tables := tables m; schemas := schemas m;
     Namespaces := v |}.

(** A write through a pointer: a panic when the pointer is nil. *)
Definition updateSchema (l : loc) (f : SchemaObj -> SchemaObj) : M t unit :=
  fun m => match schemas m !! l with
           | Some o => (set_schemas (<[l := f o]> (schemas m)) m, Ok tt)
           | None => (m, Panic NilDereference)
           end.
Definition updateTable (l : loc) (f : TableObj -> TableObj) : M t unit :=
  fun m => match tables m !! l with
           | Some o => (set_tables (<[l := f o]> (tables m)) m, Ok tt)
           | None => (m, Panic NilDereference)
           end.
Definition updateNamespace (l : loc) (f : NamespaceObj -> NamespaceObj) : M t unit :=
  fun m => match namespaces m !! l with
           | Some o => (set_namespaces (<[l := f o]> (namespaces m)) m, Ok tt)
           | None => (m, Panic NilDereference)
           end.
Definition readTable (l : loc) : M t TableObj :=
  fun m => match tables m !! l with
           | Some o => (m, Ok o)
           | None => (m, Panic NilDereference)
           end.
Definition readNamespace (l : loc) : M t NamespaceObj :=
  fun m => match namespaces m !! l with
           | Some o => (m, Ok o)
           | None => (m, Panic NilDereference)
           end.

(** [for _, x := range xs { body }]. *)
Fixpoint forM_ {A} (xs : list A) (body : A -> M t unit) : M t unit :=
  match xs with
  | [] => mret tt
  | x :: rest => body x;; forM_ rest body
  end.

(** [for k, v := range m { body }]: Go leaves the order open; the order of
    [map_to_list] is taken. *)
Definition range {V} (m : gmap string V) (body : string * V -> M t unit) : M t unit :=
  forM_ (map_to_list m) body.

(** [es.Table = table] (and [table.Schema.Table = table]). *)
Definition injectSchema (table : loc) (es : loc) : M t unit :=
  updateSchema es (set_s_Table (Some table)).

(** The body of the loop over [ns.Tables] of [InjectTables]. *)
Definition injectTable (nsid : string) (ns : loc) (table : loc) : M t unit :=
  updateTable table (set_t_Namespace (Some ns));;
  updateTable table (fun o => if decide (t_NamespaceID o = EmptyString)
                              then set_t_NamespaceID nsid o else o);;
  o ← readTable table;
  match t_Schema o with
  | Some s => injectSchema table s
  | None => mret tt
  end;;
  range (t_ExtendedSchemas o) (fun '(esname, es) => injectSchema table es).

(** The body of the loop over [raw] of [InjectTables], for the parser at
    address [p]. *)
Definition injectNamespace (p : loc) (nsid : string) (ns : loc) : M t unit :=
  updateNamespace ns (fun o => match n_parser o with
                               | None => set_n_parser (Some p) o
                               | Some _ => o
                               end);;
  o ← readNamespace ns;
  range (n_Tables o) (fun '(tname, table) => injectTable nsid ns table);;
  modify (fun m => set_Namespaces (<[nsid := ns]> (Namespaces m)) m).

Definition InjectTables (p : loc) (raw : gmap string loc) : M t unit :=
  range raw (fun '(nsid, ns) => injectNamespace p nsid ns).

(** *** The wire format *)

(** What [json.Marshal] and [yaml.Marshal] write for a pointer: the fields
    that have a name on the wire, the pointers followed.  The fields tagged
    [-] and the unexported fields are not written.  A field left out for
    being empty is read back empty, and the trees do not tell an empty
    slice or map from a nil one. *)
Definition traverse {A B} (f : A -> option B) (m : gmap string A) : option (gmap string B) :=
  if decide (map_Forall (fun _ v => is_Some (f v)) m) then Some (omap f m) else None.

Definition marshalSchema (m : t) (l : loc) : option Schema.t :=
  s_fields <$> schemas m !! l.

Definition marshalTable (m : t) (l : loc) : option Table.t :=
  o ← tables m !! l;
  base ← match t_Schema o with
         | Some s => Some <$> marshalSchema m s
         | None => Some None
         end;
  exts ← traverse (marshalSchema m) (t_ExtendedSchemas o);
  Some {| Table.NamespaceID := t_NamespaceID o; Table.Name := t_Name o;
          Table.Aliases := t_Aliases o; Table.Description := t_Description o;
          Table.Schema := base; Table.Attributes := t_Attributes o;
          Table.Implementation := t_Implementation o;
          Table.FuzzPaths := t_FuzzPaths o; Table.ExtendedSchemas := exts;
          Table.Examples := t_Examples o |}.

Definition marshalNamespace (m : t) (l : loc) : option Namespace.t :=
  o ← namespaces m !! l;
  tbls ← traverse (marshalTable m) (n_Tables o);
  Some {| Namespace.Key := n_Key o; Namespace.Name := n_Name o;
          Namespace.Tables := tbls |}.

(** The export of a map of namespaces, such as [parser.Namespaces]. *)
Definition marshal (m : t) (nss : gmap string loc) : option (gmap string Namespace.t) :=
  traverse (marshalNamespace m) nss.

(** *** What [Unmarshal] builds *)

(** The addresses that a map of namespaces leads to. *)
Definition namespaceLocs (raw : gmap string loc) : list loc :=
  (map_to_list raw).*2.

Definition tablesOf (m : t) (ns : loc) : list loc :=
  match namespaces m !! ns with
  | Some o => (map_to_list (n_Tables o)).*2
  | None => []
  end.

Definition schemasOf (m : t) (table : loc) : list loc :=
  match tables m !! table with
  | Some o => option_list (t_Schema o) ++ (map_to_list (t_ExtendedSchemas o)).*2
  | None => []
  end.

Definition tableLocs (m : t) (raw : gmap string loc) : list loc :=
  namespaceLocs raw ≫= tablesOf m.

Definition schemaLocs (m : t) (raw : gmap string loc) : list loc :=
  tableLocs m raw ≫= schemasOf m.

(** [Unmarshal] makes a new object for every pointer that it fills, so
    that no object is reached twice, and it leaves the unexported [parser]
    nil. *)
Definition unshared (m : t) (raw : gmap string loc) : Prop :=
  NoDup (namespaceLocs raw) /\ NoDup (tableLocs m raw) /\ NoDup (schemaLocs m raw).

Definition parserUnset (m : t) (raw : gmap string loc) : Prop :=
  Forall (fun ns => n_parser <$> namespaces m !! ns = Some None) (namespaceLocs raw).

(** [raw] and the objects of [m] are what [Unmarshal] builds from the
    text of [w]. *)
Definition unmarshalled (w : gmap string Namespace.t) (raw : gmap string loc) (m : t) : Prop :=
  marshal m raw = Some w /\ unshared m raw /\ parserUnset m raw.

End Mem.

(** * The notions of the statements *)

Import past.

(** The eight type tokens of the specification and their primitive types. *)
Definition recognizedTypes : list (string * sql.PrimType) :=
  [ ("TEXT", sql.Text); ("DATE", sql.Date); ("DATETIME", sql.Timestamp);
    ("INTEGER", sql.Int32); ("BIGINT", sql.Int64);
    ("UNSIGNED_BIGINT", sql.Uint64); ("DOUBLE", sql.Float64);
    ("BLOB", sql.Blob) ].

(** The columns that [Table.ToSQLSchema] is to list: those of the base
    schema, then, for each entry of the filter, those of the extended schema
    registered under it, if any. *)
Definition columnOrder (x : Table.t) (base : Schema.t)
    (platformFilter : list string) : list Column.t :=
  Schema.Columns base ++
  flat_map (fun ext => match Table.ExtendedSchemas x !! ext with
                       | Some es => Schema.Columns es
                       | None => []
                       end) platformFilter.

(** A column whose type is one of the eight tokens. *)
Definition supported (c : Column.t) : bool :=
  bool_decide (Column.Type_ c ∈ recognizedTypes.*1).

(** The result of two loops that append to [cols] one after the other. *)
Definition appendResults (r1 r2 : result sql.Schema) : result sql.Schema :=
  match r1 with
  | Ok cs =>
      match r2 with
      | Ok cs' => Ok (cs ++ cs')%list
      | Err e => Err e
      | Panic p => Panic p
      end
  | Err e => Err e
  | Panic p => Panic p
  end.

(** ** Sample values *)

(** The table of [specs/uptime.table] after [table_name("uptime")] alone:
    no schema has been declared. *)
Definition uptime_no_schema : Table.t :=
  Table.set_Name "uptime" Table.NewEmptyTable.

Definition column (i : Z) (name ty : string) : Column.t :=
  Column.set_Type ty (Column.set_Name name (Column.set_Index i Column.NewEmptyColumn)).

(** A table with two base columns and a column for linux only. *)
Definition groups_base : Schema.t :=
  Schema.set_Columns [column 0 "gid" "BIGINT"; column 1 "groupname" "TEXT"]
    Schema.NewEmptySchema.

Definition groups_linux : Schema.t :=
  Schema.set_Columns [column 0 "pid_with_namespace" "INTEGER"]
    (Schema.set_Platforms ["linux"] (Schema.set_Extended true Schema.NewEmptySchema)).

Definition groups : Table.t :=
  Table.set_ExtendedSchemas {["linux" := groups_linux]}
    (Table.set_Schema (Some groups_base)
       (Table.set_Name "groups" Table.NewEmptyTable)).

(** ** Lambda platform arguments *)

(** The platforms of a category, and none for an identifier that is no
    category. *)
Definition categoryPlatforms (id : string) : gset string :=
  match TableCategories !! id with
  | Some platformList => list_to_set platformList
  | None => ∅
  end.

Definition isCategory (id : string) : bool :=
  bool_decide (is_Some (TableCategories !! id)).

(** An operand as the specification words it: a zero-argument call to a
    bare identifier that is a key of the category table. *)
Definition operandOfSpec (v : Ast) : bool :=
  match v with
  | Call (Name id) [] [] => isCategory id
  | _ => false
  end.

Definition lambdaOfSpec (body : Ast) : bool :=
  match body with
  | BoolOp Or values => forallb operandOfSpec values
  | _ => false
  end.

(** An operand as the code takes it: a call to a bare identifier that is a
    key of the category table, whatever its arguments. *)
Definition operandAccepted (v : Ast) : bool :=
  match v with
  | Call (Name id) _ _ => isCategory id
  | _ => false
  end.

Definition lambdaAccepted (body : Ast) : bool :=
  match body with
  | BoolOp Or values => forallb operandAccepted values
  | _ => false
  end.

(** The platforms that the operands of an accepted body name. *)
Definition operandPlatforms (v : Ast) : gset string :=
  match v with
  | Call (Name id) _ _ => categoryPlatforms id
  | _ => ∅
  end.

Definition lambdaPlatforms (body : Ast) : gset string :=
  match body with
  | BoolOp _ values => ⋃ (operandPlatforms <$> values)
  | _ => ∅
  end.

(** The platform set of a schema. *)
Definition platformSet (s : Schema.t) : gset string :=
  list_to_set (Schema.Platforms s).

(** [lambda: WINDOWS() or LINUX()]. *)
Definition windows_or_linux : Ast :=
  Lambda (BoolOp Or [Call (Name "WINDOWS") [] []; Call (Name "LINUX") [] []]).

(** ** Column declarations *)

(** An element of a column list that becomes a column: a call with at
    least one positional argument whose callee is an identifier other than
    ForeignKey. *)
Definition isColumnDeclaration (e : Ast) : bool :=
  match e with
  | Call (Name id) (_ :: _) _ => negb (bool_decide (id = "ForeignKey"))
  | _ => false
  end.

(** The positions, counted from [colidx], of the elements of a column list
    that become columns. *)
Fixpoint declarationPositions (colidx : nat) (elts : list Ast) : list nat :=
  match elts with
  | [] => []
  | e :: rest =>
      (if isColumnDeclaration e then [colidx] else [])
      ++ declarationPositions (S colidx) rest
  end.

Definition indices (s : Schema.t) : list Z :=
  Column.Index <$> Schema.Columns s.

(** [schema([ForeignKey(column="pid", table="processes"),
            Column("pid", BIGINT, "Process ID")])]. *)
Definition foreign_key_first : list Ast :=
  [List [Call (Name "ForeignKey") [] [("column", Str "pid"); ("table", Str "processes")];
         Call (Name "Column") [Str "pid"; Name "BIGINT"; Str "Process ID"] []]].

(** ** Directory ingestion *)



(** [specs/linux/good.table] declares a name and a schema;
    [specs/linux/bad.table] gives [schema] a string. *)
Definition good_table : Parser.entry :=
  Parser.Dirent ["specs"; "linux"; "good.table"] true
    (Parser.Module
       [Call (Name "table_name") [Str "good"] [];
        Call (Name "schema")
          [List [Call (Name "Column") [Str "pid"; Name "BIGINT"; Str "Process ID"] []]] []]).



(** ** Rehydration *)

(** What [InjectTables] makes of the table [o] of the namespace at [ns],
    read under the key [nsid]. *)
Definition injected (nsid : string) (ns : Mem.loc) (o : Mem.TableObj) : Mem.TableObj :=
  let o := Mem.set_t_Namespace (Some ns) o in
  if decide (Mem.t_NamespaceID o = EmptyString) then Mem.set_t_NamespaceID nsid o else o.

(** The same on the wire: an empty [namespace_id] is filled in. *)
Definition fillNamespaceID (nsid : string) (x : Table.t) : Table.t :=
  if decide (Table.NamespaceID x = EmptyString) then Table.set_NamespaceID nsid x else x.

(** A namespace on the wire as [InjectTables] leaves it, read under the
    key [nsid]. *)
Definition fillNamespace (nsid : string) (ns : Namespace.t) : Namespace.t :=
  Namespace.set_Tables (fillNamespaceID nsid <$> Namespace.Tables ns) ns.

Definition rehydrated (w : gmap string Namespace.t) : gmap string Namespace.t :=
  map_imap (fun nsid ns => Some (fillNamespace nsid ns)) w.

(** The wire format without the field [namespace_id] of the tables. *)
Definition withoutNamespaceID (w : gmap string Namespace.t) : gmap string Namespace.t :=
  (fun ns => Namespace.set_Tables
               (Table.set_NamespaceID EmptyString <$> Namespace.Tables ns) ns) <$> w.

(** The back pointers of the objects that [raw] leads to are those of the
    owners: the parser at [p] for a namespace, the namespace for its tables,
    the table for its schema and its extended schemas. *)
Definition backReferences (p : Mem.loc) (m : Mem.t) (raw : gmap string Mem.loc) : Prop :=
  forall nsid ns, raw !! nsid = Some ns ->
    exists no,
      Mem.namespaces m !! ns = Some no /\ Mem.n_parser no = Some p /\
      forall tname table, Mem.n_Tables no !! tname = Some table ->
        exists to,
          Mem.tables m !! table = Some to /\ Mem.t_Namespace to = Some ns /\
          (forall s, Mem.t_Schema to = Some s ->
             exists so, Mem.schemas m !! s = Some so /\ Mem.s_Table so = Some table) /\
          (forall esname es, Mem.t_ExtendedSchemas to !! esname = Some es ->
             exists so, Mem.schemas m !! es = Some so /\ Mem.s_Table so = Some table).

(** The pointers that a table holds to its schemas. *)
Definition schemaLinks (o : Mem.TableObj) : option Mem.loc * gmap string Mem.loc :=
  (Mem.t_Schema o, Mem.t_ExtendedSchemas o).

(** Every pointer that leads from a table, or from a namespace, to its
    parts is the address of an object. *)
Definition tablePresent (m : Mem.t) (table : Mem.loc) : Prop :=
  is_Some (Mem.tables m !! table) /\
  Forall (fun sl => is_Some (Mem.schemas m !! sl)) (Mem.schemasOf m table).

Definition namespacePresent (m : Mem.t) (ns : Mem.loc) : Prop :=
  is_Some (Mem.namespaces m !! ns) /\
  Forall (tablePresent m) (Mem.tablesOf m ns).

(** What [InjectTables] makes of a namespace: a nil [parser] is set. *)
Definition adopted (p : Mem.loc) (o : Mem.NamespaceObj) : Mem.NamespaceObj :=
  match Mem.n_parser o with
  | None => Mem.set_n_parser (Some p) o
  | Some _ => o
  end.

(** The objects of [m'] hold what those of [m] hold, but for back pointers
    and [NamespaceID]: the same pointers to their parts, and the same
    fields of the schemas. *)
Definition linksPreserved (m m' : Mem.t) : Prop :=
  (forall l, Mem.n_Tables <$> Mem.namespaces m' !! l
             = Mem.n_Tables <$> Mem.namespaces m !! l) /\
  (forall l, schemaLinks <$> Mem.tables m' !! l = schemaLinks <$> Mem.tables m !! l) /\
  (forall l, Mem.s_fields <$> Mem.schemas m' !! l = Mem.s_fields <$> Mem.schemas m !! l).


(** ** A sample round trip *)

(** The table [groups] of the namespace linux on the wire. *)
Definition groups_wire : gmap string Namespace.t :=
  {[ "linux" :=
       {| Namespace.Key := "linux"; Namespace.Name := "Ubuntu, CentOS";
          Namespace.Tables := {[ "groups" := Table.set_NamespaceID "linux" groups ]} |} ]}.

Definition groups_object (ns : option Mem.loc) (base ext : Mem.loc) : Mem.TableObj :=
  {| Mem.t_Namespace := ns; Mem.t_NamespaceID := "linux"; Mem.t_Name := "groups";
     Mem.t_Aliases := []; Mem.t_Description := EmptyString;
     Mem.t_Schema := Some base; Mem.t_Attributes := ∅;
     Mem.t_Implementation := EmptyString; Mem.t_FuzzPaths := [];
     Mem.t_ExtendedSchemas := {[ "linux" := ext ]}; Mem.t_Examples := [] |}.

(** The model that was exported: the parser is at address 9. *)
Definition groups_original : Mem.t :=
  {| Mem.namespaces :=
       {[ 10%positive := {| Mem.n_parser := Some 9%positive; Mem.n_Key := "linux";
                            Mem.n_Name := "Ubuntu, CentOS";
                            Mem.n_Tables := {[ "groups" := 20%positive ]} |} ]};
     Mem.tables := {[ 20%positive := groups_object (Some 10%positive) 30%positive 31%positive ]};
     Mem.schemas :=
       {[ 30%positive := {| Mem.s_Table := Some 20%positive; Mem.s_fields := groups_base |};
          31%positive := {| Mem.s_Table := Some 20%positive; Mem.s_fields := groups_linux |} ]};
     Mem.Namespaces := {[ "linux" := 10%positive ]} |}.

(** What [Unmarshal] builds from [groups_wire], for a new parser. *)
Definition groups_raw : gmap string Mem.loc := {[ "linux" := 1%positive ]}.

Definition groups_unmarshalled : Mem.t :=
  {| Mem.namespaces :=
       {[ 1%positive := {| Mem.n_parser := None; Mem.n_Key := "linux";
                           Mem.n_Name := "Ubuntu, CentOS";
                           Mem.n_Tables := {[ "groups" := 2%positive ]} |} ]};
     Mem.tables := {[ 2%positive := groups_object None 3%positive 4%positive ]};
     Mem.schemas :=
       {[ 3%positive := {| Mem.s_Table := None; Mem.s_fields := groups_base |};
          4%positive := {| Mem.s_Table := None; Mem.s_fields := groups_linux |} ]};
     Mem.Namespaces := ∅ |}.

(** ** Keyword arguments and lists of strings *)

(** The value that the switch on a keyword argument stores, if the node is
    of a kind that it takes. *)
Definition optionValue (v : Ast) : option scalar :=
  match v with
  | NameConstant c => Some (SObject c)
  | Str s => Some (SString s)
  | Name id => Some (SString id)
  | _ => None
  end.

(** The value of the last keyword argument named [k] that is stored. *)
Fixpoint lastOption (k : string) (kws : list Keyword) : option scalar :=
  match kws with
  | [] => None
  | kw :: rest =>
      match lastOption k rest with
      | Some v => Some v
      | None => if decide (kw.1 = k) then optionValue kw.2 else None
      end
  end.

(** The strings at the head of a list, up to its first element that is
    no string. *)
Fixpoint leadingStrs (elts : list Ast) : list string :=
  match elts with
  | Str s :: rest => s :: leadingStrs rest
  | _ => []
  end.

Definition isStr (e : Ast) : bool :=
  match e with
  | Str _ => true
  | _ => false
  end.

(** The aliases that the keyword arguments of [table_name] give. *)
Definition aliasesOf (kws : list Keyword) : list string :=
  flat_map (fun kw : Keyword =>
              if decide (kw.1 = "aliases") then
                match kw.2 with
                | List elts => Table.aliasNames elts
                | _ => []
                end
              else []) kws.

(** ** What a column list declares *)

Definition strOf (a : Ast) : string :=
  match a with
  | Str s => s
  | _ => EmptyString
  end.

Definition nameOf (a : Ast) : string :=
  match a with
  | Name id => id
  | _ => EmptyString
  end.

(** The column that an element of a column list declares at position
    [colidx]: its name, type and description are the first three positional
    arguments where these are a string, an identifier and a string. *)
Definition declaredColumn (colidx : nat) (e : Ast) : option Column.t :=
  match e with
  | Call (Name id) (a0 :: a1 :: a2 :: _) kws =>
      if decide (id = "ForeignKey") then None
      else Some {| Column.Index := Z.of_nat colidx; Column.Name := strOf a0;
                   Column.Type_ := nameOf a1; Column.Description := strOf a2;
                   Column.Aliases := []; Column.Options := setOptions ∅ kws |}
  | _ => None
  end.

Fixpoint declaredColumns (colidx : nat) (elts : list Ast) : list Column.t :=
  match elts with
  | [] => []
  | e :: rest => option_list (declaredColumn colidx e) ++ declaredColumns (S colidx) rest
  end.

(** The foreign key that an element declares. *)
Definition declaredForeignKey (e : Ast) : option (gmap string scalar) :=
  match e with
  | Call (Name id) _ kws =>
      if decide (id = "ForeignKey") then Some (setOptions ∅ kws) else None
  | _ => None
  end.

Fixpoint declaredForeignKeys (elts : list Ast) : list (gmap string scalar) :=
  match elts with
  | [] => []
  | e :: rest => option_list (declaredForeignKey e) ++ declaredForeignKeys rest
  end.

(** The elements that the loop over a column list takes: a call of an
    identifier that is a foreign key, or has no positional argument, or has
    three of them at least. *)
Definition wellShaped (e : Ast) : bool :=
  match e with
  | Call (Name id) args _ =>
      bool_decide (id = "ForeignKey") || bool_decide (length args = 0%nat)
      || bool_decide (3 <= length args)%nat
  | _ => false
  end.

(** ** The walk of a call *)

(** The callees after whose visit the walk goes on to the arguments. *)
Definition descends (Func : Ast) : bool :=
  match Func with
  | Name n => bool_decide (n ∈ ["table_name"; "description"; "schema"; "implementation"])
  | _ => false
  end.

Definition isColumnOrForeignKey (e : Ast) : bool :=
  match e with
  | Call (Name n) _ _ => bool_decide (n = "Column") || bool_decide (n = "ForeignKey")
  | _ => false
  end.

(** ** What the record keeper holds *)

(** The namespace that a file is recorded in: the name of its directory. *)
Definition namespaceOf (src : Parser.SourceFile) : string :=
  filepath.Base (filepath.Dir (Parser.Path src)).

Definition lookupTable (p : Parser.t) (nsid tname : string) : option Table.t :=
  ns ← Parser.Namespaces p !! nsid; Namespace.Tables ns !! tname.

(** The table of the last of the files [srcs] that is recorded in the
    namespace [nsid] under the name [tname]. *)
Fixpoint lastRecorded (nsid tname : string) (srcs : list Parser.SourceFile) : option Table.t :=
  match srcs with
  | [] => None
  | src :: rest =>
      match lastRecorded nsid tname rest with
      | Some tbl => Some tbl
      | None =>
          if decide (namespaceOf src = nsid /\ Table.Name (Parser.Table src) = tname)
          then Some (Table.set_NamespaceID nsid (Parser.Table src))
          else None
      end
  end.

(** Every namespace is held under its key and named after the table of
    canonical platforms, and every table is held under its name and carries
    the key of its namespace. *)
Definition wellKeyed (p : Parser.t) : Prop :=
  forall nsid ns, Parser.Namespaces p !! nsid = Some ns ->
    Namespace.Key ns = nsid /\
    CanonicalPlatforms !! nsid = Some (Namespace.Name ns) /\
    forall tname tbl, Namespace.Tables ns !! tname = Some tbl ->
      Table.Name tbl = tname /\ Table.NamespaceID tbl = nsid.

(** An entry that the callback of the walk passes over. *)
Definition ignored (en : Parser.entry) : bool :=
  match en with
  | Parser.Dirent fileloc IsRegular _ =>
      negb IsRegular || negb (String.eqb (filepath.Ext fileloc) ".table")
  | Parser.Failure _ => false
  end.

(** [specs/darwin/good.table] declares the table name of
    [specs/linux/good.table]. *)
Definition good_table_darwin : Parser.entry :=
  Parser.Dirent ["specs"; "darwin"; "good.table"] true
    (Parser.Module [Call (Name "table_name") [Str "good"] []]).

Definition readme : Parser.entry :=
  Parser.Dirent ["specs"; "linux"; "README.md"] true Parser.Malformed.

(** [specs/unknown/good.table]: no canonical platform is called unknown. *)
Definition stray_table : Parser.entry :=
  Parser.Dirent ["specs"; "unknown"; "good.table"] true
    (Parser.Module [Call (Name "table_name") [Str "good"] []]).

Definition new_database : virtual.Database :=
  {| virtual.initialized := false; virtual.name := "osquery"; virtual.schemas := ∅ |}.

(** ** The outcomes of [InjectTables] *)

(** A step of [InjectTables]: it rewrites back pointers and [NamespaceID]
    only, also when it fails, and it fails by a nil dereference only. *)
Definition benign (c : M Mem.t unit) : Prop :=
  forall m m' r, c m = (m', r) ->
    linksPreserved m m' /\ (r = Ok tt \/ r = Panic NilDereference).

(** ** The runs of [ParseDirectory] *)

(** A file that makes the record keeper end the process: the name of its
    directory is no key of the canonical platforms. *)
Definition stray (src : Parser.SourceFile) : Prop :=
  CanonicalPlatforms !! namespaceOf src = None.

(** The files that the walking goroutine has still to send. *)
Definition todo (c : Parser.config) : list Parser.SourceFile :=
  match Parser.walking c with
  | Parser.Walking srcs _ => srcs
  | _ => []
  end.

(** The error [e] has been sent on [errchan]: it is in the buffer, or the
    caller has received and returned it. *)
Definition reported (e : error) (c : Parser.config) : Prop :=
  (Parser.errchan c = Some e /\ forall e', Parser.returned c <> Some (Some e')) \/
  (Parser.errchan c = None /\ Parser.returned c = Some (Some e)).

(** What holds of the channels, the caller and the process at each point of
    the two goroutines, in a call whose walk ends with [r]. *)
Definition control (r : result unit) (c : Parser.config) : Prop :=
  match Parser.keeping c with
  | Parser.Ranging | Parser.Recording _ =>
      Parser.finchan c = false /\ Parser.returned c <> Some None
  | Parser.Left =>
      Parser.closed c = true /\ Parser.reschan c = [] /\ Parser.proc c <> Parser.Exited /\
      (Parser.finchan c = true <-> Parser.returned c <> Some None)
  end /\
  match Parser.walking c with
  | Parser.Walking _ r' =>
      r' = r /\ Parser.closed c = false /\ Parser.errchan c = None /\
      Parser.returned c = None /\ forall pn, Parser.proc c <> Parser.Crashed pn
  | Parser.Closing =>
      Parser.closed c = false /\ (forall pn, Parser.proc c <> Parser.Crashed pn) /\
      exists e, r = Err e /\ reported e c
  | Parser.Crashing pn =>
      r = Panic pn /\ Parser.closed c = true /\ Parser.errchan c = None /\
      (forall e, Parser.returned c <> Some (Some e)) /\
      forall pn', Parser.proc c <> Parser.Crashed pn'
  | Parser.Gone =>
      Parser.closed c = true /\
      match r with
      | Ok _ =>
          Parser.errchan c = None /\ (forall e, Parser.returned c <> Some (Some e)) /\
          forall pn, Parser.proc c <> Parser.Crashed pn
      | Err e => reported e c /\ forall pn, Parser.proc c <> Parser.Crashed pn
      | Panic pn =>
          Parser.errchan c = None /\ (forall e, Parser.returned c <> Some (Some e)) /\
          Parser.proc c = Parser.Crashed pn
      end
  end.

(** The file that the record keeper has received and not yet recorded. *)
Definition held (c : Parser.config) : list Parser.SourceFile :=
  match Parser.keeping c with
  | Parser.Recording src => [src]
  | _ => []
  end.

(** The files [srcs] of the walk are those that the record keeper has
    recorded, the one that it holds, those in the buffer of [reschan] and
    those still to send, in this order; the parser holds the files
    recorded; and when [Fatalw] has ended the process, the record keeper
    holds a file that it cannot record. *)
Definition recorded (p1 : Parser.t) (srcs : list Parser.SourceFile) (c : Parser.config) : Prop :=
  exists taken,
    taken ++ held c ++ Parser.reschan c ++ todo c = srcs /\
    Parser.recordAll p1 taken = Some (Parser.parser c) /\
    (Parser.proc c = Parser.Exited ->
     exists src, Parser.keeping c = Parser.Recording src /\
                 Parser.record (Parser.parser c) src = None).


(** The schedule in which the record keeper receives and records each
    file as soon as it is sent. *)
Fixpoint inTurn (srcs : list Parser.SourceFile) : list Parser.move :=
  match srcs with
  | [] => []
  | _ :: rest => Parser.Walker :: Parser.Keeper :: Parser.Keeper :: inTurn rest
  end.

(** The two goroutines and the caller at the start of the walk of [srcs],
    with nothing sent. *)
Definition walkingFrom (p : Parser.t) (srcs : list Parser.SourceFile)
    (r : result unit) : Parser.config :=
  Parser.mkConfig p [] false None false (Parser.Walking srcs r) Parser.Ranging None Parser.Running.

(** [specs/extra/linux/good.table] lies in another directory called linux
    and declares the table name of [specs/linux/good.table], without a
    schema. *)
Definition good_table_nested : Parser.entry :=
  Parser.Dirent ["specs"; "extra"; "linux"; "good.table"] true
    (Parser.Module [Call (Name "table_name") [Str "good"] []]).

(** ** What [InjectTables] writes *)









(** * Properties *)

(** ** Unchecked indexing in [Schema.ExtractSchema] *)

(** C3.  [Schema.ExtractSchema] is not total on the calls the Python parser
    accepts: it ends in an index-out-of-range panic, not in an error, on
    [schema()], on [extended_schema()], on [extended_schema(LINUX)] (the
    column list is read at [Args[1]]), and on a column declaration with
    exactly one or exactly two positional arguments ([Args[1]] and
    [Args[2]] are read after the check [len < 1] only), whatever the state
    of the schema, the keywords and the rest of the column list. *)
Theorem ExtractSchema_index_out_of_range :
  (forall s kws,
     (Schema.ExtractSchema (Name "schema") [] kws s).2
     = Panic (IndexOutOfRange 0 0)) /\
  (forall s kws,
     (Schema.ExtractSchema (Name "extended_schema") [] kws s).2
     = Panic (IndexOutOfRange 0 0)) /\
  (forall s kws,
     (Schema.ExtractSchema (Name "extended_schema") [Name "LINUX"] kws s).2
     = Panic (IndexOutOfRange 1 1)) /\
  (forall s kws a0 ckws rest,
     (Schema.ExtractSchema (Name "schema")
        [List (Call (Name "Column") [a0] ckws :: rest)] kws s).2
     = Panic (IndexOutOfRange 1 1)) /\
  (forall s kws a0 a1 ckws rest,
     (Schema.ExtractSchema (Name "schema")
        [List (Call (Name "Column") [a0; a1] ckws :: rest)] kws s).2
     = Panic (IndexOutOfRange 2 2)).
Proof. repeat split. Qed.

(** ** Column types *)


Lemma sqlType_recognized ty prim :
  Column.sqlType ty = Some prim <-> (ty, prim) ∈ recognizedTypes.
Proof.
  unfold Column.sqlType, recognizedTypes.
  rewrite !elem_of_cons, elem_of_nil.
  repeat case_decide; subst; split; intros Hx;
    try (injection Hx as <-; tauto); try discriminate Hx;
    decompose [or] Hx; simplify_eq; try done.
Qed.

Lemma sqlType_unrecognized ty :
  Column.sqlType ty = None <-> ty ∉ recognizedTypes.*1.
Proof.
  unfold Column.sqlType, recognizedTypes; simpl.
  rewrite !not_elem_of_cons, elem_of_nil.
  repeat case_decide; subst; split; intros Hx; try discriminate Hx; try tauto.
  all: try reflexivity.
Qed.

(** C7.  The type of a column is checked late.  [ExtractSchema] stores any
    identifier given as the second argument of a column declaration as the
    column's type; [Column.ToSQLSchema] maps the eight recognized tokens to
    their primitive types and panics on every other token. *)
Theorem column_type_validation_deferred :
  (forall s name ty desc ckws kws,
     exists col,
       Schema.ExtractSchema (Name "schema")
         [List [Call (Name "Column") [Str name; Name ty; Str desc] ckws]] kws s
       = (Schema.set_Columns (Schema.Columns s ++ [col]) s, Ok tt)
       /\ Column.Type_ col = ty /\ Column.Name col = name) /\
  (forall c tablename prim,
     (Column.Type_ c, prim) ∈ recognizedTypes ->
     Column.ToSQLSchema c tablename
     = Ok {| sql.Name := Column.Name c; sql.Type_ := prim;
             sql.Source := tablename; sql.Nullable := true |}) /\
  (forall c tablename,
     Column.Type_ c ∉ recognizedTypes.*1 ->
     Column.ToSQLSchema c tablename
     = Panic (UnsupportedType (Column.Type_ c) (Column.Name c))).
Proof.
  split; [|split].
  - intros s name ty desc ckws kws. eexists. split; [reflexivity|]. split; reflexivity.
  - intros c tablename prim Hin. apply sqlType_recognized in Hin.
    unfold Column.ToSQLSchema. rewrite Hin. reflexivity.
  - intros c tablename Hnot. apply sqlType_unrecognized in Hnot.
    unfold Column.ToSQLSchema. rewrite Hnot. reflexivity.
Qed.

Lemma column_type_validation_deferred_witness :
  Column.ToSQLSchema
    (Column.set_Type "DATETIME" (Column.set_Name "time" Column.NewEmptyColumn)) "uptime"
  = Ok {| sql.Name := "time"; sql.Type_ := sql.Timestamp;
          sql.Source := "uptime"; sql.Nullable := true |}
  /\ Column.ToSQLSchema
       (Column.set_Type "VARCHAR" (Column.set_Name "time" Column.NewEmptyColumn)) "uptime"
     = Panic (UnsupportedType "VARCHAR" "time").
Proof.
  split.
  - apply (proj1 (proj2 column_type_validation_deferred)
             (Column.set_Type "DATETIME" (Column.set_Name "time" Column.NewEmptyColumn))
             "uptime" sql.Timestamp).
    compute_done.
  - apply (proj2 (proj2 column_type_validation_deferred)
             (Column.set_Type "VARCHAR" (Column.set_Name "time" Column.NewEmptyColumn))
             "uptime").
    compute_done.
Defined.

(** ** [Table.ToSQLSchema] *)

Lemma ToSQLSchema_supported c tablename :
  supported c -> exists sc, Column.ToSQLSchema c tablename = Ok sc.
Proof.
  unfold supported, Column.ToSQLSchema. intros Hs.
  apply bool_decide_unpack in Hs.
  destruct (Column.sqlType (Column.Type_ c)) eqn:E; [eauto|].
  apply sqlType_unrecognized in E. contradiction.
Qed.

Lemma ToSQLSchema_unsupported c tablename :
  ~ supported c ->
  Column.ToSQLSchema c tablename
  = Panic (UnsupportedType (Column.Type_ c) (Column.Name c)).
Proof.
  unfold supported, Column.ToSQLSchema. intros Hs.
  rewrite bool_decide_spec in Hs.
  apply sqlType_unrecognized in Hs. rewrite Hs. reflexivity.
Qed.

Lemma columnsToSQL_app tn cols1 cols2 :
  Table.columnsToSQL tn (cols1 ++ cols2)
  = appendResults (Table.columnsToSQL tn cols1) (Table.columnsToSQL tn cols2).
Proof.
  induction cols1 as [|c cols1 IH]; simpl.
  - destruct (Table.columnsToSQL tn cols2); reflexivity.
  - destruct (Column.ToSQLSchema c tn); try reflexivity.
    rewrite IH.
    destruct (Table.columnsToSQL tn cols1); simpl; try reflexivity.
    destruct (Table.columnsToSQL tn cols2); reflexivity.
Qed.

Lemma extendedToSQL_flat x platformFilter :
  Table.extendedToSQL x platformFilter
  = Table.columnsToSQL (Table.Name x)
      (flat_map (fun ext => match Table.ExtendedSchemas x !! ext with
                            | Some es => Schema.Columns es
                            | None => []
                            end) platformFilter).
Proof.
  induction platformFilter as [|ext rest IH]; simpl; [reflexivity|].
  destruct (Table.ExtendedSchemas x !! ext) as [es|]; simpl; [|exact IH].
  rewrite columnsToSQL_app, IH. reflexivity.
Qed.

Lemma ToSQLSchema_columnOrder x base platformFilter :
  Table.Schema x = Some base ->
  Table.ToSQLSchema x platformFilter
  = Table.columnsToSQL (Table.Name x) (columnOrder x base platformFilter).
Proof.
  intros Hb. unfold Table.ToSQLSchema, columnOrder. rewrite Hb.
  rewrite columnsToSQL_app, extendedToSQL_flat. reflexivity.
Qed.

Lemma columnsToSQL_supported tn cols :
  Forall supported cols ->
  exists scs, Table.columnsToSQL tn cols = Ok scs /\
              Forall2 (fun c sc => Column.ToSQLSchema c tn = Ok sc) cols scs.
Proof.
  induction 1 as [|c cols Hc _ IH]; simpl.
  - exists []. split; [reflexivity|constructor].
  - destruct (ToSQLSchema_supported c tn Hc) as [sc Hsc].
    destruct IH as (scs & Hscs & Hall). rewrite Hsc, Hscs.
    exists (sc :: scs). split; [reflexivity|]. constructor; assumption.
Qed.

Lemma columnsToSQL_first_unsupported tn pre c post :
  Forall supported pre -> ~ supported c ->
  Table.columnsToSQL tn (pre ++ c :: post)
  = Panic (UnsupportedType (Column.Type_ c) (Column.Name c)).
Proof.
  intros Hpre Hc. rewrite columnsToSQL_app.
  destruct (columnsToSQL_supported tn pre Hpre) as (scs & -> & _).
  simpl. rewrite (ToSQLSchema_unsupported c tn Hc). reflexivity.
Qed.

(** C5, the claim as it is written, fails: a table whose base schema holds
    a column of an unsupported type has no SQL schema. *)
Lemma ToSQLSchema_columns_counterexample :
  ~ (forall x base platformFilter,
       Table.Schema x = Some base ->
       exists cols,
         Table.ToSQLSchema x platformFilter = Ok cols /\
         Forall2 (fun c sc => Column.ToSQLSchema c (Table.Name x) = Ok sc)
                 (columnOrder x base platformFilter) cols).
Proof.
  intros H.
  pose (col := Column.set_Type "VARCHAR" (Column.set_Name "path" Column.NewEmptyColumn)).
  pose (base := Schema.set_Columns [col] Schema.NewEmptySchema).
  destruct (H (Table.set_Schema (Some base) Table.NewEmptyTable) base [] eq_refl)
    as (cols & Hcols & _).
  vm_compute in Hcols. discriminate Hcols.
Qed.

(** C5, amended.  For a table with a base schema and a platform filter:
    when every column of the base schema and of the extended schemas
    registered under the entries of the filter has a recognized type,
    [Table.ToSQLSchema] returns the SQL columns of the base schema in their
    declared order, followed, for each entry of the filter in the order of
    the filter, by those of the extended schema registered under it, entries
    without an extended schema adding nothing; when one of these columns
    has no recognized type, it panics on the first such column. *)
Theorem ToSQLSchema_columns x base platformFilter :
  Table.Schema x = Some base ->
  (Forall supported (columnOrder x base platformFilter) ->
   exists cols,
     Table.ToSQLSchema x platformFilter = Ok cols /\
     Forall2 (fun c sc => Column.ToSQLSchema c (Table.Name x) = Ok sc)
             (columnOrder x base platformFilter) cols) /\
  (forall pre c post,
     columnOrder x base platformFilter = pre ++ c :: post ->
     Forall supported pre -> ~ supported c ->
     Table.ToSQLSchema x platformFilter
     = Panic (UnsupportedType (Column.Type_ c) (Column.Name c))).
Proof.
  intros Hb. rewrite (ToSQLSchema_columnOrder x base platformFilter Hb). split.
  - apply columnsToSQL_supported.
  - intros pre c post ->. apply columnsToSQL_first_unsupported.
Qed.

Lemma ToSQLSchema_columns_witness :
  exists cols,
    Table.ToSQLSchema groups ["windows"; "linux"] = Ok cols /\
    Forall2 (fun c sc => Column.ToSQLSchema c "groups" = Ok sc)
            (columnOrder groups groups_base ["windows"; "linux"]) cols.
Proof.
  apply (proj1 (ToSQLSchema_columns groups groups_base ["windows"; "linux"] eq_refl)).
  compute_done.
Defined.

(** ** A table without a base schema *)

(** C10, the claim as it is written, fails for [AddTable]: on a database
    that has been initialized it returns [ErrDatabaseInitialized] and does
    not call [ToSQLSchema]. *)
Lemma AddTable_nil_schema_counterexample :
  ~ (forall x osexts d,
       Table.Schema x = None ->
       (virtual.AddTable x osexts d).2 = Panic NilDereference).
Proof.
  intros H.
  specialize (H uptime_no_schema ["linux"]
                {| virtual.initialized := true; virtual.name := "osquery";
                   virtual.schemas := ∅ |} eq_refl).
  discriminate H.
Qed.

(** C10, amended.  For a table whose base schema is nil, [Table.ToSQLSchema]
    panics with a nil dereference, and so does [Database.AddTable] on a
    database that has not been initialized; on an initialized database
    [AddTable] returns [ErrDatabaseInitialized] instead.  The database is
    left as it was in both cases. *)
Theorem nil_schema_panics x osexts :
  Table.Schema x = None ->
  Table.ToSQLSchema x osexts = Panic NilDereference /\
  (forall d, virtual.initialized d = false ->
             virtual.AddTable x osexts d = (d, Panic NilDereference)) /\
  (forall d, virtual.initialized d = true ->
             virtual.AddTable x osexts d = (d, Err ErrDatabaseInitialized)).
Proof.
  intros Hnil. unfold virtual.AddTable, Table.ToSQLSchema. rewrite Hnil.
  split; [reflexivity|]. split; intros d ->; reflexivity.
Qed.

Lemma nil_schema_panics_witness :
  Parser.ParseTableDef ["specs"; "uptime.table"]
    (Parser.Module [Call (Name "table_name") [Str "uptime"] []]) = Ok uptime_no_schema /\
  Table.ToSQLSchema uptime_no_schema ["linux"] = Panic NilDereference /\
  virtual.AddTable uptime_no_schema ["linux"]
    {| virtual.initialized := false; virtual.name := "osquery"; virtual.schemas := ∅ |}
  = ({| virtual.initialized := false; virtual.name := "osquery"; virtual.schemas := ∅ |},
     Panic NilDereference).
Proof.
  split; [reflexivity|].
  destruct (nil_schema_panics uptime_no_schema ["linux"] eq_refl) as (H1 & H2 & _).
  split; [exact H1|]. apply H2. reflexivity.
Defined.

(** ** Platform sets *)

Lemma unionPlatforms_set cur platformList :
  (list_to_set (Schema.unionPlatforms cur platformList) : gset string)
  = list_to_set cur ∪ list_to_set platformList.
Proof. unfold Schema.unionPlatforms. apply list_to_set_elements_L. Qed.

Lemma unionPlatforms_NoDup cur platformList :
  NoDup (Schema.unionPlatforms cur platformList).
Proof. unfold Schema.unionPlatforms. apply NoDup_elements. Qed.

Lemma mergeCategory_category key platformList s :
  TableCategories !! key = Some platformList ->
  Schema.mergeCategory key s
  = (Schema.set_Platforms (Schema.unionPlatforms (Schema.Platforms s) platformList) s,
     Ok tt).
Proof. intros H. unfold Schema.mergeCategory. rewrite H. reflexivity. Qed.

Lemma mergeCategory_miss key s :
  TableCategories !! key = None ->
  Schema.mergeCategory key s = (s, Err (ErrNoTableCategory key)).
Proof. intros H. unfold Schema.mergeCategory. rewrite H. reflexivity. Qed.

Lemma mergeCategory_set key s :
  isCategory key = true ->
  exists s',
    Schema.mergeCategory key s = (s', Ok tt) /\
    platformSet s' = platformSet s ∪ categoryPlatforms key /\
    NoDup (Schema.Platforms s') /\
    Schema.Extended s' = Schema.Extended s /\
    Schema.Columns s' = Schema.Columns s /\
    Schema.ForeignKeys s' = Schema.ForeignKeys s.
Proof.
  unfold isCategory. intros H. apply bool_decide_eq_true in H as [pl Hpl].
  eexists. split; [apply (mergeCategory_category _ _ _ Hpl)|].
  unfold platformSet, categoryPlatforms. rewrite Hpl. simpl.
  split; [apply unionPlatforms_set|]. split; [apply unionPlatforms_NoDup|done].
Qed.

Lemma isCategory_false key :
  isCategory key = false -> TableCategories !! key = None.
Proof.
  unfold isCategory. intros H. apply bool_decide_eq_false in H.
  destruct (TableCategories !! key); [exfalso; eauto|reflexivity].
Qed.

(** ** [ParseLambda] *)

Lemma parseLambdaValues_accepted values s :
  forallb operandAccepted values = true ->
  exists s',
    Schema.parseLambdaValues values s = (s', Ok tt) /\
    platformSet s' = platformSet s ∪ ⋃ (operandPlatforms <$> values) /\
    Schema.Extended s' = Schema.Extended s /\
    Schema.Columns s' = Schema.Columns s /\
    Schema.ForeignKeys s' = Schema.ForeignKeys s.
Proof.
  revert s. induction values as [|v values IH]; intros s Hall.
  - exists s. simpl. split; [reflexivity|]. split; [set_solver|done].
  - simpl in Hall. apply andb_true_iff in Hall as [Hv Hrest].
    destruct v as [[| id | | | | | | |] args kws| | | | | | | |]; try discriminate Hv.
    simpl in Hv.
    destruct (mergeCategory_set id s Hv) as (s1 & Hm & Hset & _ & He & Hc & Hf).
    destruct (IH s1 Hrest) as (s' & Hp & Hset' & He' & Hc' & Hf').
    exists s'. split.
    + simpl. unfold mbind, M_bind, bind.  rewrite Hm. exact Hp.
    + rewrite Hset', Hset. simpl. split; [set_solver|]. split; [congruence|].
      split; congruence.
Qed.

Lemma parseLambdaValues_rejected values s :
  forallb operandAccepted values = false ->
  exists s' e, Schema.parseLambdaValues values s = (s', Err e).
Proof.
  revert s. induction values as [|v values IH]; intros s Hall; [discriminate|].
  simpl in Hall. apply andb_false_iff in Hall.
  destruct v as [[| id | | | | | | |] args kws| | | | | | | |];
    try (simpl; eauto; fail).
  simpl. unfold mbind, M_bind, bind.
  destruct (isCategory id) eqn:Hid.
  - destruct (mergeCategory_set id s Hid) as (s1 & Hm & _). rewrite Hm.
    destruct Hall as [Hv|Hrest]; [simpl in Hv; congruence|]. apply IH, Hrest.
  - rewrite (mergeCategory_miss id s (isCategory_false id Hid)). eauto.
Qed.

Lemma mergeCategory_NoDup key s :
  NoDup (Schema.Platforms s) ->
  NoDup (Schema.Platforms (Schema.mergeCategory key s).1).
Proof.
  intros Hnd. unfold Schema.mergeCategory.
  destruct (TableCategories !! key); simpl; [apply unionPlatforms_NoDup|exact Hnd].
Qed.

Lemma parseLambdaValues_NoDup values s :
  NoDup (Schema.Platforms s) ->
  NoDup (Schema.Platforms (Schema.parseLambdaValues values s).1).
Proof.
  revert s. induction values as [|v values IH]; intros s Hnd; [exact Hnd|].
  destruct v as [[| id | | | | | | |] args kws| | | | | | | |]; try exact Hnd.
  simpl. unfold mbind, M_bind, bind.
  pose proof (mergeCategory_NoDup id s Hnd) as Hnd1.
  destruct (Schema.mergeCategory id s) as [s1 [[]| |]]; simpl in *;
    [apply IH| |]; assumption.
Qed.

Lemma ParseLambda_NoDup body s :
  NoDup (Schema.Platforms s) ->
  NoDup (Schema.Platforms (Schema.ParseLambda body s).1).
Proof.
  intros Hnd.
  destruct body as [| | | | | | |[] values|]; try exact Hnd.
  apply parseLambdaValues_NoDup, Hnd.
Qed.

Lemma ParseLambda_accepted s body :
  lambdaAccepted body = true ->
  exists s',
    Schema.ParseLambda body s = (s', Ok tt) /\
    platformSet s' = platformSet s ∪ lambdaPlatforms body /\
    Schema.Extended s' = Schema.Extended s /\
    Schema.Columns s' = Schema.Columns s /\
    Schema.ForeignKeys s' = Schema.ForeignKeys s.
Proof.
  destruct body as [| | | | | | |[] values|]; try discriminate.
  simpl. apply parseLambdaValues_accepted.
Qed.

Lemma ParseLambda_rejected s body :
  lambdaAccepted body = false ->
  exists e, (Schema.ParseLambda body s).2 = Err e.
Proof.
  intros Hrej.
  destruct body as [| | | | | | |[] values|]; simpl; eauto.
  destruct (parseLambdaValues_rejected values s Hrej) as (s' & e & ->). eauto.
Qed.

(** C6, the claim as it is written, fails: [ParseLambda] does not look at
    the arguments of an operand, and takes [lambda: WINDOWS("x") or LINUX()],
    whose first operand is a call with an argument. *)
Lemma ParseLambda_arguments_counterexample :
  ~ (forall s body,
       lambdaOfSpec body = false ->
       exists e, (Schema.ParseLambda body s).2 = Err e).
Proof.
  intros H.
  destruct (H Schema.NewEmptySchema
              (BoolOp Or [Call (Name "WINDOWS") [Str "x"] [];
                          Call (Name "LINUX") [] []]) eq_refl) as [e He].
  vm_compute in He. discriminate He.
Qed.

(** C6, amended.  [ParseLambda] fails with an error exactly when the body
    is not a boolean OR expression, or some operand is not a call to a bare
    identifier (the arguments of the call are not looked at), or the
    identifier of an operand is not a key of the category table; on every
    other body it succeeds, and the platform set of the schema is then its
    former platform set joined with the platforms of the categories of the
    operands, the other fields being unchanged.  It never panics. *)
Theorem ParseLambda_fails_exactly s body :
  (lambdaAccepted body = false <->
   exists e, (Schema.ParseLambda body s).2 = Err e) /\
  (lambdaAccepted body = true ->
   exists s',
     Schema.ParseLambda body s = (s', Ok tt) /\
     platformSet s' = platformSet s ∪ lambdaPlatforms body /\
     Schema.Extended s' = Schema.Extended s /\
     Schema.Columns s' = Schema.Columns s /\
     Schema.ForeignKeys s' = Schema.ForeignKeys s).
Proof.
  split; [|apply ParseLambda_accepted]. split.
  - apply ParseLambda_rejected.
  - intros [e He]. destruct (lambdaAccepted body) eqn:Hacc; [|reflexivity].
    destruct (ParseLambda_accepted s body Hacc) as (s' & Hp & _).
    rewrite Hp in He. discriminate He.
Qed.

Lemma ParseLambda_fails_exactly_witness :
  exists s',
    Schema.ParseLambda
      (BoolOp Or [Call (Name "WINDOWS") [] []; Call (Name "LINUX") [Str "x"] []])
      Schema.NewEmptySchema = (s', Ok tt) /\
    platformSet s' = {[ "windows"; "win32"; "cygwin"; "linux" ]}.
Proof.
  destruct (proj2 (ParseLambda_fails_exactly Schema.NewEmptySchema
              (BoolOp Or [Call (Name "WINDOWS") [] []; Call (Name "LINUX") [Str "x"] []]))
              eq_refl) as (s' & Hp & Hset & _).
  exists s'. split; [exact Hp|]. rewrite Hset. vm_compute. reflexivity.
Defined.

(** C8.  The union of platform sets is idempotent and commutative on sets:
    merging a category whose platforms are all in the platform set of the
    schema leaves that set as it was, and merging two categories in one
    order or the other ends in the same platform set, be it by two lookups
    in a row or by the two operands of a lambda body. *)
Theorem platform_union_idempotent_commutative :
  (forall s c,
     isCategory c = true -> categoryPlatforms c ⊆ platformSet s ->
     exists s', Schema.mergeCategory c s = (s', Ok tt) /\
                platformSet s' = platformSet s) /\
  (forall s c1 c2,
     isCategory c1 = true -> isCategory c2 = true ->
     exists s12 s21,
       (Schema.mergeCategory c1;; Schema.mergeCategory c2) s = (s12, Ok tt) /\
       (Schema.mergeCategory c2;; Schema.mergeCategory c1) s = (s21, Ok tt) /\
       platformSet s12 = platformSet s21) /\
  (forall s c1 c2,
     isCategory c1 = true -> isCategory c2 = true ->
     exists s12 s21,
       Schema.ParseLambda (BoolOp Or [Call (Name c1) [] []; Call (Name c2) [] []]) s
       = (s12, Ok tt) /\
       Schema.ParseLambda (BoolOp Or [Call (Name c2) [] []; Call (Name c1) [] []]) s
       = (s21, Ok tt) /\
       platformSet s12 = platformSet s21).
Proof.
  split; [|split].
  - intros s c Hc Hsub.
    destruct (mergeCategory_set c s Hc) as (s' & Hm & Hset & _).
    exists s'. split; [exact Hm|]. rewrite Hset. set_solver.
  - intros s c1 c2 H1 H2.
    destruct (mergeCategory_set c1 s H1) as (s1 & Hm1 & Hset1 & _).
    destruct (mergeCategory_set c2 s1 H2) as (s12 & Hm12 & Hset12 & _).
    destruct (mergeCategory_set c2 s H2) as (s2 & Hm2 & Hset2 & _).
    destruct (mergeCategory_set c1 s2 H1) as (s21 & Hm21 & Hset21 & _).
    exists s12, s21. unfold mbind, M_bind, bind. rewrite Hm1, Hm2.
    split; [exact Hm12|]. split; [exact Hm21|].
    rewrite Hset12, Hset1, Hset21, Hset2. set_solver.
  - intros s c1 c2 H1 H2.
    destruct (ParseLambda_accepted s
                (BoolOp Or [Call (Name c1) [] []; Call (Name c2) [] []]))
      as (s12 & Hp12 & Hset12 & _); [simpl; rewrite H1, H2; reflexivity|].
    destruct (ParseLambda_accepted s
                (BoolOp Or [Call (Name c2) [] []; Call (Name c1) [] []]))
      as (s21 & Hp21 & Hset21 & _); [simpl; rewrite H1, H2; reflexivity|].
    exists s12, s21. split; [exact Hp12|]. split; [exact Hp21|].
    rewrite Hset12, Hset21. simpl. set_solver.
Qed.

Lemma platform_union_idempotent_commutative_witness :
  (exists s', Schema.mergeCategory "LINUX" groups_linux = (s', Ok tt) /\
              platformSet s' = platformSet groups_linux) /\
  (exists s12 s21,
     (Schema.mergeCategory "WINDOWS";; Schema.mergeCategory "POSIX") groups_linux
     = (s12, Ok tt) /\
     (Schema.mergeCategory "POSIX";; Schema.mergeCategory "WINDOWS") groups_linux
     = (s21, Ok tt) /\
     platformSet s12 = platformSet s21).
Proof.
  split.
  - apply (proj1 platform_union_idempotent_commutative groups_linux "LINUX").
    + reflexivity.
    + compute_done.
  - apply (proj1 (proj2 platform_union_idempotent_commutative)
             groups_linux "WINDOWS" "POSIX"); reflexivity.
Defined.

(** ** Extended schemas *)

Lemma extractColumn_platforms colidx coldef s :
  Schema.Platforms (Schema.extractColumn colidx coldef s).1 = Schema.Platforms s /\
  Schema.Extended (Schema.extractColumn colidx coldef s).1 = Schema.Extended s.
Proof.
  destruct coldef as [[| id | | | | | | |] args kws| | | | | | | |]; try done.
  unfold Schema.extractColumn. case_decide; [done|]. case_decide; [done|].
  destruct args as [|a0 [|a1 [|a2 args]]]; done.
Qed.

Lemma extractColumns_platforms elts colidx s :
  Schema.Platforms (Schema.extractColumns colidx elts s).1 = Schema.Platforms s /\
  Schema.Extended (Schema.extractColumns colidx elts s).1 = Schema.Extended s.
Proof.
  revert colidx s. induction elts as [|coldef elts IH]; intros colidx s; [done|].
  simpl. unfold mbind, M_bind, bind.
  destruct (extractColumn_platforms colidx coldef s) as [Hp He].
  destruct (Schema.extractColumn colidx coldef s) as [s1 [[]| |]]; simpl in *;
    try done.
  destruct (IH (S colidx) s1) as [Hp' He']. split; congruence.
Qed.

(** The loop [for _, platform := range extSchema.Platforms] of
    [ExtractExtendedSchema]. *)
Lemma register_lookup (extSchema : Schema.t) platforms (m : gmap string Schema.t) k :
  foldl (fun m platform => <[platform := extSchema]> m) m platforms !! k
  = if decide (k ∈ platforms) then Some extSchema else m !! k.
Proof.
  revert m. induction platforms as [|p platforms IH]; intros m; cbn [foldl].
  - destruct (decide (k ∈ [])) as [Hin|_]; [|reflexivity].
    apply elem_of_nil in Hin. contradiction.
  - rewrite IH.
    destruct (decide (k ∈ platforms)) as [Hin|Hnin];
      destruct (decide (k ∈ p :: platforms)) as [Hin'|Hnin']; try reflexivity.
    + exfalso. apply Hnin'. right. exact Hin.
    + apply elem_of_cons in Hin' as [->|Hin']; [|contradiction].
      apply lookup_insert_eq.
    + apply lookup_insert_ne. intros ->. apply Hnin'. left.
Qed.

Lemma register_dom (extSchema : Schema.t) platforms (m : gmap string Schema.t) :
  dom (foldl (fun m platform => <[platform := extSchema]> m) m platforms)
  = dom m ∪ list_to_set platforms.
Proof.
  revert m. induction platforms as [|p platforms IH]; intros m; simpl.
  - set_solver.
  - rewrite IH, dom_insert_L. set_solver.
Qed.

Lemma ExtractSchema_extended_lambda body elts kws s :
  Schema.ExtractSchema (Name "extended_schema") [Lambda body; List elts] kws s
  = match Schema.ParseLambda body (Schema.set_Extended true s) with
    | (s1, Ok _) => Schema.extractColumns 0 elts s1
    | (s1, Err e) => (s1, Err e)
    | (s1, Panic p) => (s1, Panic p)
    end.
Proof.
  unfold Schema.ExtractSchema. simpl. unfold mbind, M_bind, bind. simpl.
  destruct (Schema.ParseLambda body (Schema.set_Extended true s)) as [s1 [[]| |]];
    reflexivity.
Qed.

(** C9.  When [extended_schema(lambda: WINDOWS() or LINUX(), [...])] is
    extracted, the schema it yields is stored in [ExtendedSchemas] under the
    four keys windows, win32, cygwin and linux, the platforms of the two
    categories, and under no other key: the other keys of the map keep what
    they held, and a table that had no extended schema has exactly these
    four keys.  The platform list of the schema holds these four names,
    each once. *)
Theorem extended_schema_windows_or_linux x elts kws x' :
  Table.ExtractExtendedSchema (Name "extended_schema")
    [windows_or_linux; List elts] kws x = (x', Ok tt) ->
  exists extSchema,
    (forall k, k ∈ ["windows"; "win32"; "cygwin"; "linux"] ->
               Table.ExtendedSchemas x' !! k = Some extSchema) /\
    (forall k, k ∉ ["windows"; "win32"; "cygwin"; "linux"] ->
               Table.ExtendedSchemas x' !! k = Table.ExtendedSchemas x !! k) /\
    dom (Table.ExtendedSchemas x')
    = dom (Table.ExtendedSchemas x) ∪ {[ "windows"; "win32"; "cygwin"; "linux" ]} /\
    (Table.ExtendedSchemas x = ∅ ->
     dom (Table.ExtendedSchemas x') = {[ "windows"; "win32"; "cygwin"; "linux" ]}) /\
    Schema.Platforms extSchema ≡ₚ ["windows"; "win32"; "cygwin"; "linux"] /\
    Schema.Extended extSchema = true.
Proof.
  unfold Table.ExtractExtendedSchema, Table.onSchema, windows_or_linux.
  rewrite ExtractSchema_extended_lambda.
  destruct (ParseLambda_accepted (Schema.set_Extended true Schema.NewEmptySchema)
              (BoolOp Or [Call (Name "WINDOWS") [] []; Call (Name "LINUX") [] []])
              eq_refl) as (s1 & Hp & Hset & Hext & _).
  rewrite Hp.
  destruct (extractColumns_platforms elts 0 s1) as [Hplat Hext'].
  destruct (Schema.extractColumns 0 elts s1) as [extSchema [[]| |]] eqn:Hcols;
    try discriminate.
  simpl in Hplat, Hext'. intros [= <-].
  assert (Hnd : NoDup (Schema.Platforms s1)).
  { pose proof (ParseLambda_NoDup
                  (BoolOp Or [Call (Name "WINDOWS") [] []; Call (Name "LINUX") [] []])
                  (Schema.set_Extended true Schema.NewEmptySchema)
                  (NoDup_nil_2 (A := string))) as Hnd.
    rewrite Hp in Hnd. exact Hnd. }
  assert (Hperm : Schema.Platforms extSchema ≡ₚ ["windows"; "win32"; "cygwin"; "linux"]).
  { rewrite Hplat. apply NoDup_Permutation.
    - exact Hnd.
    - compute_done.
    - intros k.
      assert (Hl : platformSet (Schema.set_Extended true Schema.NewEmptySchema)
                   ∪ lambdaPlatforms
                       (BoolOp Or [Call (Name "WINDOWS") [] []; Call (Name "LINUX") [] []])
                   = list_to_set ["windows"; "win32"; "cygwin"; "linux"])
        by (vm_compute; reflexivity).
      rewrite Hl in Hset. unfold platformSet in Hset.
      rewrite <- (elem_of_list_to_set (C := gset string)), Hset.
      apply elem_of_list_to_set. }
  exists extSchema. simpl.
  split; [|split; [|split; [|split; [|split]]]].
  - intros k Hk. rewrite register_lookup, decide_True; [reflexivity|].
    rewrite Hperm. exact Hk.
  - intros k Hk. rewrite register_lookup, decide_False; [reflexivity|].
    rewrite Hperm. exact Hk.
  - rewrite register_dom. f_equal.
    apply set_eq. intros k. rewrite elem_of_list_to_set, Hperm. set_solver.
  - intros ->. rewrite register_dom, dom_empty_L.
    apply set_eq. intros k. rewrite elem_of_union, elem_of_list_to_set, Hperm.
    set_solver.
  - exact Hperm.
  - rewrite Hext', Hext. reflexivity.
Qed.

Lemma extended_schema_windows_or_linux_witness :
  dom (Table.ExtendedSchemas
         (Table.ExtractExtendedSchema (Name "extended_schema")
            [windows_or_linux;
             List [Call (Name "Column") [Str "pid"; Name "BIGINT"; Str "Process ID"] []]]
            [] (Table.set_Name "processes" Table.NewEmptyTable)).1)
  = {[ "windows"; "win32"; "cygwin"; "linux" ]}.
Proof.
  destruct (extended_schema_windows_or_linux
              (Table.set_Name "processes" Table.NewEmptyTable)
              [Call (Name "Column") [Str "pid"; Name "BIGINT"; Str "Process ID"] []]
              []
              (Table.ExtractExtendedSchema (Name "extended_schema")
                 [windows_or_linux;
                  List [Call (Name "Column") [Str "pid"; Name "BIGINT"; Str "Process ID"] []]]
                 [] (Table.set_Name "processes" Table.NewEmptyTable)).1)
    as (extSchema & _ & _ & _ & Hdom & _).
  - vm_compute. reflexivity.
  - apply Hdom. reflexivity.
Defined.

(** ** Column indices *)

Lemma mergeCategory_columns key s :
  Schema.Columns (Schema.mergeCategory key s).1 = Schema.Columns s.
Proof. unfold Schema.mergeCategory. destruct (TableCategories !! key); reflexivity. Qed.

Lemma parseLambdaValues_columns values s :
  Schema.Columns (Schema.parseLambdaValues values s).1 = Schema.Columns s.
Proof.
  revert s. induction values as [|v values IH]; intros s; [reflexivity|].
  destruct v as [[| id | | | | | | |] args kws| | | | | | | |]; try reflexivity.
  simpl. unfold mbind, M_bind, bind.
  pose proof (mergeCategory_columns id s) as Hm.
  destruct (Schema.mergeCategory id s) as [s1 [[]| |]]; simpl in *; try exact Hm.
  rewrite IH. exact Hm.
Qed.

Lemma ParseLambda_columns body s :
  Schema.Columns (Schema.ParseLambda body s).1 = Schema.Columns s.
Proof.
  destruct body as [| | | | | | |[] values|]; try reflexivity.
  apply parseLambdaValues_columns.
Qed.

Lemma extractColumn_indices colidx coldef s s' :
  Schema.extractColumn colidx coldef s = (s', Ok tt) ->
  indices s' = indices s ++
               (if isColumnDeclaration coldef then [Z.of_nat colidx] else []).
Proof.
  unfold indices.
  destruct coldef as [[| id | | | | | | |] args kws| | | | | | | |]; try discriminate.
  unfold Schema.extractColumn, isColumnDeclaration.
  destruct (decide (id = "ForeignKey")) as [Hfk|Hfk].
  - intros [= <-]. simpl.
    destruct args; [|rewrite bool_decide_eq_true_2 by exact Hfk];
      simpl; rewrite app_nil_r; reflexivity.
  - destruct args as [|a0 [|a1 [|a2 args]]]; simpl; try discriminate.
    + intros [= <-]. rewrite app_nil_r. reflexivity.
    + intros [= <-]. rewrite bool_decide_eq_false_2 by exact Hfk. simpl.
      rewrite fmap_app. simpl. do 2 f_equal.
      destruct a0, a1, a2; reflexivity.
Qed.

Lemma extractColumns_indices elts colidx s s' :
  Schema.extractColumns colidx elts s = (s', Ok tt) ->
  indices s' = indices s ++ (Z.of_nat <$> declarationPositions colidx elts).
Proof.
  revert colidx s. induction elts as [|coldef elts IH]; intros colidx s.
  - intros [= <-]. simpl. rewrite app_nil_r. reflexivity.
  - simpl. unfold mbind, M_bind, bind.
    destruct (Schema.extractColumn colidx coldef s) as [s1 [[]| |]] eqn:Hcol;
      try discriminate.
    intros Hrest. rewrite (IH _ _ Hrest), (extractColumn_indices _ _ _ _ Hcol).
    rewrite fmap_app, app_assoc. f_equal. f_equal.
    destruct (isColumnDeclaration coldef); reflexivity.
Qed.
Lemma bind_Ok {S A B} (c : M S A) (k : A -> M S B) s s' b :
  (c ≫= k) s = (s', Ok b) ->
  exists s1 a, c s = (s1, Ok a) /\ k a s1 = (s', Ok b).
Proof.
  unfold mbind, M_bind, bind.
  destruct (c s) as [s1 [a| |]]; try discriminate. eauto.
Qed.

Lemma index_Ok {S A} (xs : list A) i (s s' : S) x :
  index xs i s = (s', Ok x) -> s' = s /\ xs !! i = Some x.
Proof.
  unfold index. destruct (xs !! i); [|discriminate].
  intros [= <- <-]. done.
Qed.

Lemma platformArg_columns platformArg s s1 r :
  match platformArg with
  | NameConstant v => Schema.mergeCategory (sprintf_v v)
  | Str s => Schema.mergeCategory s
  | Name id => Schema.mergeCategory id
  | Lambda body => Schema.ParseLambda body
  | _ => throw ErrPlatformArgType
  end s = (s1, r) ->
  Schema.Columns s1 = Schema.Columns s.
Proof.
  intros H. apply (f_equal fst) in H. simpl in H. subst s1.
  destruct platformArg; try reflexivity;
    auto using mergeCategory_columns, ParseLambda_columns.
Qed.

Lemma ExtractSchema_column_list Func Args Kws s s' :
  Schema.ExtractSchema Func Args Kws s = (s', Ok tt) ->
  exists callerFuncName s0 elts,
    Func = Name callerFuncName /\
    Args !! (if decide (callerFuncName = "extended_schema") then 1 else 0)%nat
    = Some (List elts) /\
    indices s0 = indices s /\
    Schema.extractColumns 0 elts s0 = (s', Ok tt).
Proof.
  destruct Func as [| callerFuncName | | | | | | |]; try discriminate.
  unfold Schema.ExtractSchema. intros Hrun.
  apply bind_Ok in Hrun as (s0 & argsIndex & Hplat & Hrun).
  apply bind_Ok in Hrun as (s0' & arg & Harg & Hrun).
  apply index_Ok in Harg as [-> Harg].
  exists callerFuncName, s0.
  assert (Hplat' : argsIndex = (if decide (callerFuncName = "extended_schema")
                                then 1 else 0)%nat
                   /\ Schema.Columns s0 = Schema.Columns s).
  { destruct (decide (callerFuncName = "extended_schema")).
    - apply bind_Ok in Hplat as (s1 & [] & Hmod & Hplat).
      injection Hmod as <-.
      apply bind_Ok in Hplat as (s2 & platformArg & Hidx & Hplat).
      apply index_Ok in Hidx as [-> _].
      apply bind_Ok in Hplat as (s3 & [] & Hmerge & Hret).
      injection Hret as <- <-.
      apply platformArg_columns in Hmerge. done.
    - injection Hplat as <- <-. done. }
  destruct Hplat' as [-> Hcols].
  destruct arg; try (apply bind_Ok in Hrun as (? & ? & _ & Hrun); discriminate Hrun).
  exists Elts. unfold indices. rewrite Hcols. done.
Qed.
Lemma declarationPositions_ge elts colidx :
  Forall (fun i => colidx <= i)%nat (declarationPositions colidx elts).
Proof.
  revert colidx. induction elts as [|e elts IH]; intros colidx; simpl; [constructor|].
  apply Forall_app. split.
  - destruct (isColumnDeclaration e); repeat constructor.
  - eapply Forall_impl; [apply IH|]. simpl. lia.
Qed.

Lemma declarationPositions_sorted elts colidx :
  StronglySorted lt (declarationPositions colidx elts).
Proof.
  revert colidx. induction elts as [|e elts IH]; intros colidx; simpl; [constructor|].
  destruct (isColumnDeclaration e); simpl; [|apply IH].
  constructor; [apply IH|].
  eapply Forall_impl; [apply declarationPositions_ge|]. simpl. lia.
Qed.

Lemma declarationPositions_none others colidx :
  forallb (fun e => negb (isColumnDeclaration e)) others = true ->
  declarationPositions colidx others = [].
Proof.
  revert colidx. induction others as [|e others IH]; intros colidx; [reflexivity|].
  simpl. intros H. apply andb_true_iff in H as [He Hrest].
  destruct (isColumnDeclaration e); [discriminate|]. simpl. apply IH, Hrest.
Qed.

Lemma declarationPositions_contiguous cols others colidx :
  forallb isColumnDeclaration cols = true ->
  forallb (fun e => negb (isColumnDeclaration e)) others = true ->
  declarationPositions colidx (cols ++ others) = seq colidx (length cols).
Proof.
  intros Hcols Hothers. revert colidx Hcols.
  induction cols as [|e cols IH]; intros colidx Hcols; simpl.
  - apply declarationPositions_none, Hothers.
  - simpl in Hcols. apply andb_true_iff in Hcols as [He Hrest].
    rewrite He. simpl. f_equal. apply IH, Hrest.
Qed.

Lemma StronglySorted_of_nat (l : list nat) :
  StronglySorted lt l -> StronglySorted Z.lt (Z.of_nat <$> l).
Proof.
  induction 1 as [|i l _ IH Hall]; simpl; constructor; [exact IH|].
  apply Forall_fmap. eapply Forall_impl; [exact Hall|]. simpl. lia.
Qed.

(** C1, the claim as it is written, fails: the column declared after a
    foreign key has index 1 and is the only column. *)
Lemma column_indices_counterexample :
  ~ (forall Func Args Kws s',
       Schema.ExtractSchema Func Args Kws Schema.NewEmptySchema = (s', Ok tt) ->
       indices s' = Z.of_nat <$> seq 0 (length (Schema.Columns s'))).
Proof.
  intros H.
  specialize (H (Name "schema") foreign_key_first []
                (Schema.ExtractSchema (Name "schema") foreign_key_first []
                   Schema.NewEmptySchema).1 eq_refl).
  vm_compute in H. discriminate H.
Qed.

(** C1, amended.  For every schema that [ExtractSchema] extracts, the
    indices of its columns are, in the order of declaration, the zero-based
    positions that the declarations of these columns have in the declared
    list, where foreign keys and skipped entries count: each index is set
    once, at creation, and the indices increase strictly.  They are
    exactly 0..n-1 when no foreign key and no skipped entry comes before a
    column declaration. *)
Theorem column_indices_are_positions Func Args Kws s' :
  Schema.ExtractSchema Func Args Kws Schema.NewEmptySchema = (s', Ok tt) ->
  exists elts,
    (Args !! 0%nat = Some (List elts) \/ Args !! 1%nat = Some (List elts)) /\
    indices s' = Z.of_nat <$> declarationPositions 0 elts /\
    StronglySorted Z.lt (indices s') /\
    (forall cols others,
       elts = cols ++ others ->
       forallb isColumnDeclaration cols = true ->
       forallb (fun e => negb (isColumnDeclaration e)) others = true ->
       indices s' = Z.of_nat <$> seq 0 (length (Schema.Columns s'))).
Proof.
  intros Hrun.
  apply ExtractSchema_column_list in Hrun
    as (callerFuncName & s0 & elts & _ & Harg & Hs0 & Hloop).
  apply extractColumns_indices in Hloop. rewrite Hs0 in Hloop. simpl in Hloop.
  exists elts. split; [|split; [|split]].
  - destruct (decide (callerFuncName = "extended_schema")); auto.
  - exact Hloop.
  - rewrite Hloop. apply StronglySorted_of_nat, declarationPositions_sorted.
  - intros cols others -> Hcols Hothers.
    rewrite (declarationPositions_contiguous _ _ _ Hcols Hothers) in Hloop.
    assert (Hlen : length (Schema.Columns s') = length cols).
    { apply (f_equal length) in Hloop. unfold indices in Hloop.
      rewrite !length_fmap, length_seq in Hloop. exact Hloop. }
    rewrite Hlen. exact Hloop.
Qed.

Lemma column_indices_are_positions_witness :
  indices (Schema.ExtractSchema (Name "schema") foreign_key_first []
             Schema.NewEmptySchema).1 = [1%Z].
Proof.
  destruct (column_indices_are_positions (Name "schema") foreign_key_first []
              (Schema.ExtractSchema (Name "schema") foreign_key_first []
                 Schema.NewEmptySchema).1 eq_refl)
    as (elts & [Harg|Harg] & Hidx & _); [|discriminate Harg].
  injection Harg as <-. exact Hidx.
Defined.

(** ** Directory ingestion *)


Lemma Walk_eq {S} (Visit : Ast -> M S bool) ast :
  Walk Visit ast
  = (descend ← Visit ast;
     if negb descend then mret tt
     else
       match ast with
       | Call Func Args Keywords =>
           Walk Visit Func;; walkExprs Visit Args;; walkKeywords Visit Keywords
       | List Elts => walkExprs Visit Elts
       | Lambda Body => Walk Visit Body
       | BoolOp _ Values => walkExprs Visit Values
       | Attribute Value _ => Walk Visit Value
       | Name _ | Str _ | Num _ | NameConstant _ => mret tt
       end).
Proof. destruct ast; reflexivity. Qed.













(** *** The record keeper, file by file *)

Lemma record_Namespaces p src :
  Parser.record p src
  = match CanonicalPlatforms !! namespaceOf src with
    | None => None
    | Some description =>
        let ns := default (Namespace.NewNamespace (namespaceOf src) description)
                    (Parser.Namespaces p !! namespaceOf src) in
        let tbl := Table.set_NamespaceID (namespaceOf src) (Parser.Table src) in
        Some (Parser.set_Namespaces
                (<[namespaceOf src :=
                     Namespace.set_Tables
                       (<[Table.Name (Parser.Table src) := tbl]> (Namespace.Tables ns)) ns]>
                   (Parser.Namespaces p)) p)
    end.
Proof.
  unfold Parser.record, namespaceOf.
  destruct (CanonicalPlatforms !! _); [|reflexivity].
  destruct (Parser.Namespaces p !! _); reflexivity.
Qed.

Lemma recordAll_exits srcs p :
  Parser.recordAll p srcs = None <->
  Exists stray srcs.
Proof.
  revert p. induction srcs as [|src srcs IH]; intros p; simpl.
  - split; [discriminate|]. intros H. apply Exists_nil in H. contradiction.
  - rewrite Exists_cons, record_Namespaces. unfold stray at 1.
    destruct (CanonicalPlatforms !! namespaceOf src) as [description|]; simpl.
    + rewrite IH. split; [auto|]. intros [H|H]; [discriminate|exact H].
    + split; auto.
Qed.

(** *** What holds in every run *)

Lemma step_control r mv c c' :
  control r c -> Parser.step mv c = Some c' -> control r c'.
Proof.
  destruct c as [p q cl ec fc w k ret pr]. unfold control, Parser.step, reported. simpl.
  intros [Hk Hw] Hstep. destruct pr; try discriminate.
  destruct mv.
  - unfold Parser.walkerStep in Hstep. simpl in Hstep.
    destruct w as [[|src rest] [[]|e|pn]| |pn|]; simpl in *;
      try destruct (Nat.ltb (length q) Parser.capacity); simplify_eq; simpl;
      destruct k; try destruct r as [[]|e'|pn']; naive_solver.
  - unfold Parser.keeperStep in Hstep. simpl in Hstep.
    destruct k as [|held|]; [| |discriminate].
    + destruct q as [|src rest].
      * destruct cl; [|discriminate]. simplify_eq. simpl.
        destruct w as [srcs r'| |pn|]; try destruct r as [[]|e'|pn']; naive_solver.
      * simplify_eq. simpl.
        destruct w as [srcs r'| |pn|]; try destruct r as [[]|e'|pn']; naive_solver.
    + destruct (Parser.record p held); simplify_eq; simpl;
        destruct w as [srcs r'| |pn|]; try destruct r as [[]|e'|pn']; naive_solver.
  - unfold Parser.receiveErr in Hstep. simpl in Hstep.
    destruct ret; [discriminate|]. destruct ec as [e|]; [|discriminate].
    simplify_eq. simpl.
    destruct k; destruct w as [srcs r'| |pn|]; try destruct r as [[]|e'|pn'];
      naive_solver.
  - unfold Parser.receiveFin in Hstep. simpl in Hstep.
    destruct ret; [discriminate|]. destruct fc; [|discriminate].
    simplify_eq. simpl.
    destruct k; destruct w as [srcs r'| |pn|]; try destruct r as [[]|e'|pn'];
      naive_solver.
Qed.

Lemma recordAll_app p srcs1 srcs2 :
  Parser.recordAll p (srcs1 ++ srcs2)
  = match Parser.recordAll p srcs1 with
    | Some p1 => Parser.recordAll p1 srcs2
    | None => None
    end.
Proof.
  revert p. induction srcs1 as [|src srcs1 IH]; intros p; [reflexivity|].
  simpl. destruct (Parser.record p src); [apply IH|reflexivity].
Qed.

Lemma step_recorded p1 srcs mv c c' :
  recorded p1 srcs c -> Parser.step mv c = Some c' -> recorded p1 srcs c'.
Proof.
  destruct c as [p q cl ec fc w k ret pr]. unfold recorded, Parser.step, todo, held.
  simpl. intros (taken & Hsrcs & Hrec & _) Hstep. destruct pr; try discriminate.
  destruct mv.
  - unfold Parser.walkerStep in Hstep. simpl in Hstep.
    destruct w as [[|src rest] [[]|e|pn]| |pn|]; simpl in *;
      try destruct (Nat.ltb (length q) Parser.capacity); try discriminate;
      injection Hstep as <-; simpl;
      exists taken; (split; [|split; [exact Hrec|discriminate]]);
      rewrite ?app_nil_r in *; try exact Hsrcs;
      rewrite <- Hsrcs, <- ?app_assoc; reflexivity.
  - unfold Parser.keeperStep in Hstep. simpl in Hstep.
    destruct k as [|src|]; [| |discriminate].
    + destruct q as [|src rest].
      * destruct cl; [|discriminate]. injection Hstep as <-. simpl.
        exists taken. split; [exact Hsrcs|]. split; [exact Hrec|discriminate].
      * injection Hstep as <-. simpl.
        exists taken. split; [exact Hsrcs|]. split; [exact Hrec|discriminate].
    + destruct (Parser.record p src) as [p'|] eqn:Hsrc; injection Hstep as <-; simpl.
      * exists (taken ++ [src]). split; [rewrite <- app_assoc; exact Hsrcs|].
        split; [|discriminate].
        rewrite recordAll_app, Hrec. simpl. rewrite Hsrc. reflexivity.
      * exists taken. split; [exact Hsrcs|]. split; [exact Hrec|]. eauto.
  - unfold Parser.receiveErr in Hstep. simpl in Hstep.
    destruct ret; [discriminate|]. destruct ec as [e|]; [|discriminate].
    injection Hstep as <-. simpl.
    exists taken. split; [exact Hsrcs|]. split; [exact Hrec|discriminate].
  - unfold Parser.receiveFin in Hstep. simpl in Hstep.
    destruct ret; [discriminate|]. destruct fc; [|discriminate].
    injection Hstep as <-. simpl.
    exists taken. split; [exact Hsrcs|]. split; [exact Hrec|discriminate].
Qed.


Lemma run_app moves1 moves2 c :
  Parser.run (moves1 ++ moves2) c
  = match Parser.run moves1 c with
    | Some c1 => Parser.run moves2 c1
    | None => None
    end.
Proof.
  revert c. induction moves1 as [|mv moves1 IH]; intros c; [reflexivity|].
  simpl. destruct (Parser.step mv c); [apply IH|reflexivity].
Qed.

Lemma run_invariant (P : Parser.config -> Prop) moves c c' :
  (forall mv c c', P c -> Parser.step mv c = Some c' -> P c') ->
  P c -> Parser.run moves c = Some c' -> P c'.
Proof.
  intros Hstep. revert c. induction moves as [|mv moves IH]; intros c Hc; simpl.
  - intros [= <-]. exact Hc.
  - destruct (Parser.step mv c) as [c1|] eqn:Hmv; [|discriminate].
    apply IH. eapply Hstep; eassumption.
Qed.




Lemma start_control p location entries :
  control (Parser.walk entries).2 (Parser.start p location entries).
Proof. unfold control, Parser.start. simpl. done. Qed.

Lemma start_recorded p location entries :
  recorded (Parser.set_BaseDir location p) (Parser.walk entries).1
    (Parser.start p location entries).
Proof. exists []. done. Qed.

Lemma ParseDirectory_control p location entries moves c :
  Parser.ParseDirectory p location entries moves = Some c ->
  control (Parser.walk entries).2 c.
Proof.
  apply run_invariant; [apply step_control|apply start_control].
Qed.

Lemma ParseDirectory_recorded p location entries moves c :
  Parser.ParseDirectory p location entries moves = Some c ->
  recorded (Parser.set_BaseDir location p) (Parser.walk entries).1 c.
Proof.
  apply run_invariant; [apply step_recorded|apply start_recorded].
Qed.

(** Where a run stands that has come to its end with the process running:
    the goroutines are over and [ParseDirectory] has returned. *)
Lemma control_over r c :
  control r c -> Parser.over c -> Parser.proc c = Parser.Running ->
  Parser.walking c = Parser.Gone /\ Parser.keeping c = Parser.Left /\
  match r with
  | Ok _ => Parser.returned c = Some None
  | Err e => Parser.returned c = Some (Some e) \/ Parser.returned c = Some None
  | Panic _ => False
  end.
Proof.
  destruct c as [p q cl ec fc w k ret pr]. unfold control, Parser.over, reported. simpl.
  intros [Hk Hw] Hover ->.
  pose proof (Hover Parser.Walker) as HW. pose proof (Hover Parser.Keeper) as HK.
  pose proof (Hover Parser.FromErrchan) as HE. pose proof (Hover Parser.FromFinchan) as HF.
  unfold Parser.step, Parser.walkerStep, Parser.keeperStep, Parser.receiveErr, Parser.receiveFin
    in HW, HK, HE, HF.
  simpl in *.
  assert (k = Parser.Left) as ->.
  { destruct k as [|src|]; [| |reflexivity].
    - destruct q as [|src rest]; [|discriminate].
      destruct cl; [discriminate|].
      destruct w as [[|src rest] [[]|e|pn]| |pn|]; try discriminate.
      naive_solver.
    - destruct (Parser.record p src); discriminate. }
  destruct Hk as (-> & -> & _ & Hfin).
  assert (w = Parser.Gone) as ->.
  { destruct w as [[|src rest] [[]|e|pn]| |pn|]; try discriminate; reflexivity. }
  split; [reflexivity|]. split; [reflexivity|].
  destruct ret as [[e'|]|].
  - destruct r as [[]|e|pn]; naive_solver.
  - destruct r as [[]|e|pn]; naive_solver.
  - destruct fc; [discriminate|]. exfalso.
    assert (H : false = true) by (apply Hfin; discriminate). discriminate H.
Qed.

Lemma control_returned r c e :
  control r c -> Parser.returned c = Some (Some e) -> r = Err e.
Proof.
  destruct c as [p q cl ec fc w k ret pr]. unfold control, reported. simpl.
  intros [_ Hw] ->.
  destruct w as [srcs r'| |pn|]; try destruct r as [[]|e'|pn']; naive_solver.
Qed.

Lemma control_crashed r c pn :
  control r c -> Parser.proc c = Parser.Crashed pn -> r = Panic pn.
Proof.
  destruct c as [p q cl ec fc w k ret pr]. unfold control, reported. simpl.
  intros [_ Hw] ->.
  destruct w as [srcs r'| |pn'|]; try destruct r as [[]|e'|pn'']; naive_solver.
Qed.

(** When the record keeper has left its loop, it has recorded every file. *)
Lemma left_recorded p1 srcs r c :
  control r c -> recorded p1 srcs c -> Parser.keeping c = Parser.Left ->
  Parser.recordAll p1 srcs = Some (Parser.parser c).
Proof.
  destruct c as [p q cl ec fc w k ret pr]. unfold control, recorded, todo, held.
  simpl. intros [Hk Hw] (taken & Hsrcs & Hrec & _) ->.
  destruct Hk as (-> & -> & _).
  destruct w as [srcs' r'| |pn|]; try naive_solver.
  all: simpl in Hsrcs; rewrite app_nil_r in Hsrcs; subst taken; exact Hrec.
Qed.

(** When nil has been returned, the record keeper has left its loop. *)
Lemma returned_nil_recorded p1 srcs r c :
  control r c -> recorded p1 srcs c -> Parser.returned c = Some None ->
  Parser.recordAll p1 srcs = Some (Parser.parser c).
Proof.
  intros Hc Hrec Hnil. apply (left_recorded _ _ _ _ Hc Hrec).
  destruct c as [p q cl ec fc w k ret pr]. unfold control in Hc. simpl in *.
  destruct k; naive_solver.
Qed.

Lemma over_recorded p1 srcs r c :
  control r c -> recorded p1 srcs c -> Parser.over c -> Parser.proc c = Parser.Running ->
  Parser.recordAll p1 srcs = Some (Parser.parser c).
Proof.
  intros Hc Hrec Hover Hpr. apply (left_recorded _ _ _ _ Hc Hrec).
  apply (control_over _ _ Hc Hover Hpr).
Qed.

Lemma recorded_exited p1 srcs c :
  recorded p1 srcs c -> Parser.proc c = Parser.Exited -> Exists stray srcs.
Proof.
  intros (taken & Hsrcs & _ & Hex) Hpr.
  destruct (Hex Hpr) as (src & Hk & Hsrc).
  apply Exists_exists. exists src. split.
  - rewrite <- Hsrcs. unfold held. rewrite Hk. set_solver.
  - unfold stray. rewrite record_Namespaces in Hsrc.
    destruct (CanonicalPlatforms !! namespaceOf src); [discriminate|reflexivity].
Qed.

(** *** Schedules *)

Lemma run_inTurn srcs rest r : forall p p',
  Parser.recordAll p srcs = Some p' ->
  Parser.run (inTurn srcs) (walkingFrom p (srcs ++ rest) r)
  = Some (walkingFrom p' rest r).
Proof.
  induction srcs as [|src srcs IH]; intros p p'; simpl.
  - intros [= <-]. reflexivity.
  - destruct (Parser.record p src) as [p1|] eqn:Hsrc; [|discriminate].
    intros Hrest. unfold Parser.step, Parser.walkerStep, Parser.keeperStep. simpl.
    rewrite Hsrc. apply IH, Hrest.
Qed.

Lemma run_all_inTurn srcs r p p' :
  Parser.recordAll p srcs = Some p' ->
  Parser.run (inTurn srcs) (walkingFrom p srcs r) = Some (walkingFrom p' [] r).
Proof.
  intros Hrec. rewrite <- (app_nil_r srcs) at 2. apply run_inTurn, Hrec.
Qed.

Lemma run_returns_nil srcs p p' :
  Parser.recordAll p srcs = Some p' ->
  Parser.run (inTurn srcs ++ [Parser.Walker; Parser.Keeper; Parser.FromFinchan])
    (walkingFrom p srcs (Ok tt))
  = Some (Parser.mkConfig p' [] true None false Parser.Gone Parser.Left (Some None) Parser.Running).
Proof.
  intros Hrec. rewrite run_app, (run_all_inTurn _ _ _ _ Hrec). reflexivity.
Qed.




Lemma run_exits good src rest r p p' :
  Parser.recordAll p good = Some p' -> Parser.record p' src = None ->
  Parser.run (inTurn good ++ [Parser.Walker; Parser.Keeper; Parser.Keeper])
    (walkingFrom p (good ++ src :: rest) r)
  = Some (Parser.mkConfig p' [] false None false (Parser.Walking rest r) (Parser.Recording src)
            None Parser.Exited).
Proof.
  intros Hrec Hsrc. rewrite run_app, (run_inTurn _ _ _ _ _ Hrec). simpl.
  unfold Parser.step, Parser.walkerStep, Parser.keeperStep. simpl. rewrite Hsrc.
  reflexivity.
Qed.




Lemma recordAll_stray srcs : forall p,
  Exists stray srcs ->
  exists good src rest p',
    srcs = good ++ src :: rest /\ Parser.recordAll p good = Some p' /\
    Parser.record p' src = None.
Proof.
  induction srcs as [|src srcs IH]; intros p Hex.
  - apply Exists_nil in Hex. contradiction.
  - destruct (Parser.record p src) as [p1|] eqn:Hsrc.
    + apply Exists_cons in Hex as [Hsrc'|Hex].
      * rewrite record_Namespaces in Hsrc. unfold stray in Hsrc'.
        rewrite Hsrc' in Hsrc. discriminate.
      * destruct (IH p1 Hex) as (good & src' & rest & p' & -> & Hrec & Hsrc').
        exists (src :: good), src', rest, p'. simpl. rewrite Hsrc. done.
    + exists [], src, srcs, p. done.
Qed.

Lemma start_walkingFrom p location entries :
  Parser.start p location entries
  = walkingFrom (Parser.set_BaseDir location p) (Parser.walk entries).1
      (Parser.walk entries).2.
Proof. reflexivity. Qed.

(** *** Failures *)











(** ** Rehydration *)

Import Mem.

Lemma updateSchema_Ok l f m o :
  schemas m !! l = Some o ->
  updateSchema l f m = (set_schemas (<[l := f o]> (schemas m)) m, Ok tt).
Proof. intros H. unfold updateSchema. rewrite H. reflexivity. Qed.

Lemma updateTable_Ok l f m o :
  tables m !! l = Some o ->
  updateTable l f m = (set_tables (<[l := f o]> (tables m)) m, Ok tt).
Proof. intros H. unfold updateTable. rewrite H. reflexivity. Qed.

Lemma updateNamespace_Ok l f m o :
  namespaces m !! l = Some o ->
  updateNamespace l f m = (set_namespaces (<[l := f o]> (namespaces m)) m, Ok tt).
Proof. intros H. unfold updateNamespace. rewrite H. reflexivity. Qed.

Lemma bind_Ok_intro {S A B} (c : M S A) (k : A -> M S B) s s1 a :
  c s = (s1, Ok a) -> (c ≫= k) s = k a s1.
Proof. intros H. unfold mbind, M_bind, bind. rewrite H. reflexivity. Qed.

(** The loop that sets the back pointer of the schemas of one table. *)
Lemma injectSchemas_spec table sls m :
  Forall (fun sl => is_Some (schemas m !! sl)) sls ->
  exists m',
    forM_ sls (injectSchema table) m = (m', Ok tt) /\
    namespaces m' = namespaces m /\ tables m' = tables m /\
    Namespaces m' = Namespaces m /\
    forall l, schemas m' !! l
              = if decide (l ∈ sls) then set_s_Table (Some table) <$> schemas m !! l
                else schemas m !! l.
Proof.
  revert m. induction sls as [|sl sls IH]; intros m Hall.
  - exists m. do 4 (split; [reflexivity|]). intros l.
    destruct (decide (l ∈ [])) as [Hin|_]; [|reflexivity].
    apply elem_of_nil in Hin. contradiction.
  - apply Forall_cons in Hall as [[o Ho] Hall].
    pose (m1 := set_schemas (<[sl := set_s_Table (Some table) o]> (schemas m)) m).
    destruct (IH m1) as (m' & Hrun & Hns & Htb & Hp & Hsch).
    { eapply Forall_impl; [exact Hall|]. intros l [o' Ho']. simpl.
      destruct (decide (sl = l)) as [->|Hne].
      - rewrite lookup_insert_eq. eauto.
      - rewrite lookup_insert_ne by exact Hne. eauto. }
    exists m'. split; [|split; [|split; [|split]]]; try assumption.
    + cbn [forM_]. rewrite (bind_Ok_intro _ _ m m1 tt); [exact Hrun|].
      apply updateSchema_Ok, Ho.
    + intros l. rewrite Hsch. simpl.
      destruct (decide (l ∈ sls)) as [Hin|Hnin];
        destruct (decide (l ∈ sl :: sls)) as [Hin'|Hnin'].
      * destruct (decide (sl = l)) as [->|Hne].
        -- rewrite lookup_insert_eq, Ho. reflexivity.
        -- rewrite lookup_insert_ne by exact Hne. reflexivity.
      * exfalso. apply Hnin'. right. exact Hin.
      * apply elem_of_cons in Hin' as [->|Hin']; [|contradiction].
        rewrite lookup_insert_eq, Ho. reflexivity.
      * rewrite lookup_insert_ne; [reflexivity|].
        intros ->. apply Hnin'. left.
Qed.

Lemma forM__app {A} (xs ys : list A) (body : A -> M Mem.t unit) m :
  forM_ (xs ++ ys) body m
  = (forM_ xs body;; forM_ ys body) m.
Proof.
  revert m. induction xs as [|x xs IH]; intros m; simpl.
  - unfold mbind, M_bind, bind. simpl. reflexivity.
  - unfold mbind, M_bind, bind in *.
    destruct (body x m) as [m1 [[]| |]]; try reflexivity. apply IH.
Qed.

Lemma forM__fmap {A B} (g : A -> B) (xs : list A) (body : B -> M Mem.t unit)
    (body' : A -> M Mem.t unit) m :
  (forall x, body' x = body (g x)) ->
  forM_ xs body' m = forM_ (g <$> xs) body m.
Proof.
  intros Hext. revert m. induction xs as [|x xs IH]; intros m; simpl; [reflexivity|].
  unfold mbind, M_bind, bind. rewrite Hext.
  destruct (body (g x) m) as [m1 [[]| |]]; try reflexivity. apply IH.
Qed.

Lemma injected_structure nsid ns o :
  t_Schema (injected nsid ns o) = t_Schema o /\
  t_ExtendedSchemas (injected nsid ns o) = t_ExtendedSchemas o /\
  t_Namespace (injected nsid ns o) = Some ns.
Proof. unfold injected. case_decide; done. Qed.

Lemma injectTable_spec nsid ns table m o :
  tables m !! table = Some o ->
  Forall (fun sl => is_Some (schemas m !! sl)) (schemasOf m table) ->
  exists m',
    injectTable nsid ns table m = (m', Ok tt) /\
    namespaces m' = namespaces m /\ Namespaces m' = Namespaces m /\
    tables m' = <[table := injected nsid ns o]> (tables m) /\
    forall l, schemas m' !! l
              = if decide (l ∈ schemasOf m table)
                then set_s_Table (Some table) <$> schemas m !! l
                else schemas m !! l.
Proof.
  intros Ho Hall.
  pose (m2 := set_tables (<[table := injected nsid ns o]> (tables m)) m).
  destruct (injectSchemas_spec table (schemasOf m table) m2 Hall)
    as (m' & Hrun & Hns & Htb & Hp & Hsch).
  exists m'. split; [|split; [|split; [|split]]]; try assumption.
  unfold injectTable.
  rewrite (bind_Ok_intro _ _ m _ tt (updateTable_Ok _ _ _ _ Ho)).
  rewrite (bind_Ok_intro _ _ _ m2 tt).
  2:{ unfold updateTable. simpl. rewrite lookup_insert_eq, insert_insert_eq.
      reflexivity. }
  rewrite (bind_Ok_intro _ _ m2 m2 (injected nsid ns o)).
  2:{ unfold readTable. simpl. rewrite lookup_insert_eq. reflexivity. }
  destruct (injected_structure nsid ns o) as (Hs & He & _). rewrite Hs, He.
  rewrite <- Hrun. unfold schemasOf. rewrite Ho.
  rewrite forM__app. unfold range.
  unfold mbind, M_bind, bind.
  destruct (t_Schema o) as [s|]; simpl.
  - unfold mbind, M_bind, bind.
    destruct (injectSchema table s m2) as [m3 [[]| |]]; try reflexivity.
    apply forM__fmap. intros [esname es]. reflexivity.
  - apply forM__fmap. intros [esname es]. reflexivity.
Qed.

Lemma schemasOf_links m m' :
  (forall l, schemaLinks <$> tables m' !! l = schemaLinks <$> tables m !! l) ->
  forall table, schemasOf m' table = schemasOf m table.
Proof.
  intros Hl table. unfold schemasOf. specialize (Hl table).
  destruct (tables m' !! table) as [o'|], (tables m !! table) as [o|];
    try discriminate; [|reflexivity].
  injection Hl as Hs He. rewrite Hs, He. reflexivity.
Qed.

Lemma tablesOf_links m m' :
  (forall l, n_Tables <$> namespaces m' !! l = n_Tables <$> namespaces m !! l) ->
  forall ns, tablesOf m' ns = tablesOf m ns.
Proof.
  intros Hl ns. unfold tablesOf. specialize (Hl ns).
  destruct (namespaces m' !! ns) as [o'|], (namespaces m !! ns) as [o|];
    try discriminate; [|reflexivity].
  injection Hl as ->. reflexivity.
Qed.

Lemma schemaLinks_injected nsid ns o :
  schemaLinks (injected nsid ns o) = schemaLinks o.
Proof.
  unfold schemaLinks. destruct (injected_structure nsid ns o) as (-> & -> & _).
  reflexivity.
Qed.

(** The loop over the tables of one namespace. *)
Lemma injectTables_spec nsid ns tls m :
  Forall (tablePresent m) tls ->
  NoDup tls -> NoDup (tls ≫= schemasOf m) ->
  exists m',
    forM_ tls (injectTable nsid ns) m = (m', Ok tt) /\
    namespaces m' = namespaces m /\ Namespaces m' = Namespaces m /\
    (forall l, tables m' !! l
               = if decide (l ∈ tls) then injected nsid ns <$> tables m !! l
                 else tables m !! l) /\
    (forall l table, table ∈ tls -> l ∈ schemasOf m table ->
       schemas m' !! l = set_s_Table (Some table) <$> schemas m !! l) /\
    (forall l, l ∉ tls ≫= schemasOf m -> schemas m' !! l = schemas m !! l).
Proof.
  revert m. induction tls as [|tl0 tls IH]; intros m Hall Hnd Hnds.
  - exists m. do 3 (split; [reflexivity|]). split; [|split].
    + intros l. destruct (decide (l ∈ [])) as [Hin|_]; [|reflexivity].
      apply elem_of_nil in Hin. contradiction.
    + intros l table Hin. apply elem_of_nil in Hin. contradiction.
    + reflexivity.
  - apply Forall_cons in Hall as [[[o Ho] Hsch0] Hall].
    apply NoDup_cons in Hnd as [Hnotin Hnd].
    cbn [mbind list_bind] in Hnds. apply NoDup_app in Hnds as (Hnd0 & Hdisj & Hnds).
    destruct (injectTable_spec nsid ns tl0 m o Ho Hsch0)
      as (m1 & Hrun1 & Hns1 & Hp1 & Htb1 & Hsc1).
    assert (Hlinks : forall table, schemasOf m1 table = schemasOf m table).
    { apply schemasOf_links. intros l. rewrite Htb1.
      destruct (decide (tl0 = l)) as [<-|Hne].
      - rewrite lookup_insert_eq, Ho. simpl. rewrite schemaLinks_injected. reflexivity.
      - rewrite lookup_insert_ne by exact Hne. reflexivity. }
    assert (Hbind : tls ≫= schemasOf m1 = tls ≫= schemasOf m).
    { clear -Hlinks. induction tls as [|x tls IH]; [reflexivity|].
      cbn [mbind list_bind]. rewrite Hlinks. f_equal. exact IH. }
    destruct (IH m1) as (m' & Hrun & Hns & Hp & Htb & Hsc & Hscf).
    { eapply Forall_impl; [exact Hall|]. intros table [[o' Ho'] Hs]. split.
      - rewrite Htb1. destruct (decide (tl0 = table)) as [<-|Hne].
        + rewrite lookup_insert_eq. eauto.
        + rewrite lookup_insert_ne by exact Hne. eauto.
      - rewrite Hlinks. eapply Forall_impl; [exact Hs|]. intros l [so Hso]. simpl.
        rewrite Hsc1. case_decide; rewrite Hso; simpl; eauto. }
    { exact Hnd. }
    { rewrite Hbind. exact Hnds. }
    exists m'. split; [|split; [|split; [|split; [|split]]]].
    + cbn [forM_]. rewrite (bind_Ok_intro _ _ m m1 tt Hrun1). exact Hrun.
    + congruence.
    + congruence.
    + intros l. rewrite Htb, Htb1.
      destruct (decide (l ∈ tls)) as [Hin|Hnin];
        destruct (decide (l ∈ tl0 :: tls)) as [Hin'|Hnin'].
      * rewrite lookup_insert_ne; [reflexivity|]. intros <-. contradiction.
      * exfalso. apply Hnin'. right. exact Hin.
      * apply elem_of_cons in Hin' as [->|Hin']; [|contradiction].
        rewrite lookup_insert_eq, Ho. reflexivity.
      * rewrite lookup_insert_ne; [reflexivity|]. intros <-. apply Hnin'. left.
    + intros l table Hin Hl. apply elem_of_cons in Hin as [->|Hin].
      * rewrite Hscf.
        -- rewrite Hsc1, decide_True by exact Hl. reflexivity.
        -- rewrite Hbind. intros Hl'. exact (Hdisj l Hl Hl').
      * rewrite (Hsc l table Hin) by (rewrite Hlinks; exact Hl).
        rewrite Hsc1, decide_False; [reflexivity|].
        intros Hl0. apply (Hdisj l Hl0). apply list_elem_of_bind. eauto.
    + intros l Hl. cbn [mbind list_bind] in Hl. rewrite elem_of_app in Hl.
      rewrite Hscf by (rewrite Hbind; tauto).
      rewrite Hsc1, decide_False by tauto. reflexivity.
Qed.

Lemma injectNamespace_spec p nsid ns m no :
  namespaces m !! ns = Some no ->
  Forall (tablePresent m) (tablesOf m ns) ->
  NoDup (tablesOf m ns) -> NoDup (tablesOf m ns ≫= schemasOf m) ->
  exists m',
    injectNamespace p nsid ns m = (m', Ok tt) /\
    namespaces m' = <[ns := adopted p no]> (namespaces m) /\
    Namespaces m' = <[nsid := ns]> (Namespaces m) /\
    (forall l, tables m' !! l
               = if decide (l ∈ tablesOf m ns) then injected nsid ns <$> tables m !! l
                 else tables m !! l) /\
    (forall l table, table ∈ tablesOf m ns -> l ∈ schemasOf m table ->
       schemas m' !! l = set_s_Table (Some table) <$> schemas m !! l) /\
    (forall l, l ∉ tablesOf m ns ≫= schemasOf m -> schemas m' !! l = schemas m !! l).
Proof.
  intros Hno Hall Hnd Hnds.
  pose (m1 := set_namespaces (<[ns := adopted p no]> (namespaces m)) m).
  destruct (injectTables_spec nsid ns (tablesOf m ns) m1 Hall Hnd Hnds)
    as (m2 & Hrun & Hns & Hp & Htb & Hsc & Hscf).
  exists (set_Namespaces (<[nsid := ns]> (Namespaces m2)) m2).
  split; [|split; [|split; [|split; [|split]]]]; simpl.
  - unfold injectNamespace.
    rewrite (bind_Ok_intro _ _ m m1 tt (updateNamespace_Ok _ _ _ _ Hno)).
    rewrite (bind_Ok_intro _ _ m1 m1 (adopted p no)).
    2:{ unfold readNamespace. simpl. rewrite lookup_insert_eq. reflexivity. }
    assert (Htl : n_Tables (adopted p no) = n_Tables no)
      by (unfold adopted; destruct (n_parser no); reflexivity).
    rewrite Htl.
    assert (Hrun' : range (n_Tables no)
                      (fun '(tname, table) => injectTable nsid ns table) m1
                    = (m2, Ok tt)).
    { unfold range.
      rewrite (forM__fmap snd _ (injectTable nsid ns))
        by (intros [tname table]; reflexivity).
      rewrite <- Hrun. unfold tablesOf. rewrite Hno. reflexivity. }
    rewrite (bind_Ok_intro _ _ m1 m2 tt Hrun'). reflexivity.
  - exact Hns.
  - rewrite Hp. reflexivity.
  - exact Htb.
  - exact Hsc.
  - exact Hscf.
Qed.

Lemma fmap_is_Some_eq {A B} (f : A -> B) (x y : option A) :
  f <$> x = f <$> y -> is_Some x -> is_Some y.
Proof.
  destruct x, y; try discriminate; [eauto|]. intros _ [? Hx]. discriminate Hx.
Qed.

Lemma linksPreserved_tablesOf m m' :
  linksPreserved m m' -> forall ns, tablesOf m' ns = tablesOf m ns.
Proof. intros (Hn & _ & _). apply tablesOf_links, Hn. Qed.

Lemma linksPreserved_schemasOf m m' :
  linksPreserved m m' -> forall table, schemasOf m' table = schemasOf m table.
Proof. intros (_ & Ht & _). apply schemasOf_links, Ht. Qed.

Lemma linksPreserved_bind_schemasOf m m' tls :
  linksPreserved m m' -> tls ≫= schemasOf m' = tls ≫= schemasOf m.
Proof.
  intros Hl. induction tls as [|x tls IH]; [reflexivity|].
  rewrite !bind_cons, (linksPreserved_schemasOf _ _ Hl). f_equal. exact IH.
Qed.

Lemma linksPreserved_bind_tablesOf m m' nls :
  linksPreserved m m' -> nls ≫= tablesOf m' = nls ≫= tablesOf m.
Proof.
  intros Hl. induction nls as [|x nls IH]; [reflexivity|].
  rewrite !bind_cons, (linksPreserved_tablesOf _ _ Hl). f_equal. exact IH.
Qed.

Lemma linksPreserved_tablePresent m m' table :
  linksPreserved m m' -> tablePresent m table -> tablePresent m' table.
Proof.
  intros Hl [Ht Hs]. split.
  - destruct Hl as (_ & Hlt & _). eapply fmap_is_Some_eq; [symmetry; apply Hlt|exact Ht].
  - rewrite (linksPreserved_schemasOf _ _ Hl).
    eapply Forall_impl; [exact Hs|]. intros l Hsome. simpl in *.
    destruct Hl as (_ & _ & Hls). eapply fmap_is_Some_eq; [symmetry; apply Hls|exact Hsome].
Qed.

Lemma linksPreserved_namespacePresent m m' ns :
  linksPreserved m m' -> namespacePresent m ns -> namespacePresent m' ns.
Proof.
  intros Hl [Hn Ht]. split.
  - destruct Hl as (Hln & _ & _). eapply fmap_is_Some_eq; [symmetry; apply Hln|exact Hn].
  - rewrite (linksPreserved_tablesOf _ _ Hl).
    eapply Forall_impl; [exact Ht|]. intros table. apply linksPreserved_tablePresent, Hl.
Qed.

(** What the lemmas on the loops state of the tables and the schemas is
    enough for [linksPreserved]. *)
Lemma linksPreserved_intro m m' (f : NamespaceObj -> NamespaceObj) (nls : list loc)
    (tls : list loc) :
  (forall o, n_Tables (f o) = n_Tables o) ->
  (forall l, namespaces m' !! l
             = if decide (l ∈ nls) then f <$> namespaces m !! l else namespaces m !! l) ->
  (forall l, l ∈ tls ->
     exists nsid ns, tables m' !! l = injected nsid ns <$> tables m !! l) ->
  (forall l, l ∉ tls -> tables m' !! l = tables m !! l) ->
  (forall l table, table ∈ tls -> l ∈ schemasOf m table ->
     schemas m' !! l = set_s_Table (Some table) <$> schemas m !! l) ->
  (forall l, l ∉ tls ≫= schemasOf m -> schemas m' !! l = schemas m !! l) ->
  linksPreserved m m'.
Proof.
  intros Hf Hn Ht Htf Hs Hsf. split; [|split]; intros l.
  - rewrite Hn. case_decide; [|reflexivity].
    destruct (namespaces m !! l); simpl; [rewrite Hf|]; reflexivity.
  - destruct (decide (l ∈ tls)) as [Hin|Hnin].
    + destruct (Ht l Hin) as (nsid & ns & ->).
      destruct (tables m !! l); simpl; [rewrite schemaLinks_injected|]; reflexivity.
    + rewrite (Htf l Hnin). reflexivity.
  - destruct (decide (l ∈ tls ≫= schemasOf m)) as [Hin|Hnin].
    + apply list_elem_of_bind in Hin as (table & Hl & Htable).
      rewrite (Hs l table Htable Hl). destruct (schemas m !! l); reflexivity.
    + rewrite (Hsf l Hnin). reflexivity.
Qed.

Lemma adopted_Tables p o : n_Tables (adopted p o) = n_Tables o.
Proof. unfold adopted. destruct (n_parser o); reflexivity. Qed.

(** The loop over the namespaces. *)
Lemma injectNamespaces_spec p (nss : list (string * loc)) m :
  Forall (namespacePresent m) nss.*2 ->
  NoDup nss.*2 ->
  NoDup (nss.*2 ≫= tablesOf m) ->
  NoDup ((nss.*2 ≫= tablesOf m) ≫= schemasOf m) ->
  exists m',
    forM_ nss (fun '(nsid, ns) => injectNamespace p nsid ns) m = (m', Ok tt) /\
    (forall l, namespaces m' !! l
               = if decide (l ∈ nss.*2) then adopted p <$> namespaces m !! l
                 else namespaces m !! l) /\
    Namespaces m' = foldl (fun M x => <[x.1 := x.2]> M) (Namespaces m) nss /\
    (forall l nsid ns, (nsid, ns) ∈ nss -> l ∈ tablesOf m ns ->
       tables m' !! l = injected nsid ns <$> tables m !! l) /\
    (forall l, l ∉ nss.*2 ≫= tablesOf m -> tables m' !! l = tables m !! l) /\
    (forall l table, table ∈ nss.*2 ≫= tablesOf m -> l ∈ schemasOf m table ->
       schemas m' !! l = set_s_Table (Some table) <$> schemas m !! l) /\
    (forall l, l ∉ (nss.*2 ≫= tablesOf m) ≫= schemasOf m ->
       schemas m' !! l = schemas m !! l).
Proof.
  revert m. induction nss as [|[nsid0 ns0] nss IH]; intros m Hall Hndn Hndt Hnds.
  - exists m. split; [reflexivity|]. split; [|split; [reflexivity|]].
    + intros l. destruct (decide (l ∈ [])) as [Hin|_]; [|reflexivity].
      apply elem_of_nil in Hin. contradiction.
    + split; [|split; [reflexivity|split; [|reflexivity]]].
      * intros l nsid ns Hin. apply elem_of_nil in Hin. contradiction.
      * intros l table Hin. apply elem_of_nil in Hin. contradiction.
  - rewrite fmap_cons in *. cbn [snd] in *.
    apply Forall_cons in Hall as [[[no Hno] Hpres0] Hall].
    apply NoDup_cons in Hndn as [Hns0 Hndn].
    rewrite bind_cons in Hndt, Hnds. rewrite bind_app in Hnds.
    apply NoDup_app in Hndt as (HndT0 & HdisjT & HndT).
    apply NoDup_app in Hnds as (HndS0 & HdisjS & HndS).
    destruct (injectNamespace_spec p nsid0 ns0 m no Hno Hpres0 HndT0 HndS0)
      as (m1 & Hrun1 & Hn1 & Hp1 & Ht1 & Hs1 & Hsf1).
    assert (Hlinks : linksPreserved m m1).
    { apply (linksPreserved_intro m m1 (adopted p) [ns0] (tablesOf m ns0)).
      - apply adopted_Tables.
      - intros l. rewrite Hn1. destruct (decide (l ∈ [ns0])) as [Hin|Hnin].
        + apply list_elem_of_singleton in Hin as ->.
          rewrite lookup_insert_eq, Hno. reflexivity.
        + rewrite lookup_insert_ne; [reflexivity|].
          intros <-. apply Hnin, list_elem_of_singleton. reflexivity.
      - intros l Hl. exists nsid0, ns0.
        rewrite Ht1, decide_True by exact Hl. reflexivity.
      - intros l Hl. rewrite Ht1, decide_False by exact Hl. reflexivity.
      - exact Hs1.
      - exact Hsf1. }
    pose proof (linksPreserved_bind_tablesOf m m1 nss.*2 Hlinks) as HT.
    pose proof (linksPreserved_bind_schemasOf m m1 (nss.*2 ≫= tablesOf m) Hlinks) as HS.
    destruct (IH m1) as (m' & Hrun & Hn & Hp & Ht & Htf & Hs & Hsf).
    { eapply Forall_impl; [exact Hall|]. intros ns.
      apply linksPreserved_namespacePresent, Hlinks. }
    { exact Hndn. }
    { rewrite HT. exact HndT. }
    { rewrite HT, HS. exact HndS. }
    rewrite HT in Htf, Hs, Hsf. rewrite HS in Hsf.
    exists m'. split; [|split; [|split; [|split; [|split; [|split]]]]].
    + cbn [forM_]. rewrite (bind_Ok_intro _ _ m m1 tt Hrun1). exact Hrun.
    + intros l. rewrite Hn, Hn1.
      destruct (decide (l ∈ nss.*2)) as [Hin|Hnin];
        destruct (decide (l ∈ ns0 :: nss.*2)) as [Hin'|Hnin'].
      * rewrite lookup_insert_ne; [reflexivity|]. intros <-. contradiction.
      * exfalso. apply Hnin'. right. exact Hin.
      * apply elem_of_cons in Hin' as [->|Hin']; [|contradiction].
        rewrite lookup_insert_eq, Hno. reflexivity.
      * rewrite lookup_insert_ne; [reflexivity|]. intros <-. apply Hnin'. left.
    + rewrite Hp, Hp1. reflexivity.
    + intros l nsid ns Hin Hl. apply elem_of_cons in Hin as [[= -> ->]|Hin].
      * rewrite Htf by (intros Hl'; exact (HdisjT l Hl Hl')).
        rewrite Ht1, decide_True by exact Hl. reflexivity.
      * assert (Hl' : l ∈ nss.*2 ≫= tablesOf m).
        { apply list_elem_of_bind. exists ns. split; [exact Hl|].
          apply list_elem_of_fmap. exists (nsid, ns). split; [reflexivity|exact Hin]. }
        rewrite (Ht l nsid ns Hin)
          by (rewrite (linksPreserved_tablesOf _ _ Hlinks); exact Hl).
        rewrite Ht1, decide_False; [reflexivity|].
        intros Hl0. exact (HdisjT l Hl0 Hl').
    + intros l Hl. rewrite bind_cons, elem_of_app in Hl.
      rewrite Htf by tauto. rewrite Ht1, decide_False by tauto. reflexivity.
    + intros l table Htable Hl. rewrite bind_cons, elem_of_app in Htable.
      destruct Htable as [Htable|Htable].
      * assert (Hl0 : l ∈ tablesOf m ns0 ≫= schemasOf m)
          by (apply list_elem_of_bind; eauto).
        rewrite Hsf by (intros Hl'; exact (HdisjS l Hl0 Hl')).
        apply Hs1; assumption.
      * assert (Hl' : l ∈ (nss.*2 ≫= tablesOf m) ≫= schemasOf m)
          by (apply list_elem_of_bind; eauto).
        rewrite (Hs l table Htable)
          by (rewrite (linksPreserved_schemasOf _ _ Hlinks); exact Hl).
        rewrite Hsf1; [reflexivity|].
        intros Hl0. exact (HdisjS l Hl0 Hl').
    + intros l Hl. rewrite bind_cons, bind_app, elem_of_app in Hl.
      rewrite Hsf by tauto. rewrite Hsf1 by tauto. reflexivity.
Qed.

(** *** The wire format after the loops *)

Lemma traverse_Some {A B} (f : A -> option B) (M : gmap string A) r :
  traverse f M = Some r ->
  r = omap f M /\ forall k a, M !! k = Some a -> is_Some (f a).
Proof.
  unfold traverse. case_decide as Hall; [|discriminate].
  intros [= <-]. split; [reflexivity|]. intros k a Hk. exact (Hall k a Hk).
Qed.

Lemma traverse_keyed {A B} (f f' : A -> option B) (g : string -> B -> B)
    (M : gmap string A) :
  (forall k a, M !! k = Some a -> f' a = g k <$> f a) ->
  traverse f' M = map_imap (fun k b => Some (g k b)) <$> traverse f M.
Proof.
  intros Hext. unfold traverse.
  destruct (decide (map_Forall (fun _ v => is_Some (f v)) M)) as [Hall|Hnall].
  - rewrite decide_True.
    + simpl. f_equal. apply map_eq. intros k.
      rewrite map_lookup_imap, !lookup_omap.
      destruct (M !! k) as [a|] eqn:Hk; simpl; [|reflexivity].
      rewrite (Hext k a Hk). destruct (f a); reflexivity.
    + intros k a Hk. rewrite (Hext k a Hk). apply fmap_is_Some, (Hall k a Hk).
  - rewrite decide_False; [reflexivity|].
    intros Hall. apply Hnall. intros k a Hk.
    specialize (Hall k a Hk). simpl in Hall. rewrite (Hext k a Hk) in Hall.
    apply fmap_is_Some in Hall. exact Hall.
Qed.

Lemma map_imap_const {B} (g : B -> B) (M : gmap string B) :
  map_imap (fun _ b => Some (g b)) M = g <$> M.
Proof.
  apply map_eq. intros k. rewrite map_lookup_imap, lookup_fmap.
  destruct (M !! k); reflexivity.
Qed.

Lemma traverse_ext {A B} (f f' : A -> option B) (M : gmap string A) :
  (forall k a, M !! k = Some a -> f' a = f a) ->
  traverse f' M = traverse f M.
Proof.
  intros Hext. rewrite (traverse_keyed f f' (fun _ b => b)).
  - destruct (traverse f M) as [r|]; [|reflexivity]. simpl. f_equal.
    rewrite map_imap_const. apply map_fmap_id.
  - intros k a Hk. rewrite (Hext k a Hk). destruct (f a); reflexivity.
Qed.

Lemma marshalSchema_preserved m m' :
  linksPreserved m m' -> forall l, marshalSchema m' l = marshalSchema m l.
Proof. intros (_ & _ & Hs) l. apply Hs. Qed.

Lemma marshalTable_injected m m' nsid ns table :
  linksPreserved m m' ->
  tables m' !! table = injected nsid ns <$> tables m !! table ->
  marshalTable m' table = fillNamespaceID nsid <$> marshalTable m table.
Proof.
  intros Hl Ht. unfold marshalTable. rewrite Ht.
  destruct (tables m !! table) as [o|]; [|reflexivity]. simpl.
  destruct (injected_structure nsid ns o) as (Hs & He & _). rewrite Hs, He.
  rewrite (traverse_ext (marshalSchema m) (marshalSchema m'))
    by (intros; apply marshalSchema_preserved, Hl).
  assert (Hbase : match t_Schema o with
                  | Some s => Some <$> marshalSchema m' s
                  | None => Some None
                  end
                  = match t_Schema o with
                    | Some s => Some <$> marshalSchema m s
                    | None => Some None
                    end).
  { destruct (t_Schema o); [|reflexivity].
    rewrite (marshalSchema_preserved _ _ Hl). reflexivity. }
  rewrite Hbase.
  destruct (match t_Schema o with
            | Some s => Some <$> marshalSchema m s
            | None => Some None
            end) as [base|]; [|reflexivity]. simpl.
  destruct (traverse (marshalSchema m) (t_ExtendedSchemas o)) as [exts|];
    [|reflexivity]. simpl.
  unfold injected, fillNamespaceID. simpl.
  destruct (decide (t_NamespaceID o = EmptyString)); reflexivity.
Qed.

Lemma elem_of_tablesOf m ns no tname table :
  namespaces m !! ns = Some no -> n_Tables no !! tname = Some table ->
  table ∈ tablesOf m ns.
Proof.
  intros Hno Ht. unfold tablesOf. rewrite Hno.
  apply list_elem_of_fmap. exists (tname, table). split; [reflexivity|].
  apply elem_of_map_to_list, Ht.
Qed.

Lemma elem_of_schemasOf_base m table o s :
  tables m !! table = Some o -> t_Schema o = Some s -> s ∈ schemasOf m table.
Proof.
  intros Ho Hs. unfold schemasOf. rewrite Ho, Hs. apply elem_of_app. left.
  simpl. left.
Qed.

Lemma elem_of_schemasOf_extended m table o esname es :
  tables m !! table = Some o -> t_ExtendedSchemas o !! esname = Some es ->
  es ∈ schemasOf m table.
Proof.
  intros Ho Hes. unfold schemasOf. rewrite Ho. apply elem_of_app. right.
  apply list_elem_of_fmap. exists (esname, es). split; [reflexivity|].
  apply elem_of_map_to_list, Hes.
Qed.

Lemma marshalNamespace_adopted m m' p nsid ns :
  linksPreserved m m' ->
  namespaces m' !! ns = adopted p <$> namespaces m !! ns ->
  (forall table, table ∈ tablesOf m ns ->
     tables m' !! table = injected nsid ns <$> tables m !! table) ->
  marshalNamespace m' ns = fillNamespace nsid <$> marshalNamespace m ns.
Proof.
  intros Hl Hn Ht. unfold marshalNamespace. rewrite Hn.
  destruct (namespaces m !! ns) as [no|] eqn:Hno; [|reflexivity]. simpl.
  rewrite adopted_Tables.
  rewrite (traverse_keyed (marshalTable m) (marshalTable m')
             (fun _ => fillNamespaceID nsid)).
  2:{ intros tname table Htable. apply (marshalTable_injected _ _ _ ns _ Hl).
      apply Ht. eapply elem_of_tablesOf; eassumption. }
  destruct (traverse (marshalTable m) (n_Tables no)) as [tbls|]; [|reflexivity].
  simpl. rewrite map_imap_const.
  unfold fillNamespace, adopted. destruct (n_parser no); reflexivity.
Qed.

(** [marshal] succeeds only when every pointer leads to an object. *)
Lemma marshalTable_present m table x :
  marshalTable m table = Some x -> tablePresent m table.
Proof.
  unfold marshalTable, tablePresent, schemasOf.
  destruct (tables m !! table) as [o|]; [|discriminate]. simpl.
  intros Hx. split; [eauto|].
  destruct (match t_Schema o with
            | Some s => Some <$> marshalSchema m s
            | None => Some None
            end) as [base|] eqn:Hbase; [|discriminate]. simpl in Hx.
  destruct (traverse (marshalSchema m) (t_ExtendedSchemas o)) as [exts|] eqn:Hexts;
    [|discriminate].
  apply traverse_Some in Hexts as [_ Hexts].
  apply Forall_app. split.
  - destruct (t_Schema o) as [s|]; [|constructor].
    repeat constructor. unfold marshalSchema in Hbase.
    destruct (schemas m !! s); [eauto|discriminate].
  - apply Forall_fmap, Forall_forall. intros [esname es] Hin.
    apply elem_of_map_to_list in Hin. specialize (Hexts _ _ Hin). simpl.
    unfold marshalSchema in Hexts. eapply fmap_is_Some. exact Hexts.
Qed.

Lemma marshalNamespace_present m ns x :
  marshalNamespace m ns = Some x -> namespacePresent m ns.
Proof.
  unfold marshalNamespace, namespacePresent, tablesOf.
  destruct (namespaces m !! ns) as [o|]; [|discriminate]. simpl.
  intros Hx. split; [eauto|].
  destruct (traverse (marshalTable m) (n_Tables o)) as [tbls|] eqn:Htbls;
    [|discriminate].
  apply traverse_Some in Htbls as [_ Htbls].
  apply Forall_fmap, Forall_forall. intros [tname table] Hin.
  apply elem_of_map_to_list in Hin. destruct (Htbls _ _ Hin) as [y Hy]. simpl.
  eapply marshalTable_present. exact Hy.
Qed.

Lemma marshal_present m raw w :
  marshal m raw = Some w -> Forall (namespacePresent m) (namespaceLocs raw).
Proof.
  intros Hw. apply traverse_Some in Hw as [_ Hw].
  apply Forall_fmap, Forall_forall. intros [nsid ns] Hin.
  apply elem_of_map_to_list in Hin. destruct (Hw _ _ Hin) as [y Hy]. simpl.
  eapply marshalNamespace_present. exact Hy.
Qed.

(** The assignments [p.Namespaces[nsid] = ns] of the loop. *)
Lemma Namespaces_registered (raw M : gmap string loc) :
  foldl (fun M x => <[x.1 := x.2]> M) M (map_to_list raw) = raw ∪ M.
Proof.
  revert M. induction raw as [|nsid ns raw Hfresh Hfirst IH] using map_first_key_ind;
    intros M.
  - rewrite map_to_list_empty. simpl. rewrite (left_id_L ∅ (∪)). reflexivity.
  - rewrite (map_to_list_insert_first_key _ _ _ Hfresh Hfirst). simpl.
    rewrite IH. apply map_eq. intros k.
    rewrite !lookup_union. destruct (decide (nsid = k)) as [->|Hne].
    + rewrite Hfresh, !lookup_insert_eq. destruct (M !! k); reflexivity.
    + rewrite !lookup_insert_ne by exact Hne. reflexivity.
Qed.

Lemma withoutNamespaceID_rehydrated w :
  withoutNamespaceID (rehydrated w) = withoutNamespaceID w.
Proof.
  apply map_eq. intros nsid. unfold withoutNamespaceID, rehydrated.
  rewrite !lookup_fmap, map_lookup_imap.
  destruct (w !! nsid) as [ns|]; [|reflexivity]. simpl. f_equal.
  unfold fillNamespace, Namespace.set_Tables. simpl. f_equal.
  rewrite <- map_fmap_compose. apply map_fmap_ext. intros tname x _. simpl.
  unfold fillNamespaceID. case_decide; reflexivity.
Qed.

(** C4.  Round trip.  Let [w] be the export of a model, and let [raw] and
    the objects of [m] be what [Unmarshal] builds from it: one new object
    for every pointer, the fields that are not on the wire nil.  Then
    [InjectTables] succeeds and stores the namespaces in the parser; the
    export of the result is [w] again, but for an empty [namespace_id] of a
    table, which is set to the key of its namespace, so that names, aliases,
    descriptions, columns, attributes and platforms are those of the
    original; and the back pointers are derived anew: each namespace points
    to the parser, each table to its namespace, each schema and extended
    schema to its table. *)
Theorem InjectTables_round_trip p m0 w raw m :
  marshal m0 (Namespaces m0) = Some w ->
  unmarshalled w raw m ->
  exists m' w',
    InjectTables p raw m = (m', Ok tt) /\
    Namespaces m' = raw ∪ Namespaces m /\
    marshal m' raw = Some w' /\
    w' = rehydrated w /\
    withoutNamespaceID w' = withoutNamespaceID w /\
    backReferences p m' raw.
Proof.
  intros _ (Hw & (Hndn & Hndt & Hnds) & Hpu).
  pose proof (marshal_present m raw w Hw) as Hpres.
  destruct (injectNamespaces_spec p (map_to_list raw) m Hpres Hndn Hndt Hnds)
    as (m' & Hrun & Hn & Hp & Ht & Htf & Hs & Hsf).
  fold (namespaceLocs raw) in Hn, Htf, Hs, Hsf.
  fold (tableLocs m raw) in Htf, Hs, Hsf.
  assert (Howner : forall table, table ∈ tableLocs m raw ->
            exists nsid ns, raw !! nsid = Some ns /\ table ∈ tablesOf m ns).
  { intros table Htable. apply list_elem_of_bind in Htable as (ns & Htable & Hns).
    apply list_elem_of_fmap in Hns as ([nsid ns'] & -> & Hin).
    apply elem_of_map_to_list in Hin. eauto. }
  assert (Hlocs : forall nsid ns, raw !! nsid = Some ns -> ns ∈ namespaceLocs raw).
  { intros nsid ns Hraw. apply list_elem_of_fmap. exists (nsid, ns).
    split; [reflexivity|]. apply elem_of_map_to_list, Hraw. }
  assert (Hlinks : linksPreserved m m').
  { apply (linksPreserved_intro m m' (adopted p) (namespaceLocs raw) (tableLocs m raw)).
    - apply adopted_Tables.
    - exact Hn.
    - intros l Hl. destruct (Howner l Hl) as (nsid & ns & Hraw & Hin).
      exists nsid, ns. apply Ht; [|exact Hin]. apply elem_of_map_to_list, Hraw.
    - exact Htf.
    - exact Hs.
    - exact Hsf. }
  exists m', (rehydrated w). split; [exact Hrun|]. split; [|split; [|split; [|split]]].
  - rewrite Hp. apply Namespaces_registered.
  - unfold marshal.
    rewrite (traverse_keyed (marshalNamespace m) (marshalNamespace m') fillNamespace).
    + fold (marshal m raw). rewrite Hw. reflexivity.
    + intros nsid ns Hraw. apply (marshalNamespace_adopted m m' p nsid ns Hlinks).
      * rewrite Hn, decide_True by (eapply Hlocs; exact Hraw). reflexivity.
      * intros table Htable. apply Ht; [|exact Htable].
        apply elem_of_map_to_list, Hraw.
  - reflexivity.
  - apply withoutNamespaceID_rehydrated.
  - intros nsid ns Hraw.
    pose proof (Hlocs nsid ns Hraw) as Hns.
    pose proof (proj1 (Forall_forall _ _) Hpu ns Hns) as Hunset.
    pose proof (proj1 (Forall_forall _ _) Hpres ns Hns) as [[no Hno] Htables].
    cbv beta in Hunset. rewrite Hno in Hunset. injection Hunset as Hunset.
    exists (adopted p no). split; [|split].
    + rewrite Hn, decide_True by exact Hns. rewrite Hno. reflexivity.
    + unfold adopted. rewrite Hunset. reflexivity.
    + rewrite adopted_Tables. intros tname table Htable.
      pose proof (elem_of_tablesOf m ns no tname table Hno Htable) as Hin.
      pose proof (proj1 (Forall_forall _ _) Htables table Hin) as [[to Hto] Hschemas].
      assert (Hloc : table ∈ tableLocs m raw).
      { apply list_elem_of_bind. exists ns. split; [exact Hin|exact Hns]. }
      destruct (injected_structure nsid ns to) as (Hbase & Hext & Hback).
      exists (injected nsid ns to). split; [|split; [|split]].
      * rewrite (Ht table nsid ns) by (try apply elem_of_map_to_list; assumption).
        rewrite Hto. reflexivity.
      * exact Hback.
      * rewrite Hbase. intros s Hbs.
        pose proof (elem_of_schemasOf_base m table to s Hto Hbs) as Hsin.
        destruct (proj1 (Forall_forall _ _) Hschemas s Hsin) as [so Hso].
        exists (set_s_Table (Some table) so). split; [|reflexivity].
        rewrite (Hs s table Hloc Hsin), Hso. reflexivity.
      * rewrite Hext. intros esname es Hes.
        pose proof (elem_of_schemasOf_extended m table to esname es Hto Hes) as Hsin.
        destruct (proj1 (Forall_forall _ _) Hschemas es Hsin) as [so Hso].
        exists (set_s_Table (Some table) so). split; [|reflexivity].
        rewrite (Hs es table Hloc Hsin), Hso. reflexivity.
Qed.

Lemma InjectTables_round_trip_witness :
  exists m',
    InjectTables 5%positive groups_raw groups_unmarshalled = (m', Ok tt) /\
    marshal m' (Namespaces m') = Some groups_wire /\
    backReferences 5%positive m' groups_raw.
Proof.
  destruct (InjectTables_round_trip 5%positive groups_original groups_wire
              groups_raw groups_unmarshalled)
    as (m' & w' & Hrun & Hp & Hw & -> & _ & Hback).
  - vm_compute. reflexivity.
  - split; [vm_compute; reflexivity|]. split.
    + split; [|split]; compute_done.
    + compute_done.
  - exists m'. split; [exact Hrun|]. split; [|exact Hback].
    rewrite Hp. change (Namespaces groups_unmarshalled) with (∅ : gmap string loc).
    rewrite (right_id_L ∅ (∪)). rewrite Hw. reflexivity.
Defined.

(** * Further properties of the extractor *)

(** ** Keyword arguments *)

Lemma setOption_lookup m kw k :
  setOption m kw !! k
  = if decide (kw.1 = k) then
      match optionValue kw.2 with
      | Some v => Some v
      | None => m !! k
      end
    else m !! k.
Proof.
  unfold setOption. destruct kw as [key v]. simpl.
  destruct (decide (key = k)) as [->|Hne].
  - destruct v; simpl; rewrite ?lookup_insert_eq; reflexivity.
  - destruct v; simpl; rewrite ?lookup_insert_ne by exact Hne; reflexivity.
Qed.

Lemma setOptions_lookup kws m k :
  setOptions m kws !! k
  = match lastOption k kws with
    | Some v => Some v
    | None => m !! k
    end.
Proof.
  unfold setOptions. revert m. induction kws as [|kw kws IH]; intros m; simpl.
  - reflexivity.
  - rewrite IH. destruct (lastOption k kws); [reflexivity|].
    rewrite setOption_lookup. case_decide; [|reflexivity].
    destruct (optionValue kw.2); reflexivity.
Qed.

(** X1.  [ExtractAttributes] never fails and changes the attributes only.
    Afterwards a key holds the value of the last keyword argument of that
    name whose value is a named constant, a string or an identifier; the
    keyword arguments of another kind are passed over, and a key that no
    such keyword names keeps what it held. *)
Theorem ExtractAttributes_last_wins x kws :
  exists attrs,
    Table.ExtractAttributes kws x = (Table.set_Attributes attrs x, Ok tt) /\
    forall k, attrs !! k
              = match lastOption k kws with
                | Some v => Some v
                | None => Table.Attributes x !! k
                end.
Proof.
  exists (setOptions (Table.Attributes x) kws). split; [reflexivity|].
  intros k. apply setOptions_lookup.
Qed.

(** ** Lists of strings *)

Lemma appendStrs_spec (app : string -> Table.t -> Table.t) elts elmidx x :
  Table.appendStrs app elmidx elts x
  = (foldl (fun x s => app s x) x (leadingStrs elts),
     if forallb isStr elts then Ok tt
     else Err (ErrElemNotStr (elmidx + length (leadingStrs elts)))).
Proof.
  revert elmidx x. induction elts as [|e elts IH]; intros elmidx x.
  - reflexivity.
  - destruct e; simpl;
      try (rewrite Nat.add_0_r; reflexivity).
    unfold mbind, M_bind, bind. simpl. rewrite IH.
    rewrite Nat.add_succ_r. reflexivity.
Qed.

Lemma foldl_FuzzPaths strs x :
  foldl (fun x s => Table.set_FuzzPaths (Table.FuzzPaths x ++ [s]) x) x strs
  = Table.set_FuzzPaths (Table.FuzzPaths x ++ strs) x.
Proof.
  revert x. induction strs as [|s strs IH]; intros x; simpl.
  - rewrite app_nil_r. destruct x; reflexivity.
  - rewrite IH. simpl. rewrite <- app_assoc. reflexivity.
Qed.

Lemma foldl_Examples strs x :
  foldl (fun x s => Table.set_Examples (Table.Examples x ++ [s]) x) x strs
  = Table.set_Examples (Table.Examples x ++ strs) x.
Proof.
  revert x. induction strs as [|s strs IH]; intros x; simpl.
  - rewrite app_nil_r. destruct x; reflexivity.
  - rewrite IH. simpl. rewrite <- app_assoc. reflexivity.
Qed.

(** X2.  [ExtractFuzzPaths] and [ExtractExamples] on a first argument that
    is a list: the strings at the head of the list are appended, in order,
    to [FuzzPaths] (to [Examples]) and nothing else changes; the result is
    nil when every element is a string, and otherwise the error that names
    the position of the first element that is none, the strings before it
    staying appended.  A first argument that is no list is an error that
    leaves the table as it was, and a call without arguments panics. *)
Theorem ExtractFuzzPaths_ExtractExamples x elts rest other :
  Table.ExtractFuzzPaths (List elts :: rest) x
  = (Table.set_FuzzPaths (Table.FuzzPaths x ++ leadingStrs elts) x,
     if forallb isStr elts then Ok tt
     else Err (ErrElemNotStr (length (leadingStrs elts)))) /\
  Table.ExtractExamples (List elts :: rest) x
  = (Table.set_Examples (Table.Examples x ++ leadingStrs elts) x,
     if forallb isStr elts then Ok tt
     else Err (ErrElemNotStr (length (leadingStrs elts)))) /\
  ((forall l, other <> List l) ->
   Table.ExtractFuzzPaths (other :: rest) x = (x, Err ErrArg0NotList) /\
   Table.ExtractExamples (other :: rest) x = (x, Err ErrArg0NotList)) /\
  Table.ExtractFuzzPaths [] x = (x, Panic (IndexOutOfRange 0 0)) /\
  Table.ExtractExamples [] x = (x, Panic (IndexOutOfRange 0 0)).
Proof.
  split; [|split; [|split; [|split; reflexivity]]].
  - unfold Table.ExtractFuzzPaths. simpl. unfold mbind, M_bind, bind. simpl.
    rewrite appendStrs_spec, foldl_FuzzPaths. reflexivity.
  - unfold Table.ExtractExamples. simpl. unfold mbind, M_bind, bind. simpl.
    rewrite appendStrs_spec, foldl_Examples. reflexivity.
  - intros Hother. destruct other; try (split; reflexivity).
    exfalso. eapply Hother. reflexivity.
Qed.

Lemma ExtractFuzzPaths_ExtractExamples_witness :
  Table.ExtractFuzzPaths [Num 1] uptime_no_schema
  = (uptime_no_schema, Err ErrArg0NotList).
Proof.
  apply (proj1 (proj2 (proj2 (ExtractFuzzPaths_ExtractExamples
                                uptime_no_schema [] [] (Num 1))))).
  intros l H. discriminate H.
Defined.

(** ** Names and aliases *)

Lemma foldl_extractAlias kws x :
  foldl Table.extractAlias x kws
  = Table.set_Aliases (Table.Aliases x ++ aliasesOf kws) x.
Proof.
  revert x. induction kws as [|kw kws IH]; intros x; simpl.
  - rewrite app_nil_r. destruct x; reflexivity.
  - rewrite IH. unfold Table.extractAlias.
    destruct (decide (kw.1 = "aliases")); simpl; [|reflexivity].
    destruct kw.2; simpl; try reflexivity.
    rewrite <- app_assoc. reflexivity.
Qed.

(** X3.  [ExtractNames] on a first argument that is a string sets the name
    and appends to the aliases, in order, the strings of every list given
    under the keyword [aliases]; the elements that are no strings, the
    values that are no lists and the other keywords are passed over without
    an error.  A first argument that is no string is an error that leaves
    the table as it was, and a call without arguments panics. *)
Theorem ExtractNames_aliases x name rest kws other :
  Table.ExtractNames (Str name :: rest) kws x
  = (Table.set_Aliases (Table.Aliases x ++ aliasesOf kws) (Table.set_Name name x),
     Ok tt) /\
  ((forall s, other <> Str s) ->
   Table.ExtractNames (other :: rest) kws x = (x, Err ErrArg0NotString)) /\
  Table.ExtractNames [] kws x = (x, Panic (IndexOutOfRange 0 0)).
Proof.
  split; [|split; [|reflexivity]].
  - unfold Table.ExtractNames. simpl. unfold mbind, M_bind, bind. simpl.
    unfold modify. rewrite foldl_extractAlias. reflexivity.
  - intros Hother. destruct other; try reflexivity.
    exfalso. eapply Hother. reflexivity.
Qed.

Lemma ExtractNames_aliases_witness :
  Table.ExtractNames [Name "groups"] [] uptime_no_schema
  = (uptime_no_schema, Err ErrArg0NotString).
Proof.
  apply (proj1 (proj2 (ExtractNames_aliases uptime_no_schema EmptyString []
                         [] (Name "groups")))).
  intros s H. discriminate H.
Defined.

(** ** What [ExtractSchema] builds *)

Lemma extractColumn_wellShaped colidx e s :
  wellShaped e = true ->
  Schema.extractColumn colidx e s
  = ({| Schema.Platforms := Schema.Platforms s;
        Schema.Extended := Schema.Extended s;
        Schema.Columns := Schema.Columns s ++ option_list (declaredColumn colidx e);
        Schema.ForeignKeys :=
          Schema.ForeignKeys s ++ option_list (declaredForeignKey e) |}, Ok tt).
Proof.
  destruct e as [[| id | | | | | | |] args kws| | | | | | | |]; try discriminate.
  unfold wellShaped, Schema.extractColumn, declaredColumn, declaredForeignKey.
  destruct (decide (id = "ForeignKey")) as [Hfk|Hfk].
  - intros _. simpl. destruct args as [|a0 [|a1 [|a2 args]]];
      rewrite app_nil_r; reflexivity.
  - rewrite (bool_decide_eq_false_2 _ Hfk). simpl.
    destruct args as [|a0 [|a1 [|a2 args]]]; simpl; try discriminate; intros _.
    + rewrite !app_nil_r. destruct s; reflexivity.
    + rewrite app_nil_r. unfold modify, Schema.set_Columns. simpl.
      do 4 f_equal. destruct a0, a1, a2; reflexivity.
Qed.

Lemma extractColumn_illShaped colidx e s :
  wellShaped e = false -> (Schema.extractColumn colidx e s).2 <> Ok tt.
Proof.
  destruct e as [[| id | | | | | | |] args kws| | | | | | | |]; try discriminate.
  unfold wellShaped, Schema.extractColumn.
  destruct (decide (id = "ForeignKey")) as [Hfk|Hfk].
  - rewrite (bool_decide_eq_true_2 _ Hfk). discriminate.
  - rewrite (bool_decide_eq_false_2 _ Hfk).
    destruct args as [|a0 [|a1 [|a2 args]]]; simpl; discriminate.
Qed.

Lemma extractColumns_wellShaped elts colidx s :
  forallb wellShaped elts = true ->
  Schema.extractColumns colidx elts s
  = ({| Schema.Platforms := Schema.Platforms s;
        Schema.Extended := Schema.Extended s;
        Schema.Columns := Schema.Columns s ++ declaredColumns colidx elts;
        Schema.ForeignKeys := Schema.ForeignKeys s ++ declaredForeignKeys elts |},
     Ok tt).
Proof.
  revert colidx s. induction elts as [|e elts IH]; intros colidx s Hall.
  - simpl. rewrite !app_nil_r. destruct s; reflexivity.
  - simpl in Hall. apply andb_true_iff in Hall as [He Hrest].
    simpl. unfold mbind, M_bind, bind.
    rewrite (extractColumn_wellShaped _ _ _ He), (IH _ _ Hrest). simpl.
    rewrite <- !app_assoc. reflexivity.
Qed.

Lemma extractColumns_illShaped elts colidx s :
  forallb wellShaped elts = false ->
  (Schema.extractColumns colidx elts s).2 <> Ok tt.
Proof.
  revert colidx s. induction elts as [|e elts IH]; intros colidx s Hall;
    [discriminate|].
  simpl in Hall. simpl. unfold mbind, M_bind, bind.
  destruct (wellShaped e) eqn:He.
  - rewrite (extractColumn_wellShaped _ _ _ He). apply IH, Hall.
  - pose proof (extractColumn_illShaped colidx e s He) as Hbad.
    destruct (Schema.extractColumn colidx e s) as [s1 [[]| |]]; simpl in *;
      [contradiction|discriminate|discriminate].
Qed.

(** X4.  What [schema([...])] builds.  When every element of the list is a
    call of an identifier that is a foreign key, or has no positional
    argument, or has at least three, [ExtractSchema] succeeds: it appends
    one column for each element that is no foreign key and has arguments,
    in order, with the position of the element as index, the first three
    arguments as name, type and description and the keywords as options,
    and one map for each foreign key; the platforms and the extended flag
    stay as they were.  On any other list it does not succeed. *)
Theorem ExtractSchema_builds s elts rest kws :
  (forallb wellShaped elts = true ->
   Schema.ExtractSchema (Name "schema") (List elts :: rest) kws s
   = ({| Schema.Platforms := Schema.Platforms s;
         Schema.Extended := Schema.Extended s;
         Schema.Columns := Schema.Columns s ++ declaredColumns 0 elts;
         Schema.ForeignKeys := Schema.ForeignKeys s ++ declaredForeignKeys elts |},
      Ok tt)) /\
  (forallb wellShaped elts = false ->
   (Schema.ExtractSchema (Name "schema") (List elts :: rest) kws s).2 <> Ok tt).
Proof.
  assert (Hrun : Schema.ExtractSchema (Name "schema") (List elts :: rest) kws s
                 = Schema.extractColumns 0 elts s) by reflexivity.
  rewrite Hrun. split.
  - apply extractColumns_wellShaped.
  - apply extractColumns_illShaped.
Qed.

Lemma ExtractSchema_builds_witness :
  Schema.ExtractSchema (Name "schema") foreign_key_first [] Schema.NewEmptySchema
  = ({| Schema.Platforms := []; Schema.Extended := false;
        Schema.Columns :=
          [{| Column.Index := 1; Column.Name := "pid"; Column.Type_ := "BIGINT";
              Column.Description := "Process ID"; Column.Aliases := [];
              Column.Options := ∅ |}];
        Schema.ForeignKeys :=
          [{[ "column" := SString "pid"; "table" := SString "processes" ]}] |},
     Ok tt).
Proof.
  unfold foreign_key_first.
  match goal with
  | |- Schema.ExtractSchema _ (List ?elts :: _) _ _ = _ =>
      rewrite (proj1 (ExtractSchema_builds Schema.NewEmptySchema elts [] []) eq_refl)
  end.
  vm_compute. reflexivity.
Defined.

(** ** Base and extended schemas of a table *)

(** X5.  After [Table.ExtractSchema], whatever its outcome, the table holds
    a base schema, so that a later [schema(...)] declaration is refused: it
    returns the error of the schema that is set already, which the visitor
    turns into a panic, and the table stays as it is. *)
Theorem schema_declared_twice x Func Args Kws Args2 Kws2 :
  Table.Schema (Table.ExtractSchema Func Args Kws x).1 <> None /\
  Table.ExtractSchema Func Args2 Kws2 (Table.ExtractSchema Func Args Kws x).1
  = ((Table.ExtractSchema Func Args Kws x).1, Err ErrSchemaAlreadySet) /\
  Table.VisitorBranch (Name "schema") Args2 Kws2 (Table.ExtractSchema Func Args Kws x).1
  = ((Table.ExtractSchema Func Args Kws x).1, Panic (PanicError ErrSchemaAlreadySet)).
Proof.
  assert (Hset : exists s, Table.Schema (Table.ExtractSchema Func Args Kws x).1 = Some s).
  { unfold Table.ExtractSchema. destruct (Table.Schema x) as [s|] eqn:Hs.
    - exists s. exact Hs.
    - destruct (Table.onSchema _ _) as [s r]. exists s. reflexivity. }
  destruct Hset as [s Hs]. split; [rewrite Hs; discriminate|].
  assert (Hagain : forall F A K,
             Table.ExtractSchema F A K (Table.ExtractSchema Func Args Kws x).1
             = ((Table.ExtractSchema Func Args Kws x).1, Err ErrSchemaAlreadySet)).
  { intros F A K. unfold Table.ExtractSchema at 1. rewrite Hs. reflexivity. }
  split; [apply Hagain|].
  unfold Table.VisitorBranch. simpl. unfold mbind, M_bind, bind, Table.panicOnError.
  rewrite Hagain. reflexivity.
Qed.

(** X6.  [ExtractExtendedSchema] registers all or nothing.  When the schema
    is extracted, it is stored under each of its platforms, replacing what
    these keys held, and nothing else of the table changes; when the
    extraction fails or panics, the table is left as it was. *)
Theorem ExtractExtendedSchema_registers x Func Args Kws :
  (forall x',
     Table.ExtractExtendedSchema Func Args Kws x = (x', Ok tt) ->
     exists extSchema,
       Schema.ExtractSchema Func Args Kws Schema.NewEmptySchema = (extSchema, Ok tt) /\
       x' = Table.set_ExtendedSchemas (Table.ExtendedSchemas x') x /\
       forall k, Table.ExtendedSchemas x' !! k
                 = if decide (k ∈ Schema.Platforms extSchema) then Some extSchema
                   else Table.ExtendedSchemas x !! k) /\
  (forall x' r,
     Table.ExtractExtendedSchema Func Args Kws x = (x', r) -> r <> Ok tt ->
     x' = x /\ r = (Schema.ExtractSchema Func Args Kws Schema.NewEmptySchema).2).
Proof.
  unfold Table.ExtractExtendedSchema, Table.onSchema.
  destruct (Schema.ExtractSchema Func Args Kws Schema.NewEmptySchema)
    as [extSchema [[]| |]]; split.
  - intros x' [= <-]. exists extSchema. split; [reflexivity|].
    split; [reflexivity|]. intros k. simpl. apply register_lookup.
  - intros x' r [= <- <-] Hr. contradiction.
  - intros x' Hx. discriminate Hx.
  - intros x' r [= <- <-] _. split; reflexivity.
  - intros x' Hx. discriminate Hx.
  - intros x' r [= <- <-] _. split; reflexivity.
Qed.

Lemma ExtractExtendedSchema_registers_witness :
  exists extSchema,
    Table.ExtendedSchemas
      (Table.ExtractExtendedSchema (Name "extended_schema")
         [Name "POSIX"; List []] [] groups).1 !! "linux" = Some extSchema /\
    extSchema <> groups_linux.
Proof.
  destruct (proj1 (ExtractExtendedSchema_registers groups (Name "extended_schema")
                     [Name "POSIX"; List []] [])
              (Table.ExtractExtendedSchema (Name "extended_schema")
                 [Name "POSIX"; List []] [] groups).1)
    as (extSchema & Hext & _ & Hlookup).
  - vm_compute. reflexivity.
  - exists extSchema. split.
    + rewrite Hlookup. apply decide_True.
      apply (f_equal fst) in Hext. simpl in Hext. subst extSchema. compute_done.
    + apply (f_equal fst) in Hext. simpl in Hext. subst extSchema.
      vm_compute. discriminate.
Defined.

(** ** The walk of a call *)

Lemma VisitorBranch_stops Func Args Kws x x' b :
  descends Func = false ->
  Table.VisitorBranch Func Args Kws x = (x', Ok b) -> b = false.
Proof.
  intros Hdesc. unfold Table.VisitorBranch.
  destruct Func as [| n | | | | | | |]; try (intros [= _ <-]; reflexivity).
  repeat case_decide; subst; try discriminate Hdesc;
    try (intros [= _ <-]; reflexivity);
    intros Hrun; apply bind_Ok in Hrun as (x1 & a & _ & Hret);
    injection Hret as _ <-; reflexivity.
Qed.

Lemma Walk_call_alone Func Args Kws x :
  descends Func = false ->
  Walk Table.Visit (Call Func Args Kws) x
  = match Table.VisitorBranch Func Args Kws x with
    | (x', Ok _) => (x', Ok tt)
    | (x', Err e) => (x', Err e)
    | (x', Panic p) => (x', Panic p)
    end.
Proof.
  intros Hdesc. rewrite Walk_eq. unfold mbind, M_bind, bind. simpl.
  destruct (Table.VisitorBranch Func Args Kws x) as [x' [b| |]] eqn:Hrun;
    try reflexivity.
  rewrite (VisitorBranch_stops _ _ _ _ _ _ Hdesc Hrun). reflexivity.
Qed.

(** X7.  The arguments of a call are walked only when its callee is
    [table_name], [description], [schema] or [implementation]: the walk of
    any other call is the visit of the call alone, so that no call among
    its arguments or keywords is extracted. *)
Theorem Walk_stops_at_call Func Args Kws x :
  descends Func = false ->
  Walk Table.Visit (Call Func Args Kws) x
  = match Table.VisitorBranch Func Args Kws x with
    | (x', Ok _) => (x', Ok tt)
    | (x', Err e) => (x', Err e)
    | (x', Panic p) => (x', Panic p)
    end.
Proof. apply Walk_call_alone. Qed.

Lemma Walk_stops_at_call_witness :
  Walk Table.Visit
    (Call (Name "attributes") [Call (Name "table_name") [Str "hidden"] []]
       [("cacheable", NameConstant PyTrue)]) uptime_no_schema
  = (Table.set_Attributes {[ "cacheable" := SObject PyTrue ]} uptime_no_schema, Ok tt).
Proof.
  rewrite (Walk_stops_at_call (Name "attributes")
             [Call (Name "table_name") [Str "hidden"] []]
             [("cacheable", NameConstant PyTrue)] uptime_no_schema eq_refl).
  reflexivity.
Defined.

Lemma walkExprs_columns elts x :
  forallb isColumnOrForeignKey elts = true ->
  walkExprs Table.Visit elts x = (x, Ok tt).
Proof.
  induction elts as [|e elts IH]; intros Hall; [reflexivity|].
  simpl in Hall. apply andb_true_iff in Hall as [He Hrest].
  destruct e as [[| n | | | | | | |] args kws| | | | | | | |]; try discriminate He.
  cbn [walkExprs]. unfold mbind, M_bind.
  assert (Hwalk : Walk Table.Visit (Call (Name n) args kws) x = (x, Ok tt)).
  { simpl in He. apply orb_true_iff in He as [Hn|Hn];
      apply bool_decide_eq_true in Hn; subst n;
      rewrite Walk_call_alone by reflexivity; reflexivity. }
  unfold bind. rewrite Hwalk. apply IH, Hrest.
Qed.

(** X8.  The walk of [schema([...])] whose elements are calls of [Column]
    or [ForeignKey] is the extraction of the base schema and nothing more:
    the elements are visited after it, and their visit does nothing.  An
    error of the extraction is the value of the panic. *)
Theorem Walk_schema elts x :
  forallb isColumnOrForeignKey elts = true ->
  Walk Table.Visit (Call (Name "schema") [List elts] []) x
  = match Table.ExtractSchema (Name "schema") [List elts] [] x with
    | (x', Ok _) => (x', Ok tt)
    | (x', Err e) => (x', Panic (PanicError e))
    | (x', Panic p) => (x', Panic p)
    end.
Proof.
  intros Hall. rewrite Walk_eq.
  assert (Hvisit : Table.Visit (Call (Name "schema") [List elts] []) x
                   = match Table.ExtractSchema (Name "schema") [List elts] [] x with
                     | (x', Ok _) => (x', Ok true)
                     | (x', Err e) => (x', Panic (PanicError e))
                     | (x', Panic p) => (x', Panic p)
                     end).
  { change (Table.Visit (Call (Name "schema") [List elts] []) x)
      with ((Table.panicOnError (Table.ExtractSchema (Name "schema") [List elts] []);;
             mret true) x).
    unfold mbind, M_bind, bind, Table.panicOnError.
    destruct (Table.ExtractSchema (Name "schema") [List elts] [] x) as [x' [[]| |]];
      reflexivity. }
  unfold mbind, M_bind, bind at 1. rewrite Hvisit.
  destruct (Table.ExtractSchema (Name "schema") [List elts] [] x) as [x' [[]| |]];
    try reflexivity.
  cbn [negb]. unfold bind.
  assert (Hname : Walk Table.Visit (Name "schema") x' = (x', Ok tt)) by reflexivity.
  rewrite Hname. cbn [walkExprs]. unfold mbind, M_bind, bind.
  assert (Hlist : Walk Table.Visit (List elts) x' = (x', Ok tt)).
  { rewrite Walk_eq. unfold mbind, M_bind, bind. simpl.
    apply walkExprs_columns, Hall. }
  rewrite Hlist. reflexivity.
Qed.

Lemma Walk_schema_witness :
  Walk Table.Visit
    (Call (Name "schema")
       [List [Call (Name "Column") [Str "pid"; Name "BIGINT"; Str "Process ID"] []]] [])
    groups
  = (groups, Panic (PanicError ErrSchemaAlreadySet)).
Proof.
  rewrite (Walk_schema
             [Call (Name "Column") [Str "pid"; Name "BIGINT"; Str "Process ID"] []]
             groups eq_refl).
  reflexivity.
Defined.

(** ** The record keeper *)

Lemma record_lookup p src p' nsid tname :
  Parser.record p src = Some p' ->
  lookupTable p' nsid tname
  = if decide (namespaceOf src = nsid /\ Table.Name (Parser.Table src) = tname)
    then Some (Table.set_NamespaceID nsid (Parser.Table src))
    else lookupTable p nsid tname.
Proof.
  rewrite record_Namespaces.
  destruct (CanonicalPlatforms !! namespaceOf src) as [description|]; [|discriminate].
  intros [= <-]. unfold lookupTable. simpl.
  destruct (decide (namespaceOf src = nsid)) as [<-|Hns].
  - rewrite lookup_insert_eq. simpl.
    destruct (decide (Table.Name (Parser.Table src) = tname)) as [<-|Htn].
    + rewrite lookup_insert_eq, decide_True by done. reflexivity.
    + rewrite lookup_insert_ne by exact Htn.
      rewrite decide_False by (intros [_ ?]; contradiction).
      destruct (Parser.Namespaces p !! namespaceOf src); reflexivity.
  - rewrite lookup_insert_ne by exact Hns.
    rewrite decide_False by (intros [? _]; contradiction). reflexivity.
Qed.

Lemma recordAll_lookup srcs p p' nsid tname :
  Parser.recordAll p srcs = Some p' ->
  lookupTable p' nsid tname
  = match lastRecorded nsid tname srcs with
    | Some tbl => Some tbl
    | None => lookupTable p nsid tname
    end.
Proof.
  revert p. induction srcs as [|src srcs IH]; intros p; simpl.
  - intros [= <-]. reflexivity.
  - destruct (Parser.record p src) as [p1|] eqn:Hrec; [|discriminate].
    intros Hrest. rewrite (IH _ Hrest).
    destruct (lastRecorded nsid tname srcs); [reflexivity|].
    rewrite (record_lookup _ _ _ _ _ Hrec). case_decide; reflexivity.
Qed.

Lemma lookupTable_set_BaseDir location p nsid tname :
  lookupTable (Parser.set_BaseDir location p) nsid tname = lookupTable p nsid tname.
Proof. reflexivity. Qed.

(** X9.  When [ParseDirectory] has returned nil, the record keeper has
    recorded every file that the walk has sent, and the parser holds, under
    a namespace and a table name, the table of the last of these files whose
    directory has that name and which declares that table name, with the
    namespace as its [NamespaceID]; where there is no such file, it holds
    what it held before.  The namespace is the last element of the path of
    the directory: a later file replaces an earlier one of the same table
    name when their directories are called the same, also when they are two
    directories, and files whose directories are called differently never
    replace one another. *)
Theorem ParseDirectory_last_write_wins p location entries moves c nsid tname :
  Parser.ParseDirectory p location entries moves = Some c ->
  Parser.returned c = Some None ->
  Parser.recordAll (Parser.set_BaseDir location p) (Parser.walk entries).1
  = Some (Parser.parser c) /\
  lookupTable (Parser.parser c) nsid tname
  = match lastRecorded nsid tname (Parser.walk entries).1 with
    | Some tbl => Some tbl
    | None => lookupTable p nsid tname
    end.
Proof.
  intros Hrun Hnil.
  pose proof (returned_nil_recorded _ _ _ _
                (ParseDirectory_control _ _ _ _ _ Hrun)
                (ParseDirectory_recorded _ _ _ _ _ Hrun) Hnil) as Hrec.
  split; [exact Hrec|].
  rewrite (recordAll_lookup _ _ _ nsid tname Hrec). reflexivity.
Qed.

Lemma ParseDirectory_last_write_wins_witness :
  exists c linux darwin,
    Parser.ParseDirectory Parser.NewParser ["specs"]
      [good_table; good_table_nested; good_table_darwin]
      [Parser.Walker; Parser.Walker; Parser.Keeper; Parser.Walker; Parser.Keeper; Parser.Walker;
       Parser.Keeper; Parser.Keeper; Parser.Keeper; Parser.Keeper; Parser.Keeper; Parser.FromFinchan] = Some c /\
    lookupTable (Parser.parser c) "linux" "good" = Some linux /\
    lookupTable (Parser.parser c) "darwin" "good" = Some darwin /\
    Table.Schema linux = None /\
    Table.NamespaceID linux = "linux" /\ Table.NamespaceID darwin = "darwin".
Proof.
  destruct (Parser.ParseDirectory Parser.NewParser ["specs"]
              [good_table; good_table_nested; good_table_darwin]
              [Parser.Walker; Parser.Walker; Parser.Keeper; Parser.Walker; Parser.Keeper; Parser.Walker;
               Parser.Keeper; Parser.Keeper; Parser.Keeper; Parser.Keeper; Parser.Keeper; Parser.FromFinchan]) as [c|] eqn:Hrun;
    [|vm_compute in Hrun; discriminate Hrun].
  assert (Hnil : Parser.returned c = Some None).
  { vm_compute in Hrun. injection Hrun as <-. reflexivity. }
  pose proof (proj2 (ParseDirectory_last_write_wins _ _ _ _ _ "linux" "good"
                       Hrun Hnil)) as Hl.
  pose proof (proj2 (ParseDirectory_last_write_wins _ _ _ _ _ "darwin" "good"
                       Hrun Hnil)) as Hd.
  eexists c, _, _. split; [reflexivity|].
  split; [exact Hl|]. split; [exact Hd|]. repeat split.
Defined.

Lemma record_wellKeyed p src p' :
  wellKeyed p -> Parser.record p src = Some p' -> wellKeyed p'.
Proof.
  intros Hwk. rewrite record_Namespaces.
  destruct (CanonicalPlatforms !! namespaceOf src) as [description|] eqn:Hcanon;
    [|discriminate].
  intros [= <-] nsid ns. simpl.
  destruct (decide (namespaceOf src = nsid)) as [<-|Hns].
  - rewrite lookup_insert_eq. intros [= <-]. simpl.
    destruct (Parser.Namespaces p !! namespaceOf src) as [old|] eqn:Hold; simpl.
    + destruct (Hwk _ _ Hold) as (Hkey & Hname & Htables).
      split; [exact Hkey|]. split; [exact Hname|]. intros tname tbl.
      destruct (decide (Table.Name (Parser.Table src) = tname)) as [<-|Htn].
      * rewrite lookup_insert_eq. intros [= <-]. done.
      * rewrite lookup_insert_ne by exact Htn. apply Htables.
    + split; [reflexivity|]. split; [exact Hcanon|]. intros tname tbl.
      destruct (decide (Table.Name (Parser.Table src) = tname)) as [<-|Htn].
      * rewrite lookup_insert_eq. intros [= <-]. done.
      * rewrite lookup_insert_ne by exact Htn. rewrite lookup_empty. discriminate.
  - rewrite lookup_insert_ne by exact Hns. apply Hwk.
Qed.

Lemma step_wellKeyed mv c c' :
  wellKeyed (Parser.parser c) -> Parser.step mv c = Some c' -> wellKeyed (Parser.parser c').
Proof.
  destruct c as [p q cl ec fc w k ret pr]. unfold Parser.step. simpl.
  intros Hwk Hstep. destruct pr; try discriminate.
  destruct mv.
  - unfold Parser.walkerStep in Hstep. simpl in Hstep.
    destruct w as [[|src rest] [[]|e|pn]| |pn|]; simpl in *;
      try destruct (Nat.ltb (length q) Parser.capacity); simplify_eq; exact Hwk.
  - unfold Parser.keeperStep in Hstep. simpl in Hstep.
    destruct k as [|src|]; [| |discriminate].
    + destruct q as [|src rest].
      * destruct cl; [|discriminate]. simplify_eq. exact Hwk.
      * simplify_eq. exact Hwk.
    + destruct (Parser.record p src) as [p'|] eqn:Hsrc; simplify_eq; simpl.
      * eapply record_wellKeyed; eassumption.
      * exact Hwk.
  - unfold Parser.receiveErr in Hstep. simpl in Hstep.
    destruct ret; [discriminate|]. destruct ec as [e|]; [|discriminate].
    simplify_eq. exact Hwk.
  - unfold Parser.receiveFin in Hstep. simpl in Hstep.
    destruct ret; [discriminate|]. destruct fc; [|discriminate].
    simplify_eq. exact Hwk.
Qed.

(** X10.  The record keeper keeps the keys in step: when every namespace of
    the parser is held under its own key and named after the table of
    canonical platforms, and every table is held under its own name and
    carries the key of its namespace, this is so after every turn of its
    loop in a call of [ParseDirectory], under every schedule, and so when
    the call returns.  It is so for a new parser. *)
Theorem ParseDirectory_wellKeyed p location entries moves c :
  wellKeyed p ->
  Parser.ParseDirectory p location entries moves = Some c ->
  wellKeyed (Parser.parser c).
Proof.
  intros Hwk.
  apply (run_invariant (fun c => wellKeyed (Parser.parser c))); [apply step_wellKeyed|].
  exact Hwk.
Qed.

Lemma ParseDirectory_wellKeyed_witness :
  exists c,
    Parser.ParseDirectory Parser.NewParser ["specs"] [good_table; good_table_darwin]
      [Parser.Walker; Parser.Walker; Parser.Walker; Parser.Keeper; Parser.Keeper; Parser.Keeper;
       Parser.Keeper; Parser.Keeper; Parser.FromFinchan] = Some c /\
    Parser.returned c = Some None /\ wellKeyed (Parser.parser c).
Proof.
  destruct (Parser.ParseDirectory Parser.NewParser ["specs"]
              [good_table; good_table_darwin]
              [Parser.Walker; Parser.Walker; Parser.Walker; Parser.Keeper; Parser.Keeper; Parser.Keeper;
               Parser.Keeper; Parser.Keeper; Parser.FromFinchan]) as [c|] eqn:Hrun;
    [|vm_compute in Hrun; discriminate Hrun].
  exists c. split; [reflexivity|]. split.
  - vm_compute in Hrun. injection Hrun as <-. reflexivity.
  - apply (ParseDirectory_wellKeyed Parser.NewParser ["specs"]
             [good_table; good_table_darwin]
             [Parser.Walker; Parser.Walker; Parser.Walker; Parser.Keeper; Parser.Keeper; Parser.Keeper;
              Parser.Keeper; Parser.Keeper; Parser.FromFinchan] c); [|exact Hrun].
    intros nsid ns Hns. vm_compute in Hns. discriminate Hns.
Defined.

(** X11.  The record keeper ends the process by [Fatalw] in some run of
    [ParseDirectory] exactly when one of the files that the walk sends lies
    in a directory whose name is no key of the canonical platforms.  Then
    no run returns nil, and every run that has come to its end has ended the
    process, by [Fatalw] or, when the walking goroutine panics, by its
    panic; when the walk ends without an error, [ParseDirectory] does not
    return at all. *)
Theorem ParseDirectory_exits p location entries :
  ((exists moves c,
      Parser.ParseDirectory p location entries moves = Some c /\
      Parser.proc c = Parser.Exited) <->
   Exists stray (Parser.walk entries).1) /\
  (Exists stray (Parser.walk entries).1 ->
   forall moves c,
     Parser.ParseDirectory p location entries moves = Some c ->
     Parser.returned c <> Some None /\
     (Parser.over c ->
      Parser.proc c = Parser.Exited \/
      exists pn, (Parser.walk entries).2 = Panic pn /\ Parser.proc c = Parser.Crashed pn) /\
     ((Parser.walk entries).2 = Ok tt -> Parser.returned c = None)).
Proof.
  split.
  - split.
    + intros (moves & c & Hrun & Hpr).
      eapply recorded_exited; [eapply ParseDirectory_recorded, Hrun|exact Hpr].
    + intros Hstray.
      destruct (recordAll_stray _ (Parser.set_BaseDir location p) Hstray)
        as (good & src & rest & p' & Hsrcs & Hrec & Hsrc).
      eexists _, _. unfold Parser.ParseDirectory. rewrite start_walkingFrom, Hsrcs.
      split; [apply run_exits; eassumption|reflexivity].
  - intros Hstray moves c Hrun.
    pose proof (ParseDirectory_control _ _ _ _ _ Hrun) as Hc.
    pose proof (ParseDirectory_recorded _ _ _ _ _ Hrun) as Hrec.
    apply (recordAll_exits _ (Parser.set_BaseDir location p)) in Hstray.
    split; [|split].
    + intros Hnil.
      rewrite (returned_nil_recorded _ _ _ _ Hc Hrec Hnil) in Hstray.
      discriminate Hstray.
    + intros Hover. destruct (Parser.proc c) as [|pn|] eqn:Hpr.
      * rewrite (over_recorded _ _ _ _ Hc Hrec Hover Hpr) in Hstray.
        discriminate Hstray.
      * right. exists pn. split; [|reflexivity].
        apply (control_crashed _ _ _ Hc Hpr).
      * left. reflexivity.
    + intros Hwalk. rewrite Hwalk in Hc.
      destruct (Parser.returned c) as [[e|]|] eqn:Hret; [| |reflexivity].
      * pose proof (control_returned _ _ _ Hc Hret) as H. discriminate H.
      * rewrite (returned_nil_recorded _ _ _ _
                   (ParseDirectory_control _ _ _ _ _ Hrun) Hrec Hret) in Hstray.
        discriminate Hstray.
Qed.

Lemma ParseDirectory_exits_witness :
  exists c,
    Parser.ParseDirectory Parser.NewParser ["specs"] [good_table; stray_table]
      [Parser.Walker; Parser.Walker; Parser.Walker; Parser.Keeper; Parser.Keeper; Parser.Keeper; Parser.Keeper]
    = Some c /\
    Parser.over c /\ Parser.proc c = Parser.Exited /\ Parser.returned c = None.
Proof.
  destruct (Parser.ParseDirectory Parser.NewParser ["specs"] [good_table; stray_table]
              [Parser.Walker; Parser.Walker; Parser.Walker; Parser.Keeper; Parser.Keeper; Parser.Keeper;
               Parser.Keeper])
    as [c|] eqn:Hrun; [|vm_compute in Hrun; discriminate Hrun].
  assert (Hstray : Exists stray (Parser.walk [good_table; stray_table]).1).
  { apply Exists_exists. eexists. split.
    - vm_compute. right. left.
    - reflexivity. }
  destruct (proj2 (ParseDirectory_exits Parser.NewParser ["specs"]
                     [good_table; stray_table]) Hstray _ c Hrun)
    as (_ & Hover & Hok).
  assert (Hc : Parser.over c).
  { vm_compute in Hrun. injection Hrun as <-. intros []; reflexivity. }
  exists c. split; [reflexivity|]. split; [exact Hc|]. split.
  - destruct (Hover Hc) as [H|(pn & Hpn & _)]; [exact H|].
    vm_compute in Hpn. discriminate Hpn.
  - apply Hok. reflexivity.
Defined.

(** ** Entries that are no table files *)

Lemma walk_ignored en entries :
  ignored en = true -> Parser.walk (en :: entries) = Parser.walk entries.
Proof.
  intros Hig. destruct en as [fileloc reg src|e]; [|discriminate].
  simpl in Hig. simpl. rewrite Hig. destruct (Parser.walk entries). reflexivity.
Qed.

(** X12.  The entries of the walk that are no regular files, or whose name
    does not end in [.table], count for nothing: without them
    [ParseDirectory] runs in the same way under every schedule, whatever
    they hold. *)
Theorem ParseDirectory_ignores p location entries moves :
  Parser.ParseDirectory p location (filter (fun en => ignored en = false) entries) moves
  = Parser.ParseDirectory p location entries moves.
Proof.
  unfold Parser.ParseDirectory, Parser.start.
  assert (Hwalk : Parser.walk (filter (fun en => ignored en = false) entries)
                  = Parser.walk entries).
  { induction entries as [|en entries IH]; [reflexivity|].
    destruct (ignored en) eqn:Hig.
    - rewrite filter_cons_False by (rewrite Hig; discriminate).
      rewrite walk_ignored by exact Hig. exact IH.
    - rewrite filter_cons_True by exact Hig.
      simpl. rewrite IH. reflexivity. }
  rewrite Hwalk. reflexivity.
Qed.

(** ** The schemas of the database *)

Lemma columnsToSQL_Ok tn cols scs :
  Table.columnsToSQL tn cols = Ok scs ->
  Forall (fun c => supported c) cols /\
  sql.Name <$> scs = Column.Name <$> cols /\
  Forall (fun sc => sql.Source sc = tn /\ sql.Nullable sc = true) scs.
Proof.
  revert scs. induction cols as [|c cols IH]; intros scs; simpl.
  - intros [= <-]. repeat split; constructor.
  - unfold Column.ToSQLSchema.
    destruct (Column.sqlType (Column.Type_ c)) as [prim|] eqn:Hty; [|discriminate].
    destruct (Table.columnsToSQL tn cols) as [scs'| |]; try discriminate.
    intros [= <-]. destruct (IH scs' eq_refl) as (Hsup & Hnames & Hsrc).
    split; [|split].
    + constructor; [|exact Hsup]. unfold supported. apply bool_decide_pack.
      apply list_elem_of_fmap. exists (Column.Type_ c, prim).
      split; [reflexivity|]. apply sqlType_recognized, Hty.
    + rewrite !fmap_cons. f_equal. exact Hnames.
    + constructor; [split; reflexivity|exact Hsrc].
Qed.

(** X13.  [AddTable] returns nil exactly when the database has not been
    initialized, the table has a base schema, and every column of the base
    schema and of the extended schemas registered under the given platforms
    has a recognized type.  The schema is then stored under the name of the
    table, replacing what that name held, and nothing else of the database
    changes; its columns carry the names of the table's columns, in order,
    the name of the table as source, and are nullable. *)
Theorem AddTable_succeeds tbl osexts d :
  ((virtual.AddTable tbl osexts d).2 = Ok tt <->
   virtual.initialized d = false /\
   exists base, Table.Schema tbl = Some base /\
                Forall (fun c => supported c) (columnOrder tbl base osexts)) /\
  (forall d',
     virtual.AddTable tbl osexts d = (d', Ok tt) ->
     exists base cols,
       Table.Schema tbl = Some base /\
       d' = virtual.set_schemas (<[Table.Name tbl := cols]> (virtual.schemas d)) d /\
       sql.Name <$> cols = Column.Name <$> columnOrder tbl base osexts /\
       Forall (fun sc => sql.Source sc = Table.Name tbl /\ sql.Nullable sc = true) cols).
Proof.
  unfold virtual.AddTable. destruct (virtual.initialized d) eqn:Hinit.
  { split.
    - split; [discriminate|]. intros [H _]. discriminate H.
    - intros d' H. discriminate H. }
  destruct (Table.Schema tbl) as [base|] eqn:Hbase.
  2:{ unfold Table.ToSQLSchema. rewrite Hbase. split.
      - split; [discriminate|]. intros (_ & base & H & _). discriminate H.
      - intros d' H. discriminate H. }
  rewrite (ToSQLSchema_columnOrder tbl base osexts Hbase).
  destruct (Table.columnsToSQL (Table.Name tbl) (columnOrder tbl base osexts))
    as [cols| |] eqn:Hcols.
  - destruct (columnsToSQL_Ok _ _ _ Hcols) as (Hsup & Hnames & Hsrc). split.
    + split; [|reflexivity]. intros _. split; [reflexivity|]. eauto.
    + intros d' [= <-]. exists base, cols. done.
  - split.
    + split; [discriminate|]. intros (_ & base' & [= <-] & Hsup).
      destruct (columnsToSQL_supported (Table.Name tbl) _ Hsup) as (scs & Hscs & _).
      rewrite Hscs in Hcols. discriminate Hcols.
    + intros d' H. discriminate H.
  - split.
    + split; [discriminate|]. intros (_ & base' & [= <-] & Hsup).
      destruct (columnsToSQL_supported (Table.Name tbl) _ Hsup) as (scs & Hscs & _).
      rewrite Hscs in Hcols. discriminate Hcols.
    + intros d' H. discriminate H.
Qed.

Lemma AddTable_succeeds_witness :
  exists cols,
    virtual.AddTable groups ["linux"] new_database
    = (virtual.set_schemas {[ "groups" := cols ]} new_database, Ok tt) /\
    sql.Name <$> cols = ["gid"; "groupname"; "pid_with_namespace"].
Proof.
  destruct (proj2 (AddTable_succeeds groups ["linux"] new_database)
              (virtual.AddTable groups ["linux"] new_database).1)
    as (base & cols & Hbase & Hd & Hnames & _).
  - vm_compute. reflexivity.
  - injection Hbase as <-. exists cols. split.
    + transitivity ((virtual.AddTable groups ["linux"] new_database).1, Ok tt (A := unit));
        [vm_compute; reflexivity|]. rewrite Hd. reflexivity.
    + rewrite Hnames. reflexivity.
Defined.

(** ** The outcomes of [InjectTables] *)

Lemma linksPreserved_refl m : linksPreserved m m.
Proof. repeat split. Qed.

Lemma linksPreserved_sym m m' : linksPreserved m m' -> linksPreserved m' m.
Proof. intros (Hn & Ht & Hs). repeat split; intros l; symmetry; auto. Qed.

Lemma linksPreserved_trans m1 m2 m3 :
  linksPreserved m1 m2 -> linksPreserved m2 m3 -> linksPreserved m1 m3.
Proof.
  intros (Hn & Ht & Hs) (Hn' & Ht' & Hs').
  repeat split; intros l; [rewrite Hn'|rewrite Ht'|rewrite Hs']; auto.
Qed.

Lemma benign_ret : benign (mret tt).
Proof. intros m m' r [= <- <-]. split; [apply linksPreserved_refl|auto]. Qed.

Lemma benign_bind (c k : M Mem.t unit) :
  benign c -> benign k -> benign (c;; k).
Proof.
  intros Hc Hk m m' r. unfold mbind, M_bind, bind.
  destruct (c m) as [m1 [[]| |]] eqn:Hrun; destruct (Hc _ _ _ Hrun) as [Hl Hr].
  - intros Hrun'. destruct (Hk _ _ _ Hrun') as [Hl' Hr'].
    split; [eapply linksPreserved_trans; eassumption|exact Hr'].
  - intros [= <- <-]. done.
  - intros [= <- <-]. done.
Qed.

Lemma benign_forM_ {A} (xs : list A) (body : A -> M Mem.t unit) :
  (forall x, benign (body x)) -> benign (forM_ xs body).
Proof.
  intros Hbody. induction xs as [|x xs IH]; [apply benign_ret|].
  apply benign_bind; [apply Hbody|exact IH].
Qed.

Lemma benign_updateSchema l f :
  (forall o, s_fields (f o) = s_fields o) -> benign (updateSchema l f).
Proof.
  intros Hf m m' r. unfold updateSchema.
  destruct (schemas m !! l) as [o|] eqn:Ho; intros [= <- <-].
  - split; [|auto]. repeat split. intros l'. simpl.
    destruct (decide (l = l')) as [<-|Hne].
    + rewrite lookup_insert_eq, Ho. simpl. rewrite Hf. reflexivity.
    + rewrite lookup_insert_ne by exact Hne. reflexivity.
  - split; [apply linksPreserved_refl|auto].
Qed.

Lemma benign_updateTable l f :
  (forall o, schemaLinks (f o) = schemaLinks o) -> benign (updateTable l f).
Proof.
  intros Hf m m' r. unfold updateTable.
  destruct (tables m !! l) as [o|] eqn:Ho; intros [= <- <-].
  - split; [|auto]. split; [|split]; try done. intros l'. simpl.
    destruct (decide (l = l')) as [<-|Hne].
    + rewrite lookup_insert_eq, Ho. simpl. rewrite Hf. reflexivity.
    + rewrite lookup_insert_ne by exact Hne. reflexivity.
  - split; [apply linksPreserved_refl|auto].
Qed.

Lemma benign_updateNamespace l f :
  (forall o, n_Tables (f o) = n_Tables o) -> benign (updateNamespace l f).
Proof.
  intros Hf m m' r. unfold updateNamespace.
  destruct (namespaces m !! l) as [o|] eqn:Ho; intros [= <- <-].
  - split; [|auto]. split; [|split]; try done. intros l'. simpl.
    destruct (decide (l = l')) as [<-|Hne].
    + rewrite lookup_insert_eq, Ho. simpl. rewrite Hf. reflexivity.
    + rewrite lookup_insert_ne by exact Hne. reflexivity.
  - split; [apply linksPreserved_refl|auto].
Qed.

Lemma benign_readTable l (k : TableObj -> M Mem.t unit) :
  (forall o, benign (k o)) -> benign (o ← readTable l; k o).
Proof.
  intros Hk m m' r. unfold mbind, M_bind, bind, readTable.
  destruct (tables m !! l) as [o|].
  - apply Hk.
  - intros [= <- <-]. split; [apply linksPreserved_refl|auto].
Qed.

Lemma benign_readNamespace l (k : NamespaceObj -> M Mem.t unit) :
  (forall o, benign (k o)) -> benign (o ← readNamespace l; k o).
Proof.
  intros Hk m m' r. unfold mbind, M_bind, bind, readNamespace.
  destruct (namespaces m !! l) as [o|].
  - apply Hk.
  - intros [= <- <-]. split; [apply linksPreserved_refl|auto].
Qed.

Lemma benign_injectSchema table es : benign (injectSchema table es).
Proof. apply benign_updateSchema. reflexivity. Qed.

Lemma benign_injectTable nsid ns table : benign (injectTable nsid ns table).
Proof.
  unfold injectTable.
  apply benign_bind; [apply benign_updateTable; reflexivity|].
  apply benign_bind.
  { apply benign_updateTable. intros o. case_decide; reflexivity. }
  apply benign_readTable. intros o. apply benign_bind.
  - destruct (t_Schema o); [apply benign_injectSchema|apply benign_ret].
  - apply benign_forM_. intros [esname es]. apply benign_injectSchema.
Qed.

Lemma benign_injectNamespace p nsid ns : benign (injectNamespace p nsid ns).
Proof.
  unfold injectNamespace.
  apply benign_bind.
  { apply benign_updateNamespace. intros o. destruct (n_parser o); reflexivity. }
  apply benign_readNamespace. intros o. apply benign_bind.
  - apply benign_forM_. intros [tname table]. apply benign_injectTable.
  - intros m m' r [= <- <-]. split; [|auto]. repeat split.
Qed.

Lemma benign_InjectTables p raw : benign (InjectTables p raw).
Proof.
  unfold InjectTables, range. apply benign_forM_. intros [nsid ns].
  apply benign_injectNamespace.
Qed.
Lemma forM__Ok_present {A} (P : A -> Mem.t -> Prop) (body : A -> M Mem.t unit) xs m m' :
  (forall x, benign (body x)) ->
  (forall x m m', body x m = (m', Ok tt) -> P x m) ->
  (forall x m m', linksPreserved m m' -> P x m' -> P x m) ->
  forM_ xs body m = (m', Ok tt) -> Forall (fun x => P x m) xs.
Proof.
  intros Hben Hbody Hinv. revert m. induction xs as [|x xs IH]; intros m Hrun.
  - constructor.
  - cbn [forM_] in Hrun. apply bind_Ok in Hrun as (m1 & [] & Hx & Hrest).
    constructor; [eapply Hbody; exact Hx|].
    eapply Forall_impl; [apply (IH _ Hrest)|]. intros y. simpl.
    apply Hinv. apply (Hben x _ _ _ Hx).
Qed.

Lemma linksPreserved_schemaPresent m m' l :
  linksPreserved m m' -> is_Some (schemas m' !! l) -> is_Some (schemas m !! l).
Proof. intros (_ & _ & Hs). apply fmap_is_Some_eq with (f := s_fields), Hs. Qed.

Lemma injectSchema_Ok table es m m' :
  injectSchema table es m = (m', Ok tt) -> is_Some (schemas m !! es).
Proof.
  unfold injectSchema, updateSchema. destruct (schemas m !! es); [eauto|discriminate].
Qed.

Lemma injectTable_Ok nsid ns table m m' :
  injectTable nsid ns table m = (m', Ok tt) -> tablePresent m table.
Proof.
  unfold injectTable. intros Hrun.
  apply bind_Ok in Hrun as (m1 & [] & Hup1 & Hrun).
  pose proof (proj1 (benign_updateTable table (set_t_Namespace (Some ns))
                       (fun _ => eq_refl) _ _ _ Hup1)) as Hl1.
  assert (Hsome : is_Some (tables m !! table)).
  { unfold updateTable in Hup1. destruct (tables m !! table); [eauto|discriminate]. }
  apply bind_Ok in Hrun as (m2 & [] & Hup2 & Hrun).
  assert (Hl2 : linksPreserved m1 m2).
  { refine (proj1 (benign_updateTable table _ _ _ _ _ Hup2)).
    intros o. case_decide; reflexivity. }
  apply bind_Ok in Hrun as (m2' & o & Hread & Hrun).
  assert (Ho : m2' = m2 /\ tables m2 !! table = Some o).
  { unfold readTable in Hread. destruct (tables m2 !! table); [|discriminate].
    injection Hread as -> ->. done. }
  destruct Ho as [-> Ho].
  apply bind_Ok in Hrun as (m3 & [] & Hbase & Hext).
  assert (Hl3 : linksPreserved m2 m3).
  { destruct (t_Schema o).
    - apply (benign_injectSchema _ _ _ _ _ Hbase).
    - injection Hbase as <-. apply linksPreserved_refl. }
  pose proof (linksPreserved_trans _ _ _ Hl1 Hl2) as Hl12.
  split; [exact Hsome|].
  rewrite <- (linksPreserved_schemasOf _ _ Hl12). unfold schemasOf. rewrite Ho.
  apply Forall_app. split.
  - destruct (t_Schema o) as [s|]; [|constructor]. repeat constructor.
    apply (linksPreserved_schemaPresent _ _ _ Hl12). eapply injectSchema_Ok, Hbase.
  - apply Forall_fmap.
    pose proof (forM__Ok_present
                  (fun (x : string * loc) m => is_Some (schemas m !! x.2))
                  (fun '(esname, es) => injectSchema table es)
                  (map_to_list (t_ExtendedSchemas o)) m3 m') as Hloop.
    eapply Forall_impl; [apply Hloop|].
    + intros [esname es]. apply benign_injectSchema.
    + intros [esname es] ma mb. apply injectSchema_Ok.
    + intros x ma mb. apply linksPreserved_schemaPresent.
    + exact Hext.
    + intros x. simpl.
      apply linksPreserved_schemaPresent.
      eapply linksPreserved_trans; [exact Hl12|exact Hl3].
Qed.

Lemma injectNamespace_Ok p nsid ns m m' :
  injectNamespace p nsid ns m = (m', Ok tt) -> namespacePresent m ns.
Proof.
  unfold injectNamespace. intros Hrun.
  apply bind_Ok in Hrun as (m1 & [] & Hup & Hrun).
  assert (Hl1 : linksPreserved m m1).
  { refine (proj1 (benign_updateNamespace ns _ _ _ _ _ Hup)).
    intros o. destruct (n_parser o); reflexivity. }
  assert (Hsome : is_Some (namespaces m !! ns)).
  { unfold updateNamespace in Hup. destruct (namespaces m !! ns); [eauto|discriminate]. }
  apply bind_Ok in Hrun as (m1' & o & Hread & Hrun).
  assert (Ho : m1' = m1 /\ namespaces m1 !! ns = Some o).
  { unfold readNamespace in Hread. destruct (namespaces m1 !! ns); [|discriminate].
    injection Hread as -> ->. done. }
  destruct Ho as [-> Ho].
  apply bind_Ok in Hrun as (m2 & [] & Htables & _).
  split; [exact Hsome|].
  rewrite <- (linksPreserved_tablesOf _ _ Hl1). unfold tablesOf. rewrite Ho.
  apply Forall_fmap.
  pose proof (forM__Ok_present
                (fun (x : string * loc) m => tablePresent m x.2)
                (fun '(tname, table) => injectTable nsid ns table)
                (map_to_list (n_Tables o)) m1 m2) as Hloop.
  eapply Forall_impl; [apply Hloop|].
  - intros [tname table]. apply benign_injectTable.
  - intros [tname table] ma mb. apply injectTable_Ok.
  - intros x ma mb Hl. apply linksPreserved_tablePresent, linksPreserved_sym, Hl.
  - exact Htables.
  - intros x. simpl. apply linksPreserved_tablePresent, linksPreserved_sym, Hl1.
Qed.

Lemma InjectTables_Ok p raw m m' :
  InjectTables p raw m = (m', Ok tt) ->
  Forall (namespacePresent m) (namespaceLocs raw).
Proof.
  unfold InjectTables, range, namespaceLocs. intros Hrun.
  apply Forall_fmap.
  apply (forM__Ok_present
           (fun (x : string * loc) m => namespacePresent m x.2)
           (fun '(nsid, ns) => injectNamespace p nsid ns)
           (map_to_list raw) m m').
  - intros [nsid ns]. apply benign_injectNamespace.
  - intros [nsid ns] ma mb. apply injectNamespace_Ok.
  - intros x ma mb Hl. apply linksPreserved_namespacePresent, linksPreserved_sym, Hl.
  - exact Hrun.
Qed.

Section Preserves.
Context (R : Mem.t -> Mem.t -> Prop).
Context (R_refl : forall m, R m m).
Context (R_trans : forall m1 m2 m3, R m1 m2 -> R m2 m3 -> R m1 m3).






End Preserves.
























Lemma injected_idemp nsid ns o :
  injected nsid ns (injected nsid ns o) = injected nsid ns o.
Proof.
  unfold injected. destruct o; simpl.
  repeat (case_decide; simpl in *); subst; try reflexivity; congruence.
Qed.

Lemma adopted_idemp p o : adopted p (adopted p o) = adopted p o.
Proof. unfold adopted. destruct o as [[q|] ? ? ?]; reflexivity. Qed.

Lemma Mem_eq (a b : Mem.t) :
  namespaces a = namespaces b -> tables a = tables b ->
  schemas a = schemas b -> Namespaces a = Namespaces b -> a = b.
Proof. destruct a, b; simpl; intros -> -> -> ->; reflexivity. Qed.

(** X15.  [InjectTables] is idempotent: when no object is reached twice
    and a call has returned nil, a second call on the same map returns nil
    and changes nothing, neither an object nor the namespaces of the
    parser. *)
Theorem InjectTables_idempotent p raw m m' :
  unshared m raw ->
  InjectTables p raw m = (m', Ok tt) ->
  InjectTables p raw m' = (m', Ok tt).
Proof.
  intros (Hndn & Hndt & Hnds) Hrun.
  pose proof (InjectTables_Ok _ _ _ _ Hrun) as Hpres.
  pose proof (proj1 (benign_InjectTables p raw _ _ _ Hrun)) as Hlinks.
  destruct (injectNamespaces_spec p (map_to_list raw) m Hpres Hndn Hndt Hnds)
    as (m1 & Hrun1 & Hn & Hp & Ht & Htf & Hs & Hsf).
  assert (m1 = m') as ->.
  { unfold InjectTables, range in Hrun. rewrite Hrun1 in Hrun.
    injection Hrun as ->. reflexivity. }
  pose proof (linksPreserved_bind_tablesOf m m' (map_to_list raw).*2 Hlinks) as HT.
  pose proof (linksPreserved_bind_schemasOf m m'
                ((map_to_list raw).*2 ≫= tablesOf m) Hlinks) as HS.
  destruct (injectNamespaces_spec p (map_to_list raw) m')
    as (m2 & Hrun2 & Hn2 & Hp2 & Ht2 & Htf2 & Hs2 & Hsf2).
  { eapply Forall_impl; [exact Hpres|]. intros ns.
    apply linksPreserved_namespacePresent, Hlinks. }
  { exact Hndn. }
  { rewrite HT. exact Hndt. }
  { rewrite HT, HS. exact Hnds. }
  rewrite HT in Htf2, Hs2, Hsf2. rewrite HS in Hsf2.
  unfold InjectTables, range. rewrite Hrun2. f_equal.
  apply Mem_eq.
  - apply map_eq. intros l. rewrite Hn2, Hn. case_decide; [|reflexivity].
    destruct (namespaces m !! l); simpl; [rewrite adopted_idemp|]; reflexivity.
  - apply map_eq. intros l.
    destruct (decide (l ∈ (map_to_list raw).*2 ≫= tablesOf m)) as [Hin|Hnin].
    + apply list_elem_of_bind in Hin as (ns & Hl & Hns).
      apply list_elem_of_fmap in Hns as ([nsid ns'] & -> & Hin). simpl in Hl.
      rewrite (Ht2 l nsid ns' Hin)
        by (rewrite (linksPreserved_tablesOf _ _ Hlinks); exact Hl).
      rewrite (Ht l nsid ns' Hin Hl).
      destruct (tables m !! l); simpl; [rewrite injected_idemp|]; reflexivity.
    + apply Htf2, Hnin.
  - apply map_eq. intros l.
    destruct (decide (l ∈ ((map_to_list raw).*2 ≫= tablesOf m) ≫= schemasOf m))
      as [Hin|Hnin].
    + apply list_elem_of_bind in Hin as (table & Hl & Htable).
      rewrite (Hs2 l table Htable)
        by (rewrite (linksPreserved_schemasOf _ _ Hlinks); exact Hl).
      rewrite (Hs l table Htable Hl).
      destruct (schemas m !! l); reflexivity.
    + apply Hsf2, Hnin.
  - rewrite Hp2, Namespaces_registered, Hp, Namespaces_registered.
    apply map_eq. intros k. rewrite !lookup_union.
    destruct (raw !! k), (Namespaces m !! k); reflexivity.
Qed.

Lemma InjectTables_idempotent_witness :
  InjectTables 5%positive groups_raw
    (InjectTables 5%positive groups_raw groups_unmarshalled).1
  = ((InjectTables 5%positive groups_raw groups_unmarshalled).1, Ok tt).
Proof.
  apply (InjectTables_idempotent 5%positive groups_raw groups_unmarshalled).
  - split; [|split]; compute_done.
  - vm_compute. reflexivity.
Defined.

(** X16.  What [InjectTables] leaves alone.  When no object is reached
    twice and it returns nil, a namespace whose parser is set keeps it, a
    nil one gets the parser of the call, and every object that [raw] does
    not lead to is as it was. *)
Theorem InjectTables_frame p raw m m' :
  unshared m raw ->
  InjectTables p raw m = (m', Ok tt) ->
  (forall nsid ns, raw !! nsid = Some ns ->
     exists no, namespaces m !! ns = Some no /\
                namespaces m' !! ns = Some (adopted p no) /\
                n_parser (adopted p no) = Some (default p (n_parser no))) /\
  (forall l, l ∉ namespaceLocs raw -> namespaces m' !! l = namespaces m !! l) /\
  (forall l, l ∉ tableLocs m raw -> tables m' !! l = tables m !! l) /\
  (forall l, l ∉ schemaLocs m raw -> schemas m' !! l = schemas m !! l).
Proof.
  intros (Hndn & Hndt & Hnds) Hrun.
  pose proof (InjectTables_Ok _ _ _ _ Hrun) as Hpres.
  destruct (injectNamespaces_spec p (map_to_list raw) m Hpres Hndn Hndt Hnds)
    as (m1 & Hrun1 & Hn & Hp & Ht & Htf & Hs & Hsf).
  assert (m1 = m') as ->.
  { unfold InjectTables, range in Hrun. rewrite Hrun1 in Hrun.
    injection Hrun as ->. reflexivity. }
  split; [|split; [|split]].
  - intros nsid ns Hraw.
    assert (Hns : ns ∈ namespaceLocs raw).
    { apply list_elem_of_fmap. exists (nsid, ns). split; [reflexivity|].
      apply elem_of_map_to_list, Hraw. }
    destruct (proj1 (Forall_forall _ _) Hpres ns Hns) as [[no Hno] _].
    exists no. split; [exact Hno|]. split.
    + rewrite Hn. fold (namespaceLocs raw). rewrite decide_True by exact Hns.
      rewrite Hno. reflexivity.
    + unfold adopted. destruct (n_parser no) eqn:Hparser; simpl;
        [exact Hparser|reflexivity].
  - intros l Hl. rewrite Hn. fold (namespaceLocs raw).
    rewrite decide_False by exact Hl. reflexivity.
  - exact Htf.
  - exact Hsf.
Qed.

Lemma InjectTables_frame_witness :
  exists no,
    namespaces groups_original !! 10%positive = Some no /\
    namespaces (InjectTables 5%positive (Namespaces groups_original) groups_original).1
      !! 10%positive = Some (adopted 5%positive no) /\
    n_parser (adopted 5%positive no) = Some (default 5%positive (n_parser no)).
Proof.
  refine (proj1 (InjectTables_frame 5%positive (Namespaces groups_original)
                   groups_original
                   (InjectTables 5%positive (Namespaces groups_original)
                      groups_original).1 _ _) "linux" 10%positive _).
  - split; [|split]; compute_done.
  - vm_compute. reflexivity.
  - reflexivity.
Defined.

(** ** Extended schemas by category *)

Lemma ExtractSchema_extended_category c elts rest kws s :
  Schema.ExtractSchema (Name "extended_schema") (Name c :: List elts :: rest) kws s
  = match Schema.mergeCategory c (Schema.set_Extended true s) with
    | (s1, Ok _) => Schema.extractColumns 0 elts s1
    | (s1, Err e) => (s1, Err e)
    | (s1, Panic p) => (s1, Panic p)
    end.
Proof.
  unfold Schema.ExtractSchema. simpl. unfold mbind, M_bind, bind. simpl.
  destruct (Schema.mergeCategory c (Schema.set_Extended true s)) as [s1 [[]| |]];
    reflexivity.
Qed.

Lemma ExtractSchema_extended_string c elts rest kws s :
  Schema.ExtractSchema (Name "extended_schema") (Str c :: List elts :: rest) kws s
  = match Schema.mergeCategory c (Schema.set_Extended true s) with
    | (s1, Ok _) => Schema.extractColumns 0 elts s1
    | (s1, Err e) => (s1, Err e)
    | (s1, Panic p) => (s1, Panic p)
    end.
Proof.
  unfold Schema.ExtractSchema. simpl. unfold mbind, M_bind, bind. simpl.
  destruct (Schema.mergeCategory c (Schema.set_Extended true s)) as [s1 [[]| |]];
    reflexivity.
Qed.

(** X17.  [extended_schema(C, [...])] with an identifier [C].  When [C] is
    a key of the category table and the list is well shaped, the schema is
    marked as extended, its platform set is joined with the platforms of
    [C], each listed once, and the columns and foreign keys of the list are
    appended as for a base schema.  When [C] is no key of the table, the
    result is the error that names [C]; the schema is marked as extended
    all the same.  A string in the place of the identifier does the
    same. *)
Theorem ExtractSchema_extended_by_category s c elts rest kws :
  (isCategory c = true -> forallb wellShaped elts = true ->
   exists s',
     Schema.ExtractSchema (Name "extended_schema") (Name c :: List elts :: rest) kws s
     = (s', Ok tt) /\
     Schema.Extended s' = true /\
     platformSet s' = platformSet s ∪ categoryPlatforms c /\
     NoDup (Schema.Platforms s') /\
     Schema.Columns s' = Schema.Columns s ++ declaredColumns 0 elts /\
     Schema.ForeignKeys s' = Schema.ForeignKeys s ++ declaredForeignKeys elts) /\
  (isCategory c = false ->
   Schema.ExtractSchema (Name "extended_schema") (Name c :: List elts :: rest) kws s
   = (Schema.set_Extended true s, Err (ErrNoTableCategory c))) /\
  Schema.ExtractSchema (Name "extended_schema") (Str c :: List elts :: rest) kws s
  = Schema.ExtractSchema (Name "extended_schema") (Name c :: List elts :: rest) kws s.
Proof.
  split; [|split;
    [|rewrite ExtractSchema_extended_string, ExtractSchema_extended_category;
      reflexivity]].
  - intros Hc Hall. rewrite ExtractSchema_extended_category.
    destruct (mergeCategory_set c (Schema.set_Extended true s) Hc)
      as (s1 & Hm & Hset & Hnd & Hext & Hcols & Hfks).
    rewrite Hm, (extractColumns_wellShaped _ _ _ Hall).
    eexists. split; [reflexivity|]. simpl.
    split; [exact Hext|]. split; [exact Hset|]. split; [exact Hnd|].
    split; [rewrite Hcols|rewrite Hfks]; reflexivity.
  - intros Hc. rewrite ExtractSchema_extended_category.
    rewrite (mergeCategory_miss c _ (isCategory_false c Hc)). reflexivity.
Qed.

Lemma ExtractSchema_extended_by_category_witness :
  exists s',
    Schema.ExtractSchema (Name "extended_schema") [Name "POSIX"; List []] []
      Schema.NewEmptySchema = (s', Ok tt) /\
    platformSet s' = {[ "linux"; "darwin"; "freebsd" ]} /\
  Schema.ExtractSchema (Name "extended_schema") [Name "SOLARIS"; List []] []
    Schema.NewEmptySchema
  = (Schema.set_Extended true Schema.NewEmptySchema, Err (ErrNoTableCategory "SOLARIS")).
Proof.
  destruct (proj1 (ExtractSchema_extended_by_category Schema.NewEmptySchema
                     "POSIX" [] [] []) eq_refl eq_refl)
    as (s' & Hrun & _ & Hset & _).
  exists s'. split; [exact Hrun|]. split.
  - rewrite Hset. vm_compute. reflexivity.
  - apply (proj1 (proj2 (ExtractSchema_extended_by_category Schema.NewEmptySchema
                           "SOLARIS" [] [] []))).
    reflexivity.
Defined.
